(** * rustique website: client-side behaviour of [websiteV3/js/main.js]

    A shallow embedding of the page script.  The document is a list of
    elements in document order, a node is an index in that list, and every
    handler of the script is a computation in a small state-and-fault monad
    over the page state (document, local storage, closure variables of the
    modules, pending timers). *)

From Stdlib Require Import QArith Qcanon.
From stdpp Require Import base numbers list strings gmap pretty.

Set Default Proof Using "Type".

(** ** Elements and the document *)

Abbreviation node := nat.

(** An inline style value.  The progress bar's width is the template string
    [`${percentage}%`]; the model keeps the number, as an exact rational. *)
Inductive StyleVal := Percent (q : Qc) | Keyword (s : string).

Record Element := mkElement {
  localName : string;
  classList : list string;              (* DOMTokenList: ordered, no repeats *)
  attributes : gmap string string;
  style : gmap string StyleVal;         (* inline style declarations *)
  textContent : string;
  checked : bool;                       (* checkbox state *)
  complete : bool;                      (* img.complete *)
  offsetTop : Z;
  offsetHeight : Z
}.

Definition with_classList (f : list string → list string) (e : Element) : Element :=
  mkElement (localName e) (f (classList e)) (attributes e) (style e)
            (textContent e) (checked e) (complete e) (offsetTop e) (offsetHeight e).

Definition with_attributes (f : gmap string string → gmap string string) (e : Element) : Element :=
  mkElement (localName e) (classList e) (f (attributes e)) (style e)
            (textContent e) (checked e) (complete e) (offsetTop e) (offsetHeight e).

Definition with_style (f : gmap string StyleVal → gmap string StyleVal) (e : Element) : Element :=
  mkElement (localName e) (classList e) (attributes e) (f (style e))
            (textContent e) (checked e) (complete e) (offsetTop e) (offsetHeight e).

Definition with_textContent (t : string) (e : Element) : Element :=
  mkElement (localName e) (classList e) (attributes e) (style e)
            t (checked e) (complete e) (offsetTop e) (offsetHeight e).

Definition with_checked (b : bool) (e : Element) : Element :=
  mkElement (localName e) (classList e) (attributes e) (style e)
            (textContent e) b (complete e) (offsetTop e) (offsetHeight e).

(** [DOMTokenList] operations. *)
Definition token_contains (c : string) (l : list string) : bool := bool_decide (c ∈ l).
Definition token_add (c : string) (l : list string) : list string :=
  if token_contains c l then l else l ++ [c].
Definition token_remove (c : string) (l : list string) : list string :=
  filter (λ x, x ≠ c) l.
Definition token_toggle (c : string) (l : list string) : list string :=
  if token_contains c l then token_remove c l else token_add c l.

(** Selectors used by the script. *)
Definition sel_class (c : string) (e : Element) : bool := token_contains c (classList e).
Definition sel_tag (t : string) (e : Element) : bool := bool_decide (localName e = t).
Definition sel_id (i : string) (e : Element) : bool :=
  bool_decide (attributes e !! "id" = Some i).
Definition sel_has_attr (a : string) (e : Element) : bool :=
  bool_decide (is_Some (attributes e !! a)).
Definition sel_section_id (e : Element) : bool := sel_tag "section" e && sel_has_attr "id" e.
(** An element of class nav-link whose href attribute is [#sectionId]. *)
Definition sel_nav_link_href (sectionId : string) (e : Element) : bool :=
  sel_class "nav-link" e && bool_decide (attributes e !! "href" = Some ("#" +:+ sectionId)).

(** The characters that do not stand for themselves inside a double-quoted
    CSS string: the quote ends the string, the backslash starts an escape, a
    line break (LF, FF, CR) makes the string a bad token, and NUL is
    replaced by the tokenizer. *)
Definition css_special : list Ascii.ascii := Ascii.ascii_of_nat <$> [0; 10; 12; 13; 34; 92].

(** An identifier that is pasted into a double-quoted CSS string unchanged. *)
Fixpoint css_plain (s : string) : bool :=
  match s with
  | EmptyString => true
  | String c s' => negb (bool_decide (c ∈ css_special)) && css_plain s'
  end.

(** The template string of lines 411 and 413: the section identifier pasted
    between double quotes. *)
Definition double_quote : string := String (Ascii.ascii_of_nat 34) EmptyString.
Definition nav_link_selector (sectionId : string) : string :=
  ".nav-link[href=" +:+ double_quote +:+ "#" +:+ sectionId +:+ double_quote +:+ "]".

Fixpoint matching_from (p : Element → bool) (i : node) (d : list Element) : list node :=
  match d with
  | [] => []
  | e :: d' => (if p e then [i] else []) ++ matching_from p (S i) d'
  end.

Definition querySelectorAll (p : Element → bool) (d : list Element) : list node :=
  matching_from p 0 d.
Definition querySelector (p : Element → bool) (d : list Element) : option node :=
  head (querySelectorAll p d).
(** [document.getElementById]: the first element whose id is [i]; the empty
    string is no identifier, and the result is [null] for it. *)
Definition getElementById (i : string) (d : list Element) : option node :=
  if bool_decide (i = "") then None else querySelector (sel_id i) d.
Definition document_images (d : list Element) : list node := querySelectorAll (sel_tag "img") d.
Definition document_body (d : list Element) : option node := querySelector (sel_tag "body") d.
Definition document_documentElement (d : list Element) : option node :=
  querySelector (sel_tag "html") d.

Definition has_class (d : list Element) (n : node) (c : string) : bool :=
  match d !! n with
  | Some e => token_contains c (classList e)
  | None => false
  end.

Definition getAttribute (d : list Element) (n : node) (a : string) : option string :=
  e ← d !! n; attributes e !! a.

(** The element references captured when the script is evaluated
    (lines 1-13, and [sections] inside [activeNavigation]). *)
Record Env := mkEnv {
  loader : option node;
  progress : option node;
  header : option node;
  mobileMenuBtn : option node;
  hamburger : option node;
  navLinks : option node;
  navLinksItems : list node;
  themeToggle : option node;
  tabBtns : list node;
  tabPanes : list node;
  backToTopBtn : option node;
  counterItems : list node;
  scrollLinks : list node;
  sections : list node
}.

Definition capture (d : list Element) : Env := {|
  loader := querySelector (sel_class "loader") d;
  progress := querySelector (sel_class "progress") d;
  header := querySelector (sel_class "header") d;
  mobileMenuBtn := querySelector (sel_class "mobile-menu-btn") d;
  hamburger := querySelector (sel_class "hamburger") d;
  navLinks := querySelector (sel_class "nav-links") d;
  navLinksItems := querySelectorAll (sel_class "nav-link") d;
  themeToggle := getElementById "theme-toggle" d;
  tabBtns := querySelectorAll (sel_class "tab-btn") d;
  tabPanes := querySelectorAll (sel_class "tab-pane") d;
  backToTopBtn := querySelector (sel_class "back-to-top") d;
  counterItems := querySelectorAll (sel_class "counter-number") d;
  scrollLinks := querySelectorAll (sel_has_attr "data-scroll") d;
  sections := querySelectorAll sel_section_id d
|}.

(** ** Numbers of the script *)

(** The result of [parseInt], and of the arithmetic on it: [NaN], an
    infinity (from the division by zero), or an integer. *)
Inductive jsnum := NaN | Infinity | Num (z : Z).

(** [count >= target] for an integer [count]. *)
Definition ge_target (count : Z) (target : jsnum) : bool :=
  match target with
  | NaN => false
  | Infinity => false
  | Num t => bool_decide (t ≤ count)%Z
  end.

(** [Math.max(Math.floor(duration / target), 10)]. *)
Definition tick_period (duration : Z) (target : jsnum) : jsnum :=
  match target with
  | NaN => NaN
  | Infinity => Num 10
  | Num t => if bool_decide (t = 0)%Z then Infinity else Num (Z.max (duration `div` t) 10)
  end.

(** ** Page state *)

(** A running [setInterval] of the counter animation: the closure
    variables [counter], [target], [count], the period, and whether
    [clearInterval] was called on it. *)
Record Interval := mkInterval {
  iv_counter : node;
  iv_target : jsnum;
  iv_count : Z;
  iv_period : jsnum;
  iv_cleared : bool
}.

(** What a statement writes: a facet of a node, or a storage key. *)
Inductive Facet := FClass | FStyle | FAttr | FText | FChecked.
Inductive Loc := LNode (n : node) (f : Facet) | LStorage (k : string).

Global Instance Facet_eq_dec : EqDecision Facet.
Proof. solve_decision. Defined.
Global Instance Loc_eq_dec : EqDecision Loc.
Proof. solve_decision. Defined.

Inductive External := AOS_refresh | AOS_init | GSAP_registerPlugin | GSAP_from (sel : string)
                    | ParticlesJS (container : string).

(** Event listeners: the target, the event type and the callback. *)
Inductive EventTarget := TNode (n : node) | TWindow | TDocument.
Inductive Callback :=
  | CbIncrement                 (* preloader's [increment], on an image *)
  | CbMenuToggle                (* click on the menu button *)
  | CbMenuClose                 (* click on a navigation link *)
  | CbToggleTheme
  | CbHandleScroll
  | CbSmoothScroll (link : node)
  | CbTabClick (btn : node)
  | CbHighlightNavLink.

Global Instance EventTarget_eq_dec : EqDecision EventTarget.
Proof. solve_decision. Defined.
Global Instance Callback_eq_dec : EqDecision Callback.
Proof. solve_decision. Defined.

(** What the script reads from [window] and from the layout. *)
Record Window := mkWindow {
  scrollY : Z;
  innerHeight : Z;
  rectTop : node → Z                   (* [getBoundingClientRect().top] *)
}.

Record World := mkWorld {
  dom : list Element;
  localStorage : gmap string string;
  window : Window;
  loadedCount : Z;                     (* preloader closure variable *)
  totalItems : Z;                      (* preloader closure constant *)
  listeners : list (EventTarget * string * Callback);
  fadeTimeouts : nat;                  (* pending [setTimeout(..., 500)] callbacks *)
  intervals : list Interval;
  scrollTo : option Z;                 (* last [window.scrollTo] request *)
  externals : list External;           (* calls into the third-party libraries *)
  writes : list Loc                    (* write log *)
}.

Definition set_dom (f : list Element → list Element) (w : World) : World :=
  mkWorld (f (dom w)) (localStorage w) (window w) (loadedCount w) (totalItems w)
          (listeners w) (fadeTimeouts w) (intervals w) (scrollTo w) (externals w) (writes w).
Definition set_localStorage (f : gmap string string → gmap string string) (w : World) : World :=
  mkWorld (dom w) (f (localStorage w)) (window w) (loadedCount w) (totalItems w)
          (listeners w) (fadeTimeouts w) (intervals w) (scrollTo w) (externals w) (writes w).
Definition set_window (v : Window) (w : World) : World :=
  mkWorld (dom w) (localStorage w) v (loadedCount w) (totalItems w)
          (listeners w) (fadeTimeouts w) (intervals w) (scrollTo w) (externals w) (writes w).
Definition set_loadedCount (f : Z → Z) (w : World) : World :=
  mkWorld (dom w) (localStorage w) (window w) (f (loadedCount w)) (totalItems w)
          (listeners w) (fadeTimeouts w) (intervals w) (scrollTo w) (externals w) (writes w).
Definition set_listeners (f : list (EventTarget * string * Callback) → list (EventTarget * string * Callback))
    (w : World) : World :=
  mkWorld (dom w) (localStorage w) (window w) (loadedCount w) (totalItems w)
          (f (listeners w)) (fadeTimeouts w) (intervals w) (scrollTo w) (externals w) (writes w).
Definition set_fadeTimeouts (f : nat → nat) (w : World) : World :=
  mkWorld (dom w) (localStorage w) (window w) (loadedCount w) (totalItems w)
          (listeners w) (f (fadeTimeouts w)) (intervals w) (scrollTo w) (externals w) (writes w).
Definition set_intervals (f : list Interval → list Interval) (w : World) : World :=
  mkWorld (dom w) (localStorage w) (window w) (loadedCount w) (totalItems w)
          (listeners w) (fadeTimeouts w) (f (intervals w)) (scrollTo w) (externals w) (writes w).
Definition set_scrollTo (z : Z) (w : World) : World :=
  mkWorld (dom w) (localStorage w) (window w) (loadedCount w) (totalItems w)
          (listeners w) (fadeTimeouts w) (intervals w) (Some z) (externals w) (writes w).
Definition call_external (x : External) (w : World) : World :=
  mkWorld (dom w) (localStorage w) (window w) (loadedCount w) (totalItems w)
          (listeners w) (fadeTimeouts w) (intervals w) (scrollTo w) (externals w ++ [x]) (writes w).
Definition log_write (l : Loc) (w : World) : World :=
  mkWorld (dom w) (localStorage w) (window w) (loadedCount w) (totalItems w)
          (listeners w) (fadeTimeouts w) (intervals w) (scrollTo w) (externals w) (writes w ++ [l]).

(** The page as the script finds it when it is evaluated: the closure
    variables of [preloader] are initialised (lines 16-17), nothing is
    registered or scheduled yet. *)
Definition load (d : list Element) (st : gmap string string) (v : Window) : World :=
  mkWorld d st v 0 (Z.of_nat (length (document_images d)) + 2) [] 0 [] None [] [].

(** ** Computations: state, and the uncaught exception of a null dereference *)

Inductive result (A : Type) := Ok (a : A) | Thrown.
Arguments Ok {A} a.
Arguments Thrown {A}.

Definition M (A : Type) : Type := World → result A * World.

Global Instance M_ret : MRet M := λ A a w, (Ok a, w).
Global Instance M_bind : MBind M := λ A B f m w,
  match m w with
  | (Ok a, w') => f a w'
  | (Thrown, w') => (Thrown, w')
  end.

Definition get {A} (f : World → A) : M A := λ w, (Ok (f w), w).
Definition modify (f : World → World) : M unit := λ w, (Ok tt, f w).
Definition deref (r : option node) : M node := λ w,
  match r with
  | Some n => (Ok n, w)
  | None => (Thrown, w)
  end.
Definition exec {A} (m : M A) (w : World) : World := (m w).2.
Definition outcome {A} (m : M A) (w : World) : result A := (m w).1.

Fixpoint forEach {A} (l : list A) (f : A → M unit) : M unit :=
  match l with
  | [] => mret tt
  | x :: l' => f x;; forEach l' f
  end.

Definition write_el (n : node) (fc : Facet) (f : Element → Element) : M unit :=
  modify (λ w, log_write (LNode n fc) (set_dom (alter f n) w)).

Definition classList_add (n : node) (c : string) : M unit :=
  write_el n FClass (with_classList (token_add c)).
Definition classList_remove (n : node) (c : string) : M unit :=
  write_el n FClass (with_classList (token_remove c)).
Definition classList_toggle (n : node) (c : string) : M unit :=
  write_el n FClass (with_classList (token_toggle c)).
Definition classList_contains (n : node) (c : string) : M bool :=
  get (λ w, has_class (dom w) n c).
Definition style_set (n : node) (prop : string) (v : StyleVal) : M unit :=
  write_el n FStyle (with_style (<[prop := v]>)).
Definition setAttribute (n : node) (a v : string) : M unit :=
  write_el n FAttr (with_attributes (<[a := v]>)).
Definition textContent_set (n : node) (t : string) : M unit :=
  write_el n FText (with_textContent t).
Definition checked_set (n : node) (b : bool) : M unit :=
  write_el n FChecked (with_checked b).
Definition localStorage_setItem (k v : string) : M unit :=
  modify (λ w, log_write (LStorage k) (set_localStorage (<[k := v]>) w)).
Definition localStorage_getItem (k : string) : M (option string) :=
  get (λ w, localStorage w !! k).

(** [addEventListener]: a listener that is already registered for the same
    target and type is not added a second time. *)
Definition addEventListener (t : EventTarget) (ty : string) (cb : Callback) : M unit :=
  modify (set_listeners (λ ls, if bool_decide ((t, ty, cb) ∈ ls) then ls else ls ++ [(t, ty, cb)])).

Definition is_complete (d : list Element) (n : node) : bool :=
  match d !! n with Some e => complete e | None => false end.
Definition is_checked (d : list Element) (n : node) : bool :=
  match d !! n with Some e => checked e | None => false end.
Definition offsetTop_of (d : list Element) (n : node) : Z :=
  match d !! n with Some e => offsetTop e | None => 0 end.
Definition offsetHeight_of (d : list Element) (n : node) : Z :=
  match d !! n with Some e => offsetHeight e | None => 0 end.

(** [(loadedCount / totalItems) * 100] *)
Definition percentage_of (loaded total : Z) : Qc :=
  (Q2Qc (inject_Z loaded) / Q2Qc (inject_Z total) * Q2Qc (inject_Z 100))%Qc.

(** ** The script *)

Section Script.

(** Two builtins are parameters: [parseInt] applied to the value of an
    attribute ([None] is [null]), and the selector engine applied to an
    arbitrary selector string ([None] is a syntax error, [Some None] is no
    match). *)
Variable parseInt : option string → jsnum.
Variable cssQuery : string → list Element → option (option node).

Variable env : Env.

(** *** preloader (lines 15-61) *)

(** The callback of [setTimeout(..., 500)] (lines 25-30). *)
Definition preloader_fade : M unit :=
  l ← deref (loader env);
  classList_add l "fade-out";;
  d ← get dom;
  b ← deref (document_body d);
  style_set b "overflow" (Keyword "visible");;
  modify (call_external AOS_refresh).

Definition increment : M unit :=
  modify (set_loadedCount Z.succ);;
  c ← get loadedCount;
  t ← get totalItems;
  let percentage := percentage_of c t in
  p ← deref (progress env);
  style_set p "width" (Percent percentage);;
  if bool_decide (t ≤ c)%Z then modify (set_fadeTimeouts S) else mret tt.

(** Lines 39-51: one increment per complete image and listeners on the
    others, or two increments when the page has no image. *)
Definition preloader_count_images : M unit :=
  d ← get dom;
  if bool_decide (0 < length (document_images d)) then
    forEach (document_images d) (λ img,
      d' ← get dom;
      if is_complete d' img then increment
      else addEventListener (TNode img) "load" CbIncrement;;
           addEventListener (TNode img) "error" CbIncrement)
  else increment;; increment.

(** Lines 54-55. *)
Definition preloader_count_css_js : M unit := increment;; increment.

Definition preloader_init : M unit :=
  p ← deref (progress env);
  style_set p "width" (Percent (Q2Qc (inject_Z 0)));;
  preloader_count_images;;
  preloader_count_css_js.

(** *** mobileMenu (lines 66-87) *)

Definition mobileMenu_toggle : M unit :=
  h ← deref (hamburger env);
  classList_toggle h "active";;
  n ← deref (navLinks env);
  classList_toggle n "active";;
  d ← get dom;
  b ← deref (document_body d);
  classList_toggle b "menu-open".

Definition mobileMenu_close : M unit :=
  h ← deref (hamburger env);
  classList_remove h "active";;
  n ← deref (navLinks env);
  classList_remove n "active";;
  d ← get dom;
  b ← deref (document_body d);
  classList_remove b "menu-open".

Definition mobileMenu_init : M unit :=
  btn ← deref (mobileMenuBtn env);
  addEventListener (TNode btn) "click" CbMenuToggle;;
  forEach (navLinksItems env) (λ link, addEventListener (TNode link) "click" CbMenuClose).

(** *** themeSwitcher (lines 92-112) *)

Definition theme_name (isDarkMode : bool) : string := if isDarkMode then "dark" else "light".

Definition toggleTheme : M unit :=
  t ← deref (themeToggle env);
  d ← get dom;
  let isDarkMode := is_checked d t in
  h ← deref (document_documentElement d);
  setAttribute h "data-theme" (theme_name isDarkMode);;
  localStorage_setItem "theme" (theme_name isDarkMode).

(** [localStorage.getItem('theme') || 'dark']: [null] and the empty string
    are falsy. *)
Definition saved_or_dark (s : option string) : string :=
  match s with
  | Some v => if bool_decide (v = "") then "dark" else v
  | None => "dark"
  end.

Definition themeSwitcher_init : M unit :=
  s ← localStorage_getItem "theme";
  let savedTheme := saved_or_dark s in
  d ← get dom;
  h ← deref (document_documentElement d);
  setAttribute h "data-theme" savedTheme;;
  t ← deref (themeToggle env);
  checked_set t (bool_decide (savedTheme = "dark"));;
  addEventListener (TNode t) "change" CbToggleTheme.

(** *** scrollEffects (lines 117-195) *)

Definition setInterval_counter (counter : node) (target : jsnum) : M unit :=
  modify (set_intervals (λ l, l ++ [mkInterval counter target 0 (tick_period 2000 target) false])).

Definition animateCounters : M unit :=
  forEach (counterItems env) (λ counter,
    win ← get window;
    let counterPosition := rectTop win counter in
    let windowHeight := innerHeight win in
    animated ← classList_contains counter "animated";
    if bool_decide (counterPosition < windowHeight)%Z && negb animated then
      classList_add counter "animated";;
      d ← get dom;
      let target := parseInt (getAttribute d counter "data-target") in
      setInterval_counter counter target
    else mret tt).

(** One firing of the interval callback (lines 172-178) of the [i]-th
    interval; a cleared interval does not fire. *)
Definition interval_tick (i : nat) : M unit :=
  ivs ← get intervals;
  match ivs !! i with
  | None => mret tt
  | Some iv =>
      if iv_cleared iv then mret tt
      else
        let count := (iv_count iv + 1)%Z in
        modify (set_intervals (<[i := mkInterval (iv_counter iv) (iv_target iv) count
                                                 (iv_period iv) false]>));;
        textContent_set (iv_counter iv) (pretty count);;
        if ge_target count (iv_target iv) then
          modify (set_intervals (<[i := mkInterval (iv_counter iv) (iv_target iv) count
                                                   (iv_period iv) true]>))
        else mret tt
  end.

Definition handleScroll : M unit :=
  scrollPosition ← get (λ w, scrollY (window w));
  (if bool_decide (50 < scrollPosition)%Z then
     h ← deref (header env); classList_add h "scrolled"
   else
     h ← deref (header env); classList_remove h "scrolled");;
  (if bool_decide (500 < scrollPosition)%Z then
     b ← deref (backToTopBtn env); classList_add b "active"
   else
     b ← deref (backToTopBtn env); classList_remove b "active");;
  animateCounters.

Definition smoothScroll_click (link : node) : M unit :=
  d ← get dom;
  let targetId := default "null" (getAttribute d link "href") in
  match cssQuery targetId d with
  | None => λ w, (Thrown, w)
  | Some None => mret tt
  | Some (Some targetElement) =>
      let offsetTop := (offsetTop_of d targetElement - 100)%Z in
      modify (set_scrollTo offsetTop)
  end.

Definition setupSmoothScroll : M unit :=
  forEach (scrollLinks env) (λ link, addEventListener (TNode link) "click" (CbSmoothScroll link)).

Definition scrollEffects_init : M unit :=
  addEventListener TWindow "scroll" CbHandleScroll;;
  setupSmoothScroll;;
  handleScroll.

(** *** featureTabs (lines 200-220) *)

Definition tab_click (btn : node) : M unit :=
  d ← get dom;
  let tabId := default "null" (getAttribute d btn "data-tab") in
  forEach (tabBtns env) (λ b, classList_remove b "active");;
  forEach (tabPanes env) (λ p, classList_remove p "active");;
  classList_add btn "active";;
  d' ← get dom;
  pane ← deref (getElementById tabId d');
  classList_add pane "active".

Definition featureTabs_init : M unit :=
  forEach (tabBtns env) (λ btn, addEventListener (TNode btn) "click" (CbTabClick btn)).

(** *** animations and particlesBackground (lines 225-394): calls into
    the libraries only *)

Definition animations_init : M unit :=
  modify (call_external AOS_init);;
  modify (call_external GSAP_registerPlugin);;
  modify (call_external (GSAP_from ".timeline-item"));;
  modify (call_external (GSAP_from ".feature-card")).

Definition particlesBackground_init : M unit :=
  d ← get dom;
  match getElementById "particles-js" d with
  | Some _ => modify (call_external (ParticlesJS "particles-js"))
  | None => mret tt
  end.

(** *** activeNavigation (lines 399-426) *)

(** The answer of the selector engine, which is an element of the
    document. *)
Definition engine_query (sel : string) (d : list Element) : option (option node) :=
  match cssQuery sel d with
  | Some (Some n) => if bool_decide (n < length d) then Some (Some n) else Some None
  | r => r
  end.

(** [document.querySelector(`.nav-link[href="#${sectionId}"]`)].  A plain
    identifier is the value of the attribute selector, and the result is the
    first element of class nav-link whose href is [#sectionId].  Any other
    identifier changes the selector itself, and the result is the engine's:
    a syntax error ([None]), no element, or some element. *)
Definition querySelector_nav_link (sectionId : string) (d : list Element)
    : option (option node) :=
  if css_plain sectionId then Some (querySelector (sel_nav_link_href sectionId) d)
  else engine_query (nav_link_selector sectionId) d.

Definition highlightNavLink : M unit :=
  scrollY ← get (λ w, scrollY (window w));
  forEach (sections env) (λ section,
    d ← get dom;
    let sectionHeight := offsetHeight_of d section in
    let sectionTop := (offsetTop_of d section - 100)%Z in
    let sectionId := default "null" (getAttribute d section "id") in
    if bool_decide (sectionTop < scrollY)%Z && bool_decide (scrollY ≤ sectionTop + sectionHeight)%Z then
      match querySelector_nav_link sectionId d with
      | None => λ w, (Thrown, w)
      | Some (Some link) => classList_add link "active"
      | Some None => mret tt
      end
    else
      match querySelector_nav_link sectionId d with
      | None => λ w, (Thrown, w)
      | Some (Some link) => classList_remove link "active"
      | Some None => mret tt
      end).

Definition activeNavigation_init : M unit :=
  addEventListener TWindow "scroll" CbHighlightNavLink;;
  highlightNavLink.

(** *** Events *)

Definition run_callback (cb : Callback) : M unit :=
  match cb with
  | CbIncrement => increment
  | CbMenuToggle => mobileMenu_toggle
  | CbMenuClose => mobileMenu_close
  | CbToggleTheme => toggleTheme
  | CbHandleScroll => handleScroll
  | CbSmoothScroll link => smoothScroll_click link
  | CbTabClick btn => tab_click btn
  | CbHighlightNavLink => highlightNavLink
  end.

(** An exception in a listener is reported and the next listener runs. *)
Definition attempt (m : M unit) : M unit := λ w, (Ok tt, (m w).2).

Definition dispatch (t : EventTarget) (ty : string) : M unit :=
  ls ← get listeners;
  forEach (filter (λ l, l.1.1 = t ∧ l.1.2 = ty) ls) (λ l, attempt (run_callback l.2)).

(** The pending timeout of the preloader fires. *)
Definition fire_fadeTimeout : M unit :=
  n ← get fadeTimeouts;
  match n with
  | O => mret tt
  | S n' => modify (set_fadeTimeouts (λ _, n'));; preloader_fade
  end.

(** The [DOMContentLoaded] listener (lines 431-441). *)
Definition main : M unit :=
  preloader_init;;
  mobileMenu_init;;
  themeSwitcher_init;;
  scrollEffects_init;;
  featureTabs_init;;
  animations_init;;
  particlesBackground_init;;
  activeNavigation_init.

End Script.

(** ** Definitions used in the statements *)

(** What one click on the menu button does to the class memberships: each
    toggle that is reached flips one membership. *)
Definition menu_flips (env : Env) (d : list Element) (n : node) (c : string) : bool :=
  match hamburger env with
  | None => false
  | Some h =>
      xorb (bool_decide (n = h) && bool_decide (c = "active") && bool_decide (h < length d))
        match navLinks env with
        | None => false
        | Some l =>
            xorb (bool_decide (n = l) && bool_decide (c = "active") && bool_decide (l < length d))
              match document_body d with
              | None => false
              | Some b =>
                  bool_decide (n = b) && bool_decide (c = "menu-open") && bool_decide (b < length d)
              end
        end
  end.

(** A small page with every element the script looks for. *)
Definition elem (tag : string) (classes : list string) (attrs : list (string * string)) : Element :=
  mkElement tag classes (list_to_map attrs) ∅ "" false false 0 0.
Definition image (isComplete : bool) : Element :=
  mkElement "img" [] ∅ ∅ "" false isComplete 0 0.
Definition section_at (i : string) (top height : Z) : Element :=
  mkElement "section" [] {[ "id" := i ]} ∅ "" false false top height.

Definition sample_page : list Element :=
  [ elem "html" [] [];
    elem "body" [] [];
    elem "div" ["loader"] [];
    elem "div" ["progress"] [];
    elem "header" ["header"] [];
    elem "button" ["mobile-menu-btn"] [];
    elem "span" ["hamburger"] [];
    elem "ul" ["nav-links"] [];
    elem "a" ["nav-link"] [("href", "#about")];
    elem "a" ["nav-link"] [("href", "#features")];
    elem "input" [] [("id", "theme-toggle")];
    elem "button" ["tab-btn"; "active"] [("data-tab", "tab1")];
    elem "button" ["tab-btn"] [("data-tab", "tab2")];
    elem "div" ["tab-pane"; "active"] [("id", "tab1")];
    elem "div" ["tab-pane"] [("id", "tab2")];
    elem "a" ["back-to-top"] [];
    elem "span" ["counter-number"] [("data-target", "3")];
    section_at "about" 200 300;
    section_at "features" 500 400;
    image true;
    image false ].

Definition sample_window : Window := mkWindow 0 800 (λ _, 1000%Z).
Definition sample_world : World := load sample_page ∅ sample_window.
Definition sample_env : Env := capture sample_page.

(** [e'] is [e] up to class list, style, text and checked state, with the
    same membership for every class outside [cs]. *)
Definition same_markup (cs : list string) (e e' : Element) : Prop :=
  localName e' = localName e ∧ attributes e' = attributes e ∧ complete e' = complete e ∧
  offsetTop e' = offsetTop e ∧ offsetHeight e' = offsetHeight e ∧
  ∀ c, c ∉ cs → token_contains c (classList e') = token_contains c (classList e).

(** The data [highlightNavLink] computes for one section. *)
Definition section_id (d : list Element) (section : node) : string :=
  default "null" (getAttribute d section "id").
(** The navigation link of a section whose identifier is plain. *)
Definition nav_link_of (d : list Element) (section : node) : option node :=
  querySelector (sel_nav_link_href (section_id d section)) d.
Definition section_top (d : list Element) (section : node) : Z :=
  (offsetTop_of d section - 100)%Z.
Definition section_test (d : list Element) (y : Z) (section : node) : bool :=
  bool_decide (section_top d section < y)%Z
  && bool_decide (y ≤ section_top d section + offsetHeight_of d section)%Z.

(** The body of the loop of [highlightNavLink], for one section. *)
Definition nav_step (cssQuery : string → list Element → option (option node))
    (scrollY : Z) (section : node) : M unit :=
  d ← get dom;
  let sectionHeight := offsetHeight_of d section in
  let sectionTop := (offsetTop_of d section - 100)%Z in
  let sectionId := default "null" (getAttribute d section "id") in
  if bool_decide (sectionTop < scrollY)%Z && bool_decide (scrollY ≤ sectionTop + sectionHeight)%Z then
    match querySelector_nav_link cssQuery sectionId d with
    | None => λ w, (Thrown, w)
    | Some (Some link) => classList_add link "active"
    | Some None => mret tt
    end
  else
    match querySelector_nav_link cssQuery sectionId d with
    | None => λ w, (Thrown, w)
    | Some (Some link) => classList_remove link "active"
    | Some None => mret tt
    end.

(** Every section identifier of the page is plain. *)
Definition plain_sections (env : Env) (d : list Element) : bool :=
  forallb (λ s, css_plain (section_id d s)) (sections env).

(** The last section of [L] whose navigation link is [link]. *)
Fixpoint nav_last (d : list Element) (link : node) (L : list node) : option node :=
  match L with
  | [] => None
  | s :: L' =>
      match nav_last d link L' with
      | Some s' => Some s'
      | None => if decide (nav_link_of d s = Some link) then Some s else None
      end
  end.

(** A sequence of clicks on tab buttons, each click a separate event. *)
Definition tab_clicks (env : Env) (clicks : list node) (w : World) : World :=
  foldl (λ w btn, exec (tab_click env btn) w) w clicks.

(** A page whose only tab button names a pane that does not exist. *)
Definition orphan_tab_page : list Element :=
  [ elem "html" [] [];
    elem "body" [] [];
    elem "button" ["tab-btn"] [("data-tab", "missing")];
    elem "div" ["tab-pane"; "active"] [("id", "tab1")] ].

(** The body of the loop of [animateCounters], for one counter. *)
Definition counter_step (parseInt : option string → jsnum) (counter : node) : M unit :=
  win ← get window;
  let counterPosition := rectTop win counter in
  let windowHeight := innerHeight win in
  animated ← classList_contains counter "animated";
  if bool_decide (counterPosition < windowHeight)%Z && negb animated then
    classList_add counter "animated";;
    d ← get dom;
    let target := parseInt (getAttribute d counter "data-target") in
    setInterval_counter counter target
  else mret tt.

(** [k] firings of the [i]-th interval. *)
Definition ticks (k : nat) (i : nat) (w : World) : World :=
  Nat.iter k (exec (interval_tick i)) w.

(** The [i]-th interval left to run until it clears itself, for at most
    [fuel] firings: the number of firings and the final state. *)
Fixpoint run_interval (fuel : nat) (i : nat) (w : World) : nat * World :=
  match fuel with
  | O => (O, w)
  | S fuel' =>
      match intervals w !! i with
      | Some iv =>
          if iv_cleared iv then (O, w)
          else let r := run_interval fuel' i (exec (interval_tick i) w) in (S r.1, r.2)
      | None => (O, w)
      end
  end.

Definition textContent_of (d : list Element) (n : node) : string :=
  match d !! n with Some e => textContent e | None => "" end.

(** The number of intervals started for a counter. *)
Definition started (counter : node) (w : World) : nat :=
  length (filter (λ iv, iv_counter iv = counter) (intervals w)).

(** The events that concern the counters: a scroll (the window as it is
    after the scroll) and a firing of an interval. *)
Inductive CounterEvent := EvScroll (v : Window) | EvTick (i : nat).

Definition counter_event (parseInt : option string → jsnum) (env : Env) (e : CounterEvent)
    (w : World) : World :=
  match e with
  | EvScroll v => exec (handleScroll parseInt env) (set_window v w)
  | EvTick i => exec (interval_tick i) w
  end.

Definition counter_events (parseInt : option string → jsnum) (env : Env)
    (es : list CounterEvent) (w : World) : World :=
  foldl (λ w e, counter_event parseInt env e w) w es.

(** A [parseInt] for the sample pages. *)
Definition sample_parseInt (s : option string) : jsnum :=
  match s with
  | Some "3" => Num 3
  | Some "0" => Num 0
  | Some "-2" => Num (-2)
  | _ => NaN
  end.

(** [m] started in a state satisfying [P] ends in a state satisfying [Q]
    when it returns, and [E] when it throws. *)
Definition triple {A} (P : World → Prop) (m : M A) (Q : A → World → Prop) (E : World → Prop) : Prop :=
  ∀ w, P w → match m w with (Ok a, w') => Q a w' | (Thrown, w') => E w' end.

(** [I] holds after [m], however [m] ends. *)
Definition keeps {A} (I : World → Prop) (m : M A) : Prop := triple I m (λ _, I) I.

(** A page with one counter, with or without a data-target attribute. *)
Definition counter_page (target : option string) : list Element :=
  [ elem "html" [] [];
    elem "body" [] [];
    elem "header" ["header"] [];
    elem "a" ["back-to-top"] [];
    elem "span" ["counter-number"]
      match target with Some t => [("data-target", t)] | None => [] end ].

(** A window in which every element is in the viewport. *)
Definition near_window : Window := mkWindow 0 800 (λ _, 100%Z).

(** A counter that is marked, with [n] intervals started for it. *)
Definition animated_with (counter : node) (n : nat) (w : World) : Prop :=
  has_class (dom w) counter "animated" = true ∧ started counter w = n.

(** The invariant of the counters: at most one interval each, and none
    for a counter that is not marked. *)
Definition counters_inv (len : nat) (w : World) : Prop :=
  length (dom w) = len ∧
  ∀ c, started c w ≤ 1 ∧ (has_class (dom w) c "animated" = false → started c w = 0).

(** The inline width of the progress bar. *)
Definition width_of (d : list Element) (n : node) : option StyleVal :=
  e ← d !! n; style e !! "width".

(** The images still loading when [init] runs, and the listeners [init]
    registers on them. *)
Definition pending_images (d : list Element) : list node :=
  filter (λ img, is_complete d img = false) (document_images d).
Definition image_listeners (imgs : list node) : list (EventTarget * string * Callback) :=
  imgs ≫= (λ img, [(TNode img, "load", CbIncrement); (TNode img, "error", CbIncrement)]).

(** A sequence of image events, each one dispatched to its listeners. *)
Definition image_events (parseInt : option string → jsnum)
    (cssQuery : string → list Element → option (option node)) (env : Env)
    (evs : list (node * string)) (w : World) : World :=
  foldl (λ w e, exec (dispatch parseInt cssQuery env (TNode e.1) e.2) w) w evs.

(** The preloader after [k] increments on a page [d0] whose progress bar is
    [p]: the counter, the timeouts scheduled so far, the width shown. *)
Definition preloader_at (d0 : list Element) (p : node) (k : Z) (w : World) : Prop :=
  Forall2 (same_markup []) d0 (dom w) ∧
  totalItems w = (Z.of_nat (length (document_images d0)) + 2)%Z ∧
  loadedCount w = k ∧
  fadeTimeouts w = Z.to_nat (k - totalItems w + 1) ∧
  ((1 ≤ k)%Z → width_of (dom w) p = Some (Percent (percentage_of k (totalItems w)))).

(** The body of the loop of [preloader.init], for one image. *)
Definition image_step (env : Env) (img : node) : M unit :=
  d' ← get dom;
  if is_complete d' img then increment env
  else addEventListener (TNode img) "load" CbIncrement;;
       addEventListener (TNode img) "error" CbIncrement.

Definition still_loading (d : list Element) (imgs : list node) : list node :=
  filter (λ img, is_complete d img = false) imgs.

(** A whole number of percent. *)
Definition percent (z : Z) : StyleVal := Percent (Q2Qc (inject_Z z)).

(** *** Modules, handlers and what they write *)

Inductive Module :=
  | Preloader | MobileMenu | ThemeSwitcher | ScrollEffects | FeatureTabs
  | Animations | ParticlesBackground | ActiveNavigation.

Global Instance Module_eq_dec : EqDecision Module.
Proof. solve_decision. Defined.

(** Every piece of code of the script that runs as a unit: the [init] of a
    module, a listener, a timer callback. *)
Inductive Handler :=
  | HPreloaderInit | HIncrement | HFade
  | HMenuInit | HMenuToggle | HMenuClose
  | HThemeInit | HToggleTheme
  | HScrollInit | HHandleScroll | HSmoothScroll (link : node) | HIntervalTick (i : nat)
  | HTabsInit | HTabClick (btn : node)
  | HAnimationsInit
  | HParticlesInit
  | HNavInit | HHighlightNavLink.

Definition module_of (h : Handler) : Module :=
  match h with
  | HPreloaderInit | HIncrement | HFade => Preloader
  | HMenuInit | HMenuToggle | HMenuClose => MobileMenu
  | HThemeInit | HToggleTheme => ThemeSwitcher
  | HScrollInit | HHandleScroll | HSmoothScroll _ | HIntervalTick _ => ScrollEffects
  | HTabsInit | HTabClick _ => FeatureTabs
  | HAnimationsInit => Animations
  | HParticlesInit => ParticlesBackground
  | HNavInit | HHighlightNavLink => ActiveNavigation
  end.

Definition run_handler (parseInt : option string → jsnum)
    (cssQuery : string → list Element → option (option node)) (env : Env) (h : Handler) : M unit :=
  match h with
  | HPreloaderInit => preloader_init env
  | HIncrement => increment env
  | HFade => preloader_fade env
  | HMenuInit => mobileMenu_init env
  | HMenuToggle => mobileMenu_toggle env
  | HMenuClose => mobileMenu_close env
  | HThemeInit => themeSwitcher_init env
  | HToggleTheme => toggleTheme env
  | HScrollInit => scrollEffects_init parseInt env
  | HHandleScroll => handleScroll parseInt env
  | HSmoothScroll link => smoothScroll_click cssQuery link
  | HIntervalTick i => interval_tick i
  | HTabsInit => featureTabs_init env
  | HTabClick btn => tab_click env btn
  | HAnimationsInit => animations_init
  | HParticlesInit => particlesBackground_init
  | HNavInit => activeNavigation_init cssQuery env
  | HHighlightNavLink => highlightNavLink cssQuery env
  end.

(** The click listener of a tab button is registered on tab buttons only. *)
Definition handler_ok (env : Env) (h : Handler) : Prop :=
  match h with
  | HTabClick btn => btn ∈ tabBtns env
  | _ => True
  end.

Definition clear_log (w : World) : World :=
  mkWorld (dom w) (localStorage w) (window w) (loadedCount w) (totalItems w)
          (listeners w) (fadeTimeouts w) (intervals w) (scrollTo w) (externals w) [].

(** The write footprint of one run of a handler. *)
Definition footprint (parseInt : option string → jsnum)
    (cssQuery : string → list Element → option (option node)) (env : Env) (h : Handler)
    (w : World) : list Loc :=
  writes (exec (run_handler parseInt cssQuery env h) (clear_log w)).

(** The classes and the attribute the script changes. *)
Definition script_classes : list string :=
  ["fade-out"; "active"; "menu-open"; "scrolled"; "animated"].

(** [e'] is [e] after some handlers of the script ran. *)
Definition script_variant (e e' : Element) : Prop :=
  localName e' = localName e ∧
  (∀ a, a ≠ "data-theme" → attributes e' !! a = attributes e !! a) ∧
  (∀ c, c ∉ script_classes → token_contains c (classList e') = token_contains c (classList e)).

(** A state of the page [d0]: the document is a variant of [d0], and the
    running intervals belong to counters. *)
Definition page_state (env : Env) (d0 : list Element) (w : World) : Prop :=
  Forall2 script_variant d0 (dom w) ∧
  Forall (λ iv, iv_counter iv ∈ counterItems env) (intervals w).

Definition tab_target (d : list Element) (btn : node) : option node :=
  getElementById (default "null" (getAttribute d btn "data-tab")) d.

(** The elements a module looks up to write to.  The navigation highlighter
    looks up the link of each section; when a section identifier is not
    plain the selector is not the one the code means, and any element of the
    document can be the result. *)
Definition bound_nodes (env : Env) (d0 : list Element) (m : Module) : list node :=
  match m with
  | Preloader =>
      option_list (progress env) ++ option_list (loader env) ++ option_list (document_body d0)
  | MobileMenu =>
      option_list (hamburger env) ++ option_list (navLinks env) ++ option_list (document_body d0)
  | ThemeSwitcher => option_list (document_documentElement d0) ++ option_list (themeToggle env)
  | ScrollEffects => option_list (header env) ++ option_list (backToTopBtn env) ++ counterItems env
  | FeatureTabs => tabBtns env ++ tabPanes env ++ omap (tab_target d0) (tabBtns env)
  | ActiveNavigation =>
      if plain_sections env d0 then omap (nav_link_of d0) (sections env)
      else seq 0 (length d0)
  | Animations | ParticlesBackground => []
  end.

(** What a module writes of them. *)
Definition own_locs (env : Env) (d0 : list Element) (m : Module) : list Loc :=
  match m with
  | Preloader =>
      ((λ n, LNode n FStyle) <$> option_list (progress env))
      ++ ((λ n, LNode n FClass) <$> option_list (loader env))
      ++ ((λ n, LNode n FStyle) <$> option_list (document_body d0))
  | ThemeSwitcher =>
      ((λ n, LNode n FAttr) <$> option_list (document_documentElement d0))
      ++ ((λ n, LNode n FChecked) <$> option_list (themeToggle env))
      ++ [LStorage "theme"]
  | ScrollEffects =>
      ((λ n, LNode n FClass) <$> bound_nodes env d0 ScrollEffects)
      ++ ((λ n, LNode n FText) <$> counterItems env)
  | m => (λ n, LNode n FClass) <$> bound_nodes env d0 m
  end.

(** The markup keeps the modules apart: an element looked up by two
    modules is the body, looked up by the preloader and by the mobile menu;
    and the body is not the loader. *)
Definition modules_apart (env : Env) (d0 : list Element) : Prop :=
  (∀ m1 m2 n, m1 ≠ m2 → n ∈ bound_nodes env d0 m1 → n ∈ bound_nodes env d0 m2 →
     document_body d0 = Some n ∧
     ((m1 = Preloader ∧ m2 = MobileMenu) ∨ (m1 = MobileMenu ∧ m2 = Preloader))) ∧
  (∀ b, document_body d0 = Some b → loader env ≠ Some b).

(** The state in which a handler of module [m] leaves the page: what the
    log holds beyond [old] is the module's own. *)
Definition writes_within (old : list Loc) (env : Env) (d0 : list Element) (m : Module)
    (w : World) : Prop :=
  page_state env d0 w ∧ ∀ l, l ∈ writes w → l ∈ old ∨ l ∈ own_locs env d0 m.

(** The top of [n] is above the lower edge of the window. *)
Definition in_view (w : World) (n : node) : bool :=
  bool_decide (rectTop (window w) n < innerHeight (window w))%Z.

(** [m], started on a variant of the page [d0], returns, and leaves such a
    variant. *)
Definition runs {A} (d0 : list Element) (m : M A) : Prop :=
  triple (λ w, Forall2 script_variant d0 (dom w)) m
         (λ _ w, Forall2 script_variant d0 (dom w)) (λ _, False).

(** The callbacks registered by the modules that [main] initialises before
    [featureTabs]. *)
Definition early_callback (cb : Callback) : Prop :=
  match cb with
  | CbTabClick _ | CbHighlightNavLink => False
  | _ => True
  end.

(** Only such callbacks are registered, and no library was called beyond
    [ex]. *)
Definition early_state (ex : list External) (w : World) : Prop :=
  Forall (λ l : EventTarget * string * Callback, early_callback l.2) (listeners w) ∧
  externals w = ex.

(** A page without images. *)
Definition imageless_page : list Element :=
  [ elem "html" [] [];
    elem "body" [] [];
    elem "div" ["loader"] [];
    elem "div" ["progress"] [] ].

(** A page on which two sections carry the same id. *)
Definition twin_sections_page : list Element :=
  [ elem "html" [] [];
    elem "body" [] [];
    elem "a" ["nav-link"] [("href", "#about")];
    section_at "about" 200 300;
    section_at "about" 900 300 ].

(** A page with everything the first three modules need, a tab, and no
    header. *)
Definition headerless_page : list Element :=
  [ elem "html" [] [];
    elem "body" [] [];
    elem "div" ["loader"] [];
    elem "div" ["progress"] [];
    elem "button" ["mobile-menu-btn"] [];
    elem "input" [] [("id", "theme-toggle")];
    elem "button" ["tab-btn"] [("data-tab", "tab1")];
    elem "div" ["tab-pane"] [("id", "tab1")];
    elem "a" ["back-to-top"] [] ].

(** A page with three sections, the second with a double quote in its
    identifier. *)
Definition quoted_section_page : list Element :=
  [ elem "html" [] [];
    elem "body" [] [];
    elem "a" ["nav-link"] [("href", "#intro")];
    elem "a" ["nav-link"] [("href", "#about")];
    section_at "intro" 0 200;
    section_at ("a" +:+ double_quote +:+ "b") 200 300;
    section_at "about" 200 300 ].

(** A page with a header and a counter, and no back-to-top button. *)
Definition buttonless_page : list Element :=
  [ elem "html" [] [];
    elem "body" [] [];
    elem "header" ["header"] [];
    elem "span" ["counter-number"] [("data-target", "3")] ].

(** A page whose tab button has an empty data-tab, and a pane with an empty
    id. *)
Definition empty_tab_page : list Element :=
  [ elem "html" [] [];
    elem "body" [] [];
    elem "button" ["tab-btn"] [("data-tab", "")];
    elem "div" ["tab-pane"] [("id", "")] ].

(** A page whose tab button is itself a tab pane. *)
Definition overlap_tab_page : list Element :=
  [ elem "html" [] [];
    elem "body" [] [];
    elem "button" ["tab-btn"; "tab-pane"] [("data-tab", "tab1")];
    elem "div" ["tab-pane"] [("id", "tab1")] ].

(** A sequence of clicks, each one dispatched to the click listeners of the
    element. *)
Definition click_events (parseInt : option string → jsnum)
    (cssQuery : string → list Element → option (option node)) (env : Env)
    (clicks : list node) (w : World) : World :=
  foldl (λ w n, exec (dispatch parseInt cssQuery env (TNode n) "click") w) w clicks.

(** The click listeners [featureTabs.init] registers. *)
Definition tab_listeners (btns : list node) : list (EventTarget * string * Callback) :=
  (λ btn, (TNode btn, "click", CbTabClick btn)) <$> btns.

(** The listeners registered on [t] for events of type [ty], in the order of
    their registration: those [dispatch] runs. *)
Definition listeners_for (t : EventTarget) (ty : string) (w : World) :
    list (EventTarget * string * Callback) :=
  filter (λ l, l.1.1 = t ∧ l.1.2 = ty) (listeners w).

(** The scroll listeners of the window are the callbacks [L], in this order. *)
Definition scroll_listeners (L : list Callback) (w : World) : Prop :=
  listeners_for TWindow "scroll" w = (λ cb, (TWindow, "scroll", cb)) <$> L.

(** ** Basic facts: tokens, selectors, the monad *)

Lemma token_contains_add (c c' : string) (l : list string) :
  token_contains c' (token_add c l) = token_contains c' l || bool_decide (c' = c).
Proof.
  unfold token_add, token_contains.
  destruct (bool_decide_reflect (c ∈ l)) as [Hc|Hc].
  - destruct (bool_decide_reflect (c' = c)) as [->|_].
    + rewrite bool_decide_eq_true_2 by done. done.
    + by rewrite orb_false_r.
  - apply eq_true_iff_eq. rewrite orb_true_iff, !bool_decide_eq_true.
    rewrite elem_of_app, list_elem_of_singleton. done.
Qed.

Lemma token_contains_remove (c c' : string) (l : list string) :
  token_contains c' (token_remove c l) = token_contains c' l && negb (bool_decide (c' = c)).
Proof.
  unfold token_remove, token_contains. apply eq_true_iff_eq.
  rewrite andb_true_iff, negb_true_iff, bool_decide_eq_false, !bool_decide_eq_true.
  rewrite list_elem_of_filter. tauto.
Qed.

Lemma token_contains_toggle (c c' : string) (l : list string) :
  token_contains c' (token_toggle c l) = xorb (token_contains c' l) (bool_decide (c' = c)).
Proof.
  unfold token_toggle. destruct (token_contains c l) eqn:Hc.
  - rewrite token_contains_remove.
    destruct (bool_decide_reflect (c' = c)) as [->|_]; [rewrite Hc; done|].
    by rewrite andb_true_r, xorb_false_r.
  - rewrite token_contains_add.
    destruct (bool_decide_reflect (c' = c)) as [->|_]; [rewrite Hc; done|].
    by rewrite orb_false_r, xorb_false_r.
Qed.

Lemma matching_from_alter (p : Element → bool) (g : Element → Element) (n : node) (d : list Element) (i : node) :
  (∀ e, p (g e) = p e) →
  matching_from p i (alter g n d) = matching_from p i d.
Proof.
  intros Hp. revert n i. induction d as [|e d IH]; intros [|n] i; simpl; try done.
  - by rewrite Hp.
  - f_equal. apply IH.
Qed.

Lemma querySelector_alter (p : Element → bool) (g : Element → Element) (n : node) (d : list Element) :
  (∀ e, p (g e) = p e) →
  querySelector p (alter g n d) = querySelector p d.
Proof. intros Hp. unfold querySelector, querySelectorAll. by rewrite matching_from_alter. Qed.

Lemma matching_from_spec (p : Element → bool) (d : list Element) (i n : node) :
  n ∈ matching_from p i d ↔ ∃ k e, n = i + k ∧ d !! k = Some e ∧ p e = true.
Proof.
  revert i. induction d as [|e d IH]; intros i; simpl.
  - split; [by intros ?%elem_of_nil | by intros (k & e & _ & ? & _)].
  - rewrite elem_of_app, IH. split.
    + intros [Hn|(k & e' & -> & Hk & He')].
      * destruct (p e) eqn:He; [|by apply elem_of_nil in Hn].
        apply list_elem_of_singleton in Hn as ->. exists 0, e. split; [lia|done].
      * exists (S k), e'. split; [lia|done].
    + intros (k & e' & -> & Hk & He'). destruct k as [|k]; simpl in Hk.
      * left. injection Hk as ->. rewrite He'. apply list_elem_of_singleton. lia.
      * right. exists k, e'. split; [lia|done].
Qed.

Lemma querySelectorAll_spec (p : Element → bool) (d : list Element) (n : node) :
  n ∈ querySelectorAll p d ↔ ∃ e, d !! n = Some e ∧ p e = true.
Proof.
  unfold querySelectorAll. rewrite matching_from_spec. split.
  - intros (k & e & -> & ? & ?). eauto.
  - intros (e & ? & ?). exists n, e. done.
Qed.

Lemma querySelector_Some (p : Element → bool) (d : list Element) (n : node) :
  querySelector p d = Some n → ∃ e, d !! n = Some e ∧ p e = true.
Proof.
  unfold querySelector. intros Hh. apply querySelectorAll_spec.
  destruct (querySelectorAll p d); simplify_eq/=. apply list_elem_of_here.
Qed.

Lemma getElementById_Some (i : string) (d : list Element) (n : node) :
  getElementById i d = Some n →
  i ≠ "" ∧ ∃ e, d !! n = Some e ∧ attributes e !! "id" = Some i.
Proof.
  unfold getElementById. destruct (bool_decide_reflect (i = "")) as [|Hi]; [done|].
  intros (e & He & Hid)%querySelector_Some. split; [done|]. exists e. split; [done|].
  by apply bool_decide_eq_true in Hid.
Qed.

Lemma has_class_alter (f : list string → list string) (n n' : node) (c : string) (d : list Element) :
  has_class (alter (with_classList f) n d) n' c =
  match d !! n' with
  | Some e => token_contains c (if bool_decide (n' = n) then f (classList e) else classList e)
  | None => false
  end.
Proof.
  unfold has_class. destruct (bool_decide_reflect (n' = n)) as [->|Hne].
  - rewrite list_lookup_alter_eq. by destruct (d !! n).
  - by rewrite list_lookup_alter_ne by congruence.
Qed.

(** Toggling a class flips one membership and no other. *)
Lemma has_class_toggle (n n' : node) (c c' : string) (d : list Element) :
  has_class (alter (with_classList (token_toggle c)) n d) n' c' =
  xorb (has_class d n' c') (bool_decide (n' = n) && bool_decide (c' = c) && bool_decide (n < length d)).
Proof.
  rewrite has_class_alter. unfold has_class.
  destruct (d !! n') as [e|] eqn:He.
  - destruct (bool_decide_reflect (n' = n)) as [->|_]; simpl.
    + rewrite token_contains_toggle. apply lookup_lt_Some in He.
      by rewrite (bool_decide_eq_true_2 (n < length d)), andb_true_r by done.
    + by rewrite xorb_false_r.
  - destruct (bool_decide_reflect (n' = n)) as [->|_]; simpl; [|done].
    apply lookup_ge_None in He. rewrite (bool_decide_eq_false_2 (n < length d)) by lia.
    by rewrite andb_false_r.
Qed.

Ltac munfold :=
  unfold exec, outcome, mbind, M_bind, mret, M_ret, get, modify, deref,
         classList_add, classList_remove, classList_toggle, classList_contains,
         style_set, setAttribute, textContent_set, checked_set,
         localStorage_setItem, localStorage_getItem, write_el in *.

(** ** mobileMenu: the click on the menu button *)

Section MobileMenu.
Variable env : Env.

Lemma document_body_toggle (c : string) (n : node) (d : list Element) :
  document_body (alter (with_classList (token_toggle c)) n d) = document_body d.
Proof. apply querySelector_alter. done. Qed.

Lemma mobileMenu_toggle_has_class (w : World) (n : node) (c : string) :
  has_class (dom (exec (mobileMenu_toggle env) w)) n c
  = xorb (has_class (dom w) n c) (menu_flips env (dom w) n c).
Proof.
  unfold mobileMenu_toggle, menu_flips. munfold. destruct w as [d ? ? ? ? ? ? ? ? ? ?]. simpl.
  destruct (hamburger env) as [h|]; simpl; [|by rewrite xorb_false_r].
  destruct (navLinks env) as [l|]; simpl.
  2:{ rewrite has_class_toggle. by rewrite xorb_false_r. }
  rewrite !document_body_toggle.
  destruct (document_body d) as [b|]; simpl.
  2:{ rewrite !has_class_toggle, length_alter. by rewrite xorb_false_r, xorb_assoc. }
  rewrite !has_class_toggle, !length_alter. by rewrite !xorb_assoc.
Qed.

Lemma menu_flips_toggle (w : World) (n : node) (c : string) :
  menu_flips env (dom (exec (mobileMenu_toggle env) w)) n c = menu_flips env (dom w) n c.
Proof.
  unfold mobileMenu_toggle, menu_flips. munfold. destruct w as [d ? ? ? ? ? ? ? ? ? ?]. simpl.
  destruct (hamburger env) as [h|]; simpl; [|done].
  destruct (navLinks env) as [l|]; simpl.
  { rewrite !document_body_toggle. destruct (document_body d) as [b|] eqn:Hb; simpl.
    - by rewrite !document_body_toggle, Hb, !length_alter.
    - by rewrite !document_body_toggle, Hb, !length_alter. }
  by rewrite !length_alter.
Qed.

(** Two clicks leave every class membership of every node as it was. *)
Lemma mobileMenu_toggle_involutive (w : World) (n : node) (c : string) :
  has_class (dom (exec (mobileMenu_toggle env) (exec (mobileMenu_toggle env) w))) n c
  = has_class (dom w) n c.
Proof.
  rewrite !mobileMenu_toggle_has_class, menu_flips_toggle.
  by destruct (has_class (dom w) n c), (menu_flips env (dom w) n c).
Qed.

Lemma mobileMenu_toggle_ok (w : World) (h l b : node) :
  hamburger env = Some h → navLinks env = Some l → document_body (dom w) = Some b →
  outcome (mobileMenu_toggle env) w = Ok tt.
Proof.
  intros Hh Hl Hb. unfold mobileMenu_toggle. munfold. rewrite Hh, Hl. simpl.
  rewrite !document_body_toggle, Hb. done.
Qed.

Lemma mobileMenu_toggle_body (w : World) :
  document_body (dom (exec (mobileMenu_toggle env) w)) = document_body (dom w).
Proof.
  unfold mobileMenu_toggle. munfold.
  destruct (hamburger env) as [h|]; simpl; [|done].
  destruct (navLinks env) as [l|]; simpl; [|apply document_body_toggle].
  rewrite !document_body_toggle.
  destruct (document_body (dom w)) as [b|] eqn:Hb; simpl; by rewrite ?document_body_toggle.
Qed.

(** C7. Whatever the class lists of the hamburger icon, the nav panel and
    the body are, two successive clicks on the menu button both run to
    completion and give back each of the three memberships ('active' on
    the icon, 'active' on the panel, 'menu-open' on the body). *)
Theorem mobileMenu_two_clicks_restore (w : World) (h l b : node) :
  hamburger env = Some h → navLinks env = Some l → document_body (dom w) = Some b →
  let w1 := exec (mobileMenu_toggle env) w in
  let w2 := exec (mobileMenu_toggle env) w1 in
  outcome (mobileMenu_toggle env) w = Ok tt ∧
  outcome (mobileMenu_toggle env) w1 = Ok tt ∧
  has_class (dom w2) h "active" = has_class (dom w) h "active" ∧
  has_class (dom w2) l "active" = has_class (dom w) l "active" ∧
  has_class (dom w2) b "menu-open" = has_class (dom w) b "menu-open".
Proof.
  intros Hh Hl Hb w1 w2. split; [by eapply mobileMenu_toggle_ok|].
  split.
  { eapply mobileMenu_toggle_ok; [done..|]. subst w1. rewrite mobileMenu_toggle_body. done. }
  subst w1 w2. by rewrite !mobileMenu_toggle_involutive.
Qed.

End MobileMenu.

Lemma mobileMenu_two_clicks_restore_witness :
  let w1 := exec (mobileMenu_toggle sample_env) sample_world in
  let w2 := exec (mobileMenu_toggle sample_env) w1 in
  outcome (mobileMenu_toggle sample_env) sample_world = Ok tt ∧
  outcome (mobileMenu_toggle sample_env) w1 = Ok tt ∧
  has_class (dom w2) 6 "active" = has_class (dom sample_world) 6 "active" ∧
  has_class (dom w2) 7 "active" = has_class (dom sample_world) 7 "active" ∧
  has_class (dom w2) 1 "menu-open" = has_class (dom sample_world) 1 "menu-open".
Proof.
  apply (mobileMenu_two_clicks_restore sample_env sample_world 6 7 1); reflexivity.
Defined.

(** ** themeSwitcher: the stored preference survives a reload *)

Lemma getAttribute_alter_attributes (f : gmap string string → gmap string string)
    (n n' : node) (a : string) (d : list Element) :
  getAttribute (alter (with_attributes f) n d) n' a =
  e ← d !! n'; (if bool_decide (n' = n) then f (attributes e) else attributes e) !! a.
Proof.
  unfold getAttribute. destruct (bool_decide_reflect (n' = n)) as [->|Hne].
  - rewrite list_lookup_alter_eq. by destruct (d !! n).
  - by rewrite list_lookup_alter_ne by congruence.
Qed.

Lemma getAttribute_alter_checked (b : bool) (n n' : node) (a : string) (d : list Element) :
  getAttribute (alter (with_checked b) n d) n' a = getAttribute d n' a.
Proof.
  unfold getAttribute. destruct (decide (n' = n)) as [->|Hne].
  - rewrite list_lookup_alter_eq. by destruct (d !! n).
  - by rewrite list_lookup_alter_ne by congruence.
Qed.

Lemma is_checked_alter_checked (b : bool) (n : node) (d : list Element) :
  n < length d → is_checked (alter (with_checked b) n d) n = b.
Proof.
  intros Hn. unfold is_checked. rewrite list_lookup_alter_eq.
  destruct (lookup_lt_is_Some_2 d n Hn) as [e ->]. done.
Qed.

Lemma length_alter_attributes (f : gmap string string → gmap string string) (n : node) (d : list Element) :
  length (alter (with_attributes f) n d) = length d.
Proof. apply length_alter. Qed.

(** What [init] makes of the page and of the storage. *)
Lemma themeSwitcher_init_effect (env : Env) (w : World) (t h : node) :
  themeToggle env = Some t →
  t < length (dom w) →
  document_documentElement (dom w) = Some h →
  let w' := exec (themeSwitcher_init env) w in
  outcome (themeSwitcher_init env) w = Ok tt ∧
  getAttribute (dom w') h "data-theme" = Some (saved_or_dark (localStorage w !! "theme")) ∧
  is_checked (dom w') t = bool_decide (saved_or_dark (localStorage w !! "theme") = "dark").
Proof.
  intros Ht Hlt Hh. unfold themeSwitcher_init. munfold. simpl. rewrite Hh. simpl.
  rewrite Ht. simpl.
  destruct (querySelector_Some _ _ _ Hh) as (eh & Heh & _).
  split; [done|]. split.
  - rewrite getAttribute_alter_checked, getAttribute_alter_attributes, Heh. simpl.
    rewrite bool_decide_eq_true_2 by done. apply lookup_insert_eq.
  - apply is_checked_alter_checked. by rewrite length_alter.
Qed.

Lemma themeSwitcher_init_from_storage (d : list Element) (st : gmap string string) (v : Window)
    (t h : node) :
  getElementById "theme-toggle" d = Some t →
  document_documentElement d = Some h →
  let w := exec (themeSwitcher_init (capture d)) (load d st v) in
  outcome (themeSwitcher_init (capture d)) (load d st v) = Ok tt ∧
  getAttribute (dom w) h "data-theme" = Some (saved_or_dark (st !! "theme")) ∧
  is_checked (dom w) t = bool_decide (saved_or_dark (st !! "theme") = "dark").
Proof.
  intros Ht Hh.
  destruct (querySelector_Some _ _ _ Ht) as (et & Het & _).
  apply (themeSwitcher_init_effect (capture d) (load d st v) t h); [done| |done].
  by eapply lookup_lt_Some.
Qed.

Lemma toggleTheme_stores (env : Env) (w : World) (t h : node) :
  themeToggle env = Some t →
  document_documentElement (dom w) = Some h →
  outcome (toggleTheme env) w = Ok tt ∧
  localStorage (exec (toggleTheme env) w) !! "theme" = Some (theme_name (is_checked (dom w) t)).
Proof.
  intros Ht Hh. unfold toggleTheme. munfold. rewrite Ht. simpl. rewrite Hh. simpl.
  split; [done|]. apply lookup_insert_eq.
Qed.

(** C5. The theme survives a reload.  A change event with the control
    checked stores [dark], and initialisation of the reloaded page then sets
    the root attribute to [dark] and the control to checked; with the control
    unchecked it stores [light], and initialisation then gives [light] and
    unchecked; with no stored value, initialisation gives [dark] and
    checked. *)
Theorem theme_survives_reload (env : Env) (w : World) (t h : node)
    (d' : list Element) (v' : Window) (t' h' : node) (st : gmap string string) :
  themeToggle env = Some t →
  document_documentElement (dom w) = Some h →
  getElementById "theme-toggle" d' = Some t' →
  document_documentElement d' = Some h' →
  st !! "theme" = None →
  let isDarkMode := is_checked (dom w) t in
  let w1 := exec (toggleTheme env) w in
  let w2 := exec (themeSwitcher_init (capture d')) (load d' (localStorage w1) v') in
  let w3 := exec (themeSwitcher_init (capture d')) (load d' st v') in
  (localStorage w1 !! "theme" = Some (if isDarkMode then "dark" else "light") ∧
   getAttribute (dom w2) h' "data-theme" = Some (if isDarkMode then "dark" else "light") ∧
   is_checked (dom w2) t' = isDarkMode) ∧
  (getAttribute (dom w3) h' "data-theme" = Some "dark" ∧ is_checked (dom w3) t' = true).
Proof.
  intros Ht Hh Ht' Hh' Hst isDarkMode w1 w2 w3.
  destruct (toggleTheme_stores env w t h Ht Hh) as [_ Hsto].
  destruct (themeSwitcher_init_from_storage d' (localStorage w1) v' t' h' Ht' Hh') as (_ & Ha & Hc).
  destruct (themeSwitcher_init_from_storage d' st v' t' h' Ht' Hh') as (_ & Ha3 & Hc3).
  fold w1 in Hsto. fold w2 in Ha, Hc. fold w3 in Ha3, Hc3. fold isDarkMode in Hsto.
  rewrite Hsto in Ha, Hc. rewrite Hst in Ha3, Hc3.
  split; [|done]. split; [done|]. rewrite Ha, Hc. by destruct isDarkMode.
Qed.

Lemma theme_survives_reload_witness :
  let w := exec (themeSwitcher_init sample_env) sample_world in
  let isDarkMode := is_checked (dom w) 10 in
  let w1 := exec (toggleTheme sample_env) w in
  let w2 := exec (themeSwitcher_init (capture sample_page)) (load sample_page (localStorage w1) sample_window) in
  let w3 := exec (themeSwitcher_init (capture sample_page)) (load sample_page ∅ sample_window) in
  (localStorage w1 !! "theme" = Some (if isDarkMode then "dark" else "light") ∧
   getAttribute (dom w2) 0 "data-theme" = Some (if isDarkMode then "dark" else "light") ∧
   is_checked (dom w2) 10 = isDarkMode) ∧
  (getAttribute (dom w3) 0 "data-theme" = Some "dark" ∧ is_checked (dom w3) 10 = true).
Proof.
  apply (theme_survives_reload sample_env (exec (themeSwitcher_init sample_env) sample_world) 10 0
           sample_page sample_window 10 0 ∅); reflexivity.
Defined.

(** ** activeNavigation: which scroll offsets mark a link active *)

Lemma same_markup_refl (cs : list string) (e : Element) : same_markup cs e e.
Proof. by repeat split. Qed.

Lemma same_markup_classes (cs : list string) (f : list string → list string) (e e' : Element) :
  (∀ c l, c ∉ cs → token_contains c (f l) = token_contains c l) →
  same_markup cs e e' → same_markup cs e (with_classList f e').
Proof.
  intros Hf (? & ? & ? & ? & ? & Hc). repeat split; simpl; try done.
  intros c Hcs. rewrite Hf by done. by apply Hc.
Qed.

Lemma same_markup_add (cs : list string) (c : string) (e e' : Element) :
  c ∈ cs → same_markup cs e e' → same_markup cs e (with_classList (token_add c) e').
Proof.
  intros Hc. apply same_markup_classes. intros c' l Hc'. rewrite token_contains_add.
  rewrite (bool_decide_eq_false_2 (c' = c)) by (intros ->; done). apply orb_false_r.
Qed.

Lemma same_markup_remove (cs : list string) (c : string) (e e' : Element) :
  c ∈ cs → same_markup cs e e' → same_markup cs e (with_classList (token_remove c) e').
Proof.
  intros Hc. apply same_markup_classes. intros c' l Hc'. rewrite token_contains_remove.
  rewrite (bool_decide_eq_false_2 (c' = c)) by (intros ->; done). apply andb_true_r.
Qed.

Lemma matching_from_Forall2 (p : Element → bool) (d d' : list Element) (i : node) :
  Forall2 (λ e e', p e' = p e) d d' → matching_from p i d' = matching_from p i d.
Proof.
  intros H. revert i. induction H as [|e e' d d' He _ IH]; intros i; simpl; [done|].
  by rewrite He, IH.
Qed.

Lemma querySelector_Forall2 (p : Element → bool) (d d' : list Element) :
  Forall2 (λ e e', p e' = p e) d d' → querySelector p d' = querySelector p d.
Proof. intros H. unfold querySelector, querySelectorAll. by rewrite (matching_from_Forall2 p d d'). Qed.

Section SameMarkup.
Variable cs : list string.
Variables d d' : list Element.
Hypothesis Hdd : Forall2 (same_markup cs) d d'.

Lemma same_markup_lookup (n : node) (e' : Element) :
  d' !! n = Some e' → ∃ e, d !! n = Some e ∧ same_markup cs e e'.
Proof using Hdd. intros H. by eapply Forall2_lookup_r. Qed.

Lemma same_markup_field {A} (f : Element → A) (a : A) (n : node) :
  (∀ e e', same_markup cs e e' → f e' = f e) →
  match d' !! n with Some e => f e | None => a end
  = match d !! n with Some e => f e | None => a end.
Proof using Hdd.
  intros Hf. apply Forall2_lookup with (i := n) in Hdd.
  destruct Hdd as [e e' He|]; [|done]. by apply Hf.
Qed.

Lemma same_markup_offsetTop (n : node) : offsetTop_of d' n = offsetTop_of d n.
Proof using Hdd. apply same_markup_field. by intros e e' (? & ? & ? & ? & ? & ?). Qed.

Lemma same_markup_offsetHeight (n : node) : offsetHeight_of d' n = offsetHeight_of d n.
Proof using Hdd. apply same_markup_field. by intros e e' (? & ? & ? & ? & ? & ?). Qed.

Lemma same_markup_complete (n : node) : is_complete d' n = is_complete d n.
Proof using Hdd. apply same_markup_field. by intros e e' (? & ? & ? & ? & ? & ?). Qed.

Lemma same_markup_getAttribute (n : node) (a : string) : getAttribute d' n a = getAttribute d n a.
Proof using Hdd.
  unfold getAttribute. apply Forall2_lookup with (i := n) in Hdd.
  destruct Hdd as [e e' (? & Ha & ?)|]; simpl; [|done]. by rewrite Ha.
Qed.

Lemma same_markup_has_class (n : node) (c : string) :
  c ∉ cs → has_class d' n c = has_class d n c.
Proof using Hdd.
  intros Hc. unfold has_class. apply same_markup_field.
  intros e e' (? & ? & ? & ? & ? & Hcl). by apply Hcl.
Qed.

Lemma same_markup_length : length d' = length d.
Proof using Hdd. symmetry. by eapply Forall2_length. Qed.

Lemma same_markup_querySelector (p : Element → bool) :
  (∀ e e', same_markup cs e e' → p e' = p e) →
  querySelector p d' = querySelector p d.
Proof using Hdd.
  intros Hp. apply querySelector_Forall2. eapply Forall2_impl; [exact Hdd|]. apply Hp.
Qed.

Lemma same_markup_querySelectorAll (p : Element → bool) :
  (∀ e e', same_markup cs e e' → p e' = p e) →
  querySelectorAll p d' = querySelectorAll p d.
Proof using Hdd.
  intros Hp. apply matching_from_Forall2. eapply Forall2_impl; [exact Hdd|]. apply Hp.
Qed.

Lemma same_markup_sel_tag (t : string) (e e' : Element) :
  same_markup cs e e' → sel_tag t e' = sel_tag t e.
Proof. intros (Hn & _). unfold sel_tag. by rewrite Hn. Qed.

Lemma same_markup_sel_id (i : string) (e e' : Element) :
  same_markup cs e e' → sel_id i e' = sel_id i e.
Proof. intros (_ & Ha & _). unfold sel_id. by rewrite Ha. Qed.

Lemma same_markup_sel_class (c : string) (e e' : Element) :
  c ∉ cs → same_markup cs e e' → sel_class c e' = sel_class c e.
Proof. intros Hc (? & ? & ? & ? & ? & Hcl). by apply Hcl. Qed.

Lemma same_markup_sel_nav_link_href (i : string) (e e' : Element) :
  "nav-link" ∉ cs → same_markup cs e e' → sel_nav_link_href i e' = sel_nav_link_href i e.
Proof.
  intros Hc He. unfold sel_nav_link_href. rewrite (same_markup_sel_class _ e e') by done.
  destruct He as (_ & -> & _). done.
Qed.

Lemma same_markup_document_body : document_body d' = document_body d.
Proof using Hdd. apply same_markup_querySelector, same_markup_sel_tag. Qed.

Lemma same_markup_getElementById (i : string) : getElementById i d' = getElementById i d.
Proof using Hdd.
  unfold getElementById. destruct (bool_decide (i = "")); [done|].
  apply same_markup_querySelector, same_markup_sel_id.
Qed.
End SameMarkup.

Lemma highlightNavLink_unfold (cssQuery : string → list Element → option (option node))
    (env : Env) :
  highlightNavLink cssQuery env
  = (y ← get (λ w, scrollY (window w)); forEach (sections env) (nav_step cssQuery y)).
Proof. reflexivity. Qed.

Lemma nav_step_effect (cssQuery : string → list Element → option (option node))
    (d0 : list Element) (y : Z) (section : node) (w : World) :
  Forall2 (same_markup ["active"]) d0 (dom w) →
  css_plain (section_id d0 section) = true →
  let w' := exec (nav_step cssQuery y section) w in
  outcome (nav_step cssQuery y section) w = Ok tt ∧
  Forall2 (same_markup ["active"]) d0 (dom w') ∧
  ∀ link, has_class (dom w') link "active" =
          if decide (nav_link_of d0 section = Some link) then section_test d0 y section
          else has_class (dom w) link "active".
Proof.
  intros Hd Hplain. unfold nav_step, querySelector_nav_link. munfold. simpl.
  rewrite (same_markup_offsetTop _ _ _ Hd), (same_markup_offsetHeight _ _ _ Hd),
    (same_markup_getAttribute _ _ _ Hd).
  fold (section_id d0 section). rewrite Hplain.
  rewrite (same_markup_querySelector _ _ _ Hd)
    by (intros e e'; apply same_markup_sel_nav_link_href; by intros ?%list_elem_of_singleton).
  fold (section_id d0 section) (nav_link_of d0 section) (section_top d0 section).
  fold (section_test d0 y section).
  destruct (nav_link_of d0 section) as [l|] eqn:Hl.
  2:{ destruct (section_test d0 y section); simpl; (split; [done|]; split; [done|]);
      by intros link. }
  assert (is_Some (dom w !! l)) as [el Hel].
  { apply lookup_lt_is_Some. rewrite (same_markup_length _ _ _ Hd).
    apply querySelector_Some in Hl as (e & He & _). by eapply lookup_lt_Some. }
  destruct (section_test d0 y section); simpl.
  - split; [done|]. split.
    { apply Forall2_alter_r; [done|]. intros. apply same_markup_add; [set_solver|done]. }
    intros link. rewrite has_class_alter. destruct (decide (Some l = Some link)) as [[= ->]|Hne].
    + rewrite Hel, bool_decide_eq_true_2 by done. rewrite token_contains_add.
      rewrite (bool_decide_eq_true_2 ("active" = "active")) by done. apply orb_true_r.
    + rewrite bool_decide_eq_false_2 by congruence. done.
  - split; [done|]. split.
    { apply Forall2_alter_r; [done|]. intros. apply same_markup_remove; [set_solver|done]. }
    intros link. rewrite has_class_alter. destruct (decide (Some l = Some link)) as [[= ->]|Hne].
    + rewrite Hel, bool_decide_eq_true_2 by done. rewrite token_contains_remove.
      rewrite (bool_decide_eq_true_2 ("active" = "active")) by done. apply andb_false_r.
    + rewrite bool_decide_eq_false_2 by congruence. done.
Qed.

Lemma nav_forEach_effect (cssQuery : string → list Element → option (option node))
    (d0 : list Element) (y : Z) (link : node) (L : list node) (w : World) :
  Forall2 (same_markup ["active"]) d0 (dom w) →
  (∀ s, s ∈ L → css_plain (section_id d0 s) = true) →
  let w' := exec (forEach L (nav_step cssQuery y)) w in
  outcome (forEach L (nav_step cssQuery y)) w = Ok tt ∧
  has_class (dom w') link "active" =
    match nav_last d0 link L with
    | Some s => section_test d0 y s
    | None => has_class (dom w) link "active"
    end.
Proof.
  revert w. induction L as [|s L IH]; intros w Hd Hplain; simpl; [done|].
  destruct (nav_step_effect cssQuery d0 y s w Hd (Hplain s (list_elem_of_here _ _)))
    as (Hok & Hd1 & Hcl).
  unfold exec, outcome in *. unfold mbind, M_bind.
  destruct (nav_step cssQuery y s w) as [r w1]. simpl in *. subst r.
  destruct (IH w1 Hd1) as (Hok' & Hcl');
    [intros s' Hs'; by apply Hplain, list_elem_of_further|]. split; [done|].
  rewrite Hcl'. destruct (nav_last d0 link L); [done|]. rewrite Hcl.
  by destruct (decide (nav_link_of d0 s = Some link)).
Qed.

Lemma nav_last_Some (d : list Element) (link : node) (L : list node) (s : node) :
  nav_last d link L = Some s → s ∈ L ∧ nav_link_of d s = Some link.
Proof.
  induction L as [|s' L IH]; simpl; [done|].
  destruct (nav_last d link L) as [s''|].
  - intros [= ->]. destruct IH as [? ?]; [done|]. split; [by apply list_elem_of_further|done].
  - destruct (decide (nav_link_of d s' = Some link)); [|done].
    intros [= ->]. split; [apply list_elem_of_here|done].
Qed.

Lemma nav_last_None (d : list Element) (link : node) (L : list node) (s : node) :
  nav_last d link L = None → s ∈ L → nav_link_of d s ≠ Some link.
Proof.
  induction L as [|s' L IH]; simpl; [by intros _ ?%elem_of_nil|].
  destruct (nav_last d link L) as [s''|]; [done|].
  destruct (decide (nav_link_of d s' = Some link)); [done|].
  intros _ [->|?]%elem_of_cons; [done|by apply IH].
Qed.

Lemma nav_link_of_section_id (d : list Element) (s s' link : node) :
  nav_link_of d s = Some link → nav_link_of d s' = Some link → section_id d s = section_id d s'.
Proof.
  unfold nav_link_of. intros (e & He & Hp)%querySelector_Some (e' & He' & Hp')%querySelector_Some.
  simplify_eq. unfold sel_nav_link_href in *.
  apply andb_true_iff in Hp as [_ Hp%bool_decide_eq_true].
  apply andb_true_iff in Hp' as [_ Hp'%bool_decide_eq_true].
  rewrite Hp in Hp'. by injection Hp'.
Qed.

(** C3, as the code has it.  On a page whose section identifiers are plain
    (no quote, backslash, line break or NUL, so that the selector the code
    builds is the one it means), for a section whose identifier no other
    section carries, and whose navigation link exists, the handler returns
    and the link carries 'active' afterwards exactly when the scroll offset
    lies in (sectionTop - 100, sectionTop - 100 + sectionHeight]: above the
    lower bound, up to and including the upper bound. *)
Theorem highlightNavLink_active_iff (cssQuery : string → list Element → option (option node))
    (env : Env) (w : World) (section link : node) :
  (∀ s, s ∈ sections env → css_plain (section_id (dom w) s) = true) →
  section ∈ sections env →
  (∀ s, s ∈ sections env → section_id (dom w) s = section_id (dom w) section → s = section) →
  querySelector (sel_nav_link_href (section_id (dom w) section)) (dom w) = Some link →
  let w' := exec (highlightNavLink cssQuery env) w in
  let sectionTop := (offsetTop_of (dom w) section - 100)%Z in
  let sectionHeight := offsetHeight_of (dom w) section in
  outcome (highlightNavLink cssQuery env) w = Ok tt ∧
  (has_class (dom w') link "active" = true ↔
   (sectionTop < scrollY (window w) ≤ sectionTop + sectionHeight)%Z).
Proof.
  intros Hplain Hin Huniq Hlink. rewrite highlightNavLink_unfold. simpl.
  assert (Forall2 (same_markup ["active"]) (dom w) (dom w)) as Hd.
  { apply Forall2_same_length_lookup. split; [done|]. intros i x y' ? ?. simplify_eq.
    apply same_markup_refl. }
  destruct (nav_forEach_effect cssQuery (dom w) (scrollY (window w)) link (sections env) w Hd Hplain)
    as [Hok Hcl].
  unfold exec, outcome, mbind, M_bind, get in *. simpl. split; [done|].
  rewrite Hcl. destruct (nav_last (dom w) link (sections env)) as [s|] eqn:Hlast.
  - apply nav_last_Some in Hlast as [Hs Hsl].
    assert (s = section) as ->.
    { apply Huniq; [done|]. by eapply nav_link_of_section_id. }
    unfold section_test, section_top. rewrite andb_true_iff, !bool_decide_eq_true. done.
  - exfalso. by eapply nav_last_None.
Qed.

Lemma highlightNavLink_active_iff_witness :
  let w := load sample_page ∅ (mkWindow 400 800 (λ _, 1000%Z)) in
  let w' := exec (highlightNavLink (λ _ _, None) sample_env) w in
  outcome (highlightNavLink (λ _ _, None) sample_env) w = Ok tt ∧
  (has_class (dom w') 8 "active" = true ↔ (200 - 100 < 400 ≤ 200 - 100 + 300)%Z).
Proof.
  apply (highlightNavLink_active_iff (λ _ _, None) sample_env
           (load sample_page ∅ (mkWindow 400 800 (λ _, 1000%Z))) 17 8).
  - intros s Hs. vm_compute in Hs.
    apply elem_of_cons in Hs as [->|Hs]; [reflexivity|].
    apply list_elem_of_singleton in Hs as ->. reflexivity.
  - vm_compute. apply list_elem_of_here.
  - intros s Hs. vm_compute in Hs.
    apply elem_of_cons in Hs as [->|Hs]; [done|].
    apply list_elem_of_singleton in Hs as ->. vm_compute. discriminate.
  - reflexivity.
Defined.

(** The claim's interval [sectionTop - 100, sectionTop - 100 + sectionHeight)
    fails at its lower end: the section "about" of the sample page starts at
    offset 200, and at scroll offset 100 its link is not active. *)
Lemma highlightNavLink_lower_bound_excluded :
  let v := mkWindow 100 800 (λ _, 1000%Z) in
  let w' := exec (highlightNavLink (λ _ _, None) sample_env) (load sample_page ∅ v) in
  let sectionTop := (offsetTop_of sample_page 17 - 100)%Z in
  let sectionHeight := offsetHeight_of sample_page 17 in
  17 ∈ sections sample_env ∧
  getAttribute sample_page 17 "id" = Some "about" ∧
  css_plain "about" = true ∧
  querySelector (sel_nav_link_href "about") (dom w') = Some 8 ∧
  ¬ (has_class (dom w') 8 "active" = true ↔
     (sectionTop ≤ scrollY v < sectionTop + sectionHeight)%Z).
Proof.
  split; [vm_compute; apply list_elem_of_here|].
  split; [reflexivity|]. split; [reflexivity|]. split; [reflexivity|].
  intros [_ H]. vm_compute in H. discriminate H. split; [by intros ?|done].
Qed.

(** ** featureTabs: the click on a tab button *)

Lemma has_class_remove (b n : node) (c c' : string) (d : list Element) :
  has_class (alter (with_classList (token_remove c)) b d) n c'
  = has_class d n c' && negb (bool_decide (n = b) && bool_decide (c' = c)).
Proof.
  rewrite has_class_alter. unfold has_class. destruct (d !! n) as [e|]; [|done].
  destruct (bool_decide (n = b)); simpl; [|by rewrite andb_true_r].
  apply token_contains_remove.
Qed.

Lemma has_class_add (b n : node) (c c' : string) (d : list Element) :
  has_class (alter (with_classList (token_add c)) b d) n c'
  = has_class d n c' || (bool_decide (n = b) && bool_decide (c' = c) && bool_decide (b < length d)).
Proof.
  rewrite has_class_alter. unfold has_class. destruct (d !! n) as [e|] eqn:He.
  - destruct (bool_decide_reflect (n = b)) as [->|_]; simpl; [|by rewrite orb_false_r].
    apply lookup_lt_Some in He. rewrite (bool_decide_eq_true_2 (b < length d)) by done.
    rewrite andb_true_r. apply token_contains_add.
  - destruct (bool_decide_reflect (n = b)) as [->|_]; simpl; [|done].
    apply lookup_ge_None in He. rewrite (bool_decide_eq_false_2 (b < length d)) by lia.
    by rewrite andb_false_r.
Qed.

Lemma bind_Ok {A B} (m : M A) (f : A → M B) (w w1 : World) (a : A) :
  m w = (Ok a, w1) → (m ≫= f) w = f a w1.
Proof. intros H. unfold mbind, M_bind. by rewrite H. Qed.

Lemma bind_Thrown {A B} (m : M A) (f : A → M B) (w w1 : World) :
  m w = (Thrown, w1) → (m ≫= f) w = (Thrown, w1).
Proof. intros H. unfold mbind, M_bind. by rewrite H. Qed.

Lemma forEach_remove_effect (d0 : list Element) (c : string) (L : list node) (w : World) :
  Forall2 (same_markup [c]) d0 (dom w) →
  ∃ w', forEach L (λ b, classList_remove b c) w = (Ok tt, w') ∧
        Forall2 (same_markup [c]) d0 (dom w') ∧
        ∀ n, has_class (dom w') n c = has_class (dom w) n c && negb (bool_decide (n ∈ L)).
Proof.
  revert w. induction L as [|b L IH]; intros w Hd; simpl.
  { exists w. split; [done|]. split; [done|]. intros n. by rewrite andb_true_r. }
  set (w1 := log_write (LNode b FClass) (set_dom (alter (with_classList (token_remove c)) b) w)).
  assert (Forall2 (same_markup [c]) d0 (dom w1)) as Hd1.
  { apply Forall2_alter_r; [done|]. intros. apply same_markup_remove; [apply list_elem_of_here|done]. }
  destruct (IH w1 Hd1) as (w' & Hrun & Hd' & Hcl). exists w'.
  split; [by rewrite (bind_Ok _ _ w w1 tt)|]. split; [done|]. intros n. rewrite Hcl. subst w1. simpl.
  rewrite has_class_remove, (bool_decide_eq_true_2 (c = c)) by done. rewrite andb_true_r.
  rewrite <- andb_assoc. f_equal. rewrite <- negb_orb. f_equal.
  apply eq_true_iff_eq. rewrite orb_true_iff, !bool_decide_eq_true, elem_of_cons. done.
Qed.

(** What one click on [btn] does: the outcome, and the 'active' membership
    of every node. *)
Lemma tab_click_effect (env : Env) (d0 : list Element) (btn : node) (w : World) :
  Forall2 (same_markup ["active"]) d0 (dom w) →
  btn < length d0 →
  let tabId := default "null" (getAttribute d0 btn "data-tab") in
  ∃ w', tab_click env btn w
          = (match getElementById tabId d0 with Some _ => Ok tt | None => Thrown end, w') ∧
        Forall2 (same_markup ["active"]) d0 (dom w') ∧
        ∀ n, has_class (dom w') n "active" =
             has_class (dom w) n "active"
               && negb (bool_decide (n ∈ tabBtns env)) && negb (bool_decide (n ∈ tabPanes env))
             || bool_decide (n = btn) || bool_decide (getElementById tabId d0 = Some n).
Proof.
  intros Hd Hbtn tabId. unfold tab_click.
  rewrite (bind_Ok _ _ w w (dom w)) by done.
  rewrite (same_markup_getAttribute _ _ _ Hd). fold tabId.
  destruct (forEach_remove_effect d0 "active" (tabBtns env) w Hd) as (w1 & Hrun1 & Hd1 & Hcl1).
  rewrite (bind_Ok _ _ w w1 tt) by done.
  destruct (forEach_remove_effect d0 "active" (tabPanes env) w1 Hd1) as (w2 & Hrun2 & Hd2 & Hcl2).
  rewrite (bind_Ok _ _ w1 w2 tt) by done.
  set (w3 := log_write (LNode btn FClass)
               (set_dom (alter (with_classList (token_add "active")) btn) w2)).
  rewrite (bind_Ok _ _ w2 w3 tt) by done.
  rewrite (bind_Ok _ _ w3 w3 (dom w3)) by done.
  assert (Forall2 (same_markup ["active"]) d0 (dom w3)) as Hd3.
  { apply Forall2_alter_r; [done|]. intros. apply same_markup_add; [apply list_elem_of_here|done]. }
  rewrite (same_markup_getElementById _ _ _ Hd3).
  assert (∀ n, has_class (dom w3) n "active" =
               has_class (dom w) n "active"
                 && negb (bool_decide (n ∈ tabBtns env)) && negb (bool_decide (n ∈ tabPanes env))
               || bool_decide (n = btn)) as Hcl3.
  { intros n. subst w3. simpl. rewrite has_class_add, Hcl2, Hcl1.
    rewrite (bool_decide_eq_true_2 ("active" = "active")) by done.
    rewrite (bool_decide_eq_true_2 (btn < length (dom w2)))
      by (by rewrite (same_markup_length _ _ _ Hd2)).
    by rewrite !andb_true_r. }
  destruct (getElementById tabId d0) as [pane|] eqn:Hpane.
  - rewrite (bind_Ok _ _ w3 w3 pane) by done.
    eexists. split; [reflexivity|]. simpl. split.
    { apply Forall2_alter_r; [done|]. intros. apply same_markup_add; [apply list_elem_of_here|done]. }
    intros n. rewrite has_class_add, Hcl3.
    rewrite (bool_decide_eq_true_2 ("active" = "active")) by done.
    assert (pane < length (dom w3)) as Hlt.
    { rewrite (same_markup_length _ _ _ Hd3).
      apply getElementById_Some in Hpane as (_ & e & He & _). by eapply lookup_lt_Some. }
    rewrite (bool_decide_eq_true_2 (pane < length _)) by done. rewrite !andb_true_r.
    f_equal. apply eq_true_iff_eq. rewrite !bool_decide_eq_true. split; congruence.
  - rewrite (bind_Thrown _ _ w3 w3) by done.
    exists w3. split; [done|]. split; [done|]. intros n. rewrite Hcl3.
    rewrite (bool_decide_eq_false_2 (None = Some n)) by done. by rewrite orb_false_r.
Qed.

Lemma same_markup_dom_refl (cs : list string) (d : list Element) : Forall2 (same_markup cs) d d.
Proof.
  apply Forall2_same_length_lookup. split; [done|]. intros i x y ? ?. simplify_eq.
  apply same_markup_refl.
Qed.

Lemma getAttribute_Some_lt (d : list Element) (n : node) (a v : string) :
  getAttribute d n a = Some v → n < length d.
Proof.
  unfold getAttribute. destruct (d !! n) as [e|] eqn:He; [|done]. intros _. by eapply lookup_lt_Some.
Qed.

(** C10, as the code has it.  A click on a tab button whose data-tab names no
    element of the document removes 'active' from every tab button and every
    pane, adds it back to the clicked button, and only then faults on the
    null pane: afterwards the clicked button is the one active button and no
    pane is active. *)
Theorem tab_click_missing_pane (env : Env) (w : World) (btn : node) (tabId : string) :
  btn ∈ tabBtns env →
  btn ∉ tabPanes env →
  getAttribute (dom w) btn "data-tab" = Some tabId →
  getElementById tabId (dom w) = None →
  let w' := exec (tab_click env btn) w in
  outcome (tab_click env btn) w = Thrown ∧
  (∀ b, b ∈ tabBtns env → (has_class (dom w') b "active" = true ↔ b = btn)) ∧
  (∀ p, p ∈ tabPanes env → has_class (dom w') p "active" = false).
Proof.
  intros Hbtn Hnp Hattr Hnone.
  destruct (tab_click_effect env (dom w) btn w (same_markup_dom_refl _ _)
              (getAttribute_Some_lt _ _ _ _ Hattr)) as (w' & Hrun & _ & Hcl).
  rewrite Hattr in Hrun, Hcl. simpl in Hrun, Hcl. rewrite Hnone in Hrun, Hcl.
  unfold exec, outcome. rewrite Hrun. simpl. split; [done|]. split.
  - intros b Hb. rewrite Hcl, (bool_decide_eq_true_2 (b ∈ tabBtns env)) by done.
    rewrite andb_false_r, (bool_decide_eq_false_2 (None = Some b)) by done.
    rewrite orb_false_r. simpl. apply bool_decide_eq_true.
  - intros p Hp. rewrite Hcl, (bool_decide_eq_true_2 (p ∈ tabPanes env)) by done.
    rewrite andb_false_r, (bool_decide_eq_false_2 (None = Some p)) by done.
    rewrite (bool_decide_eq_false_2 (p = btn)) by (intros ->; done). done.
Qed.

Lemma tab_click_missing_pane_witness :
  let env := capture orphan_tab_page in
  let w := load orphan_tab_page ∅ sample_window in
  let w' := exec (tab_click env 2) w in
  outcome (tab_click env 2) w = Thrown ∧
  (∀ b, b ∈ tabBtns env → (has_class (dom w') b "active" = true ↔ b = 2)) ∧
  (∀ p, p ∈ tabPanes env → has_class (dom w') p "active" = false).
Proof.
  apply (tab_click_missing_pane (capture orphan_tab_page) (load orphan_tab_page ∅ sample_window)
           2 "missing").
  - vm_compute. apply list_elem_of_here.
  - vm_compute. intros [=]%list_elem_of_singleton.
  - reflexivity.
  - reflexivity.
Defined.

(** The claim's "zero active buttons" fails on the page whose tab button
    names a missing pane: the click faults, and the clicked button is active
    afterwards. *)
Lemma tab_click_missing_pane_button_active :
  let env := capture orphan_tab_page in
  let w := load orphan_tab_page ∅ sample_window in
  let w' := exec (tab_click env 2) w in
  2 ∈ tabBtns env ∧
  getAttribute (dom w) 2 "data-tab" = Some "missing" ∧
  getElementById "missing" (dom w) = None ∧
  outcome (tab_click env 2) w = Thrown ∧
  ¬ (∀ b, b ∈ tabBtns env → has_class (dom w') b "active" = false).
Proof.
  split; [vm_compute; apply list_elem_of_here|].
  do 3 (split; [reflexivity|]).
  intros H. specialize (H 2). vm_compute in H. discriminate H. apply list_elem_of_here.
Qed.

Lemma tab_clicks_app (env : Env) (clicks : list node) (last : node) (w : World) :
  tab_clicks env (clicks ++ [last]) w = exec (tab_click env last) (tab_clicks env clicks w).
Proof. unfold tab_clicks. by rewrite foldl_app. Qed.

Lemma tab_clicks_markup (env : Env) (d0 : list Element) (clicks : list node) (w : World) :
  Forall2 (same_markup ["active"]) d0 (dom w) →
  Forall (λ b, b < length d0) clicks →
  Forall2 (same_markup ["active"]) d0 (dom (tab_clicks env clicks w)).
Proof.
  intros Hd Hcl. revert w Hd. induction Hcl as [|b clicks Hb _ IH]; intros w Hd; [done|].
  simpl. apply IH. destruct (tab_click_effect env d0 b w Hd Hb) as (w' & Hrun & Hd' & _).
  unfold exec. by rewrite Hrun.
Qed.

(** Runs of the click listener one after the other, the last of them on
    [last]: the selection afterwards. *)
Lemma tab_clicks_selection (env : Env) (w : World) (clicks : list node) (last pane : node)
    (tabId : string) :
  (∀ n, n ∈ tabBtns env → n ∉ tabPanes env) →
  Forall (λ b, b ∈ tabBtns env ∧
               ∃ i p, getAttribute (dom w) b "data-tab" = Some i ∧
                      getElementById i (dom w) = Some p ∧ p ∈ tabPanes env)
         (clicks ++ [last]) →
  getAttribute (dom w) last "data-tab" = Some tabId →
  getElementById tabId (dom w) = Some pane →
  let w' := tab_clicks env (clicks ++ [last]) w in
  outcome (tab_click env last) (tab_clicks env clicks w) = Ok tt ∧
  (∀ b, b ∈ tabBtns env → (has_class (dom w') b "active" = true ↔ b = last)) ∧
  (∀ p, p ∈ tabPanes env → (has_class (dom w') p "active" = true ↔ p = pane)) ∧
  getAttribute (dom w') pane "id" = Some tabId.
Proof.
  intros Hdisj Hclicks Hattr Hpane. simpl. rewrite tab_clicks_app.
  apply Forall_app in Hclicks as [Hclicks Hlast].
  apply Forall_singleton in Hlast as (Hlb & i & p & Hi & Hp & Hpp).
  rewrite Hattr in Hi. injection Hi as <-. rewrite Hpane in Hp. injection Hp as <-.
  assert (Forall2 (same_markup ["active"]) (dom w) (dom (tab_clicks env clicks w))) as Hmid.
  { apply tab_clicks_markup; [apply same_markup_dom_refl|].
    eapply Forall_impl; [exact Hclicks|]. intros b (_ & i & p & Hi & _).
    by eapply getAttribute_Some_lt. }
  destruct (tab_click_effect env (dom w) last _ Hmid (getAttribute_Some_lt _ _ _ _ Hattr))
    as (w' & Hrun & Hd' & Hcl).
  rewrite Hattr in Hrun, Hcl. simpl in Hrun, Hcl. rewrite Hpane in Hrun, Hcl.
  unfold exec, outcome. rewrite Hrun. simpl. split; [done|]. split; [|split].
  - intros b Hb. rewrite Hcl, (bool_decide_eq_true_2 (b ∈ tabBtns env)) by done.
    rewrite andb_false_r. simpl.
    rewrite (bool_decide_eq_false_2 (Some pane = Some b)).
    + rewrite orb_false_r. apply bool_decide_eq_true.
    + intros [= ->]. by apply (Hdisj b).
  - intros q Hq. rewrite Hcl, (bool_decide_eq_true_2 (q ∈ tabPanes env)) by done.
    rewrite andb_false_r. simpl.
    rewrite (bool_decide_eq_false_2 (q = last)) by (intros ->; by apply (Hdisj last)).
    simpl. rewrite bool_decide_eq_true. split; congruence.
  - rewrite (same_markup_getAttribute _ _ _ Hd').
    apply getElementById_Some in Hpane as (_ & e & He & Hid). unfold getAttribute.
    by rewrite He.
Qed.

(** ** A small program logic for the handlers *)

Lemma triple_bind {A B} (P : World → Prop) (m : M A) (f : A → M B)
    (Q : A → World → Prop) (R : B → World → Prop) (E : World → Prop) :
  triple P m Q E → (∀ a, triple (Q a) (f a) R E) → triple P (m ≫= f) R E.
Proof.
  intros Hm Hf w HP. specialize (Hm w HP). unfold mbind, M_bind.
  destruct (m w) as [[a|] w']; [|done]. by apply Hf.
Qed.

Lemma triple_conseq {A} (P P' : World → Prop) (m : M A) (Q Q' : A → World → Prop)
    (E E' : World → Prop) :
  triple P' m Q' E' → (∀ w, P w → P' w) → (∀ a w, Q' a w → Q a w) → (∀ w, E' w → E w) →
  triple P m Q E.
Proof.
  intros Hm HP HQ HE w Hw. specialize (Hm w (HP w Hw)).
  destruct (m w) as [[a|] w']; [by apply HQ|by apply HE].
Qed.

Lemma triple_ret {A} (P : World → Prop) (a : A) (E : World → Prop) :
  triple P (mret a) (λ a' w, a' = a ∧ P w) E.
Proof. by intros w HP. Qed.

Lemma triple_get {A} (P : World → Prop) (f : World → A) (E : World → Prop) :
  triple P (get f) (λ a w, a = f w ∧ P w) E.
Proof. by intros w HP. Qed.

Lemma triple_modify (P Q : World → Prop) (f : World → World) (E : World → Prop) :
  (∀ w, P w → Q (f w)) → triple P (modify f) (λ _, Q) E.
Proof. intros H w HP. by apply H. Qed.

Lemma triple_deref (P : World → Prop) (r : option node) (E : World → Prop) :
  (∀ w, P w → E w) → triple P (deref r) (λ n w, r = Some n ∧ P w) E.
Proof. intros HE w HP. unfold deref. destruct r; [done|by apply HE]. Qed.

Lemma triple_pure {A} (φ : Prop) (P : World → Prop) (m : M A) (Q : A → World → Prop)
    (E : World → Prop) :
  (φ → triple P m Q E) → triple (λ w, φ ∧ P w) m Q E.
Proof. intros H w [Hφ HP]. by apply H. Qed.

Lemma keeps_bind {A B} (I : World → Prop) (m : M A) (f : A → M B) :
  keeps I m → (∀ a, keeps I (f a)) → keeps I (m ≫= f).
Proof. intros Hm Hf. eapply triple_bind; [exact Hm|]. intros a. apply Hf. Qed.

Lemma keeps_ret {A} (I : World → Prop) (a : A) : keeps I (mret a).
Proof. by intros w HI. Qed.

Lemma keeps_get {A} (I : World → Prop) (f : World → A) : keeps I (get f).
Proof. by intros w HI. Qed.

Lemma keeps_deref (I : World → Prop) (r : option node) : keeps I (deref r).
Proof. intros w HI. unfold deref. by destruct r. Qed.

Lemma keeps_modify (I : World → Prop) (f : World → World) :
  (∀ w, I w → I (f w)) → keeps I (modify f).
Proof. intros H w HI. by apply H. Qed.

Lemma keeps_forEach {A} (I : World → Prop) (L : list A) (f : A → M unit) :
  (∀ x, x ∈ L → keeps I (f x)) → keeps I (forEach L f).
Proof.
  induction L as [|x L IH]; intros Hf; simpl; [apply keeps_ret|].
  apply keeps_bind; [apply Hf, list_elem_of_here|]. intros _. apply IH.
  intros y Hy. by apply Hf, list_elem_of_further.
Qed.

Lemma keeps_exec {A} (I : World → Prop) (m : M A) (w : World) : keeps I m → I w → I (exec m w).
Proof. intros Hm HI. specialize (Hm w HI). unfold exec. by destruct (m w) as [[a|] w']. Qed.

Lemma keeps_if {A} (I : World → Prop) (b : bool) (m1 m2 : M A) :
  keeps I m1 → keeps I m2 → keeps I (if b then m1 else m2).
Proof. by destruct b. Qed.

(** ** scrollEffects: the counter animation *)

Lemma getAttribute_alter_classList (f : list string → list string) (n n' : node) (a : string)
    (d : list Element) :
  getAttribute (alter (with_classList f) n d) n' a = getAttribute d n' a.
Proof.
  unfold getAttribute. destruct (decide (n' = n)) as [->|Hne].
  - rewrite list_lookup_alter_eq. by destruct (d !! n).
  - by rewrite list_lookup_alter_ne by congruence.
Qed.

Lemma textContent_of_alter (t : string) (n : node) (d : list Element) :
  n < length d → textContent_of (alter (with_textContent t) n d) n = t.
Proof.
  intros Hn. unfold textContent_of. rewrite list_lookup_alter_eq.
  destruct (lookup_lt_is_Some_2 d n Hn) as [e ->]. done.
Qed.

(** The state in which [counter_step] leaves a counter that is in the
    viewport and not yet animated. *)
Lemma counter_step_starts (parseInt : option string → jsnum) (counter : node) (w : World) :
  (rectTop (window w) counter < innerHeight (window w))%Z →
  has_class (dom w) counter "animated" = false →
  let target := parseInt (getAttribute (dom w) counter "data-target") in
  counter_step parseInt counter w =
  (Ok tt,
   set_intervals (λ l, l ++ [mkInterval counter target 0 (tick_period 2000 target) false])
     (log_write (LNode counter FClass)
        (set_dom (alter (with_classList (token_add "animated")) counter) w))).
Proof.
  intros Hpos Han. unfold counter_step, setInterval_counter. munfold. simpl.
  rewrite Han, bool_decide_eq_true_2 by done. simpl.
  by rewrite getAttribute_alter_classList.
Qed.

Lemma counter_step_skips (parseInt : option string → jsnum) (counter : node) (w : World) :
  bool_decide (rectTop (window w) counter < innerHeight (window w))%Z
    && negb (has_class (dom w) counter "animated") = false →
  counter_step parseInt counter w = (Ok tt, w).
Proof. intros H. unfold counter_step. munfold. simpl. by rewrite H. Qed.

(** One firing of a running interval. *)
Lemma interval_tick_effect (i : nat) (w : World) (c : node) (tgt per : jsnum) (count : Z) :
  intervals w !! i = Some (mkInterval c tgt count per false) →
  let w' := exec (interval_tick i) w in
  intervals w' !! i = Some (mkInterval c tgt (count + 1) per (ge_target (count + 1) tgt)) ∧
  dom w' = alter (with_textContent (pretty (count + 1)%Z)) c (dom w).
Proof.
  intros Hiv. pose proof (lookup_lt_Some _ _ _ Hiv) as Hlt.
  unfold interval_tick. munfold. simpl. rewrite Hiv. simpl.
  destruct (ge_target (count + 1) tgt); simpl.
  - split; [|done]. apply list_lookup_insert_eq. by rewrite length_insert.
  - split; [|done]. by apply list_lookup_insert_eq.
Qed.

Lemma interval_tick_cleared (i : nat) (w : World) (iv : Interval) :
  intervals w !! i = Some iv → iv_cleared iv = true → exec (interval_tick i) w = w.
Proof. intros Hiv Hc. unfold interval_tick. munfold. simpl. by rewrite Hiv, Hc. Qed.

Lemma ticks_S (k i : nat) (w : World) : ticks (S k) i w = ticks k i (exec (interval_tick i) w).
Proof. unfold ticks. apply Nat.iter_succ_r. Qed.

Lemma interval_tick_length (i : nat) (w : World) :
  length (dom (exec (interval_tick i) w)) = length (dom w).
Proof.
  unfold interval_tick. munfold. simpl. destruct (intervals w !! i) as [iv|]; [|done].
  destruct (iv_cleared iv); [done|]. simpl.
  destruct (ge_target _ _); simpl; by rewrite length_alter.
Qed.

(** The interval fires while the test [count >= target] fails, adding one
    to the count and to the displayed text each time. *)
Lemma ticks_running (i : nat) (c : node) (tgt per : jsnum) (count0 : Z) (k : nat) (w : World) :
  intervals w !! i = Some (mkInterval c tgt count0 per false) →
  (∀ j : nat, 1 ≤ j < S k → ge_target (count0 + Z.of_nat j) tgt = false) →
  c < length (dom w) →
  let w' := ticks (S k) i w in
  intervals w' !! i
    = Some (mkInterval c tgt (count0 + Z.of_nat (S k)) per (ge_target (count0 + Z.of_nat (S k)) tgt)) ∧
  textContent_of (dom w') c = pretty (count0 + Z.of_nat (S k))%Z ∧
  length (dom w') = length (dom w).
Proof.
  revert count0 w. induction k as [|k IH]; intros count0 w Hiv Hrun Hc.
  - destruct (interval_tick_effect i w c tgt per count0 Hiv) as [Hiv' Hdom]. simpl.
    split; [done|]. rewrite Hdom. split; [by apply textContent_of_alter|apply length_alter].
  - cbv zeta. rewrite ticks_S.
    destruct (interval_tick_effect i w c tgt per count0 Hiv) as [Hiv' Hdom].
    assert (ge_target (count0 + 1) tgt = false) as Hfirst by (apply (Hrun 1); lia).
    rewrite Hfirst in Hiv'.
    destruct (IH (count0 + 1)%Z (exec (interval_tick i) w) Hiv') as (H1 & H2 & H3).
    + intros j Hj. replace (count0 + 1 + Z.of_nat j)%Z with (count0 + Z.of_nat (S j))%Z by lia.
      apply Hrun. lia.
    + by rewrite interval_tick_length.
    + replace (count0 + Z.of_nat (S (S k)))%Z with (count0 + 1 + Z.of_nat (S k))%Z by lia.
      split; [done|]. split; [done|]. by rewrite H3, interval_tick_length.
Qed.

(** An interval whose test first succeeds at the [n]-th firing clears
    itself after exactly [n] firings. *)
Lemma run_interval_stops (i : nat) (c : node) (tgt per : jsnum) (n : nat) :
  ∀ (count0 : Z) (fuel : nat) (w : World),
  intervals w !! i = Some (mkInterval c tgt count0 per false) →
  (∀ j : nat, 1 ≤ j < S n → ge_target (count0 + Z.of_nat j) tgt = false) →
  ge_target (count0 + Z.of_nat (S n)) tgt = true →
  S n ≤ fuel →
  run_interval fuel i w = (S n, ticks (S n) i w).
Proof.
  induction n as [|n IH]; intros count0 fuel w Hiv Hrun Hstop Hfuel.
  - destruct fuel as [|fuel]; [lia|]. simpl. rewrite Hiv. simpl.
    destruct (interval_tick_effect i w c tgt per count0 Hiv) as [Hiv' _].
    replace (count0 + Z.of_nat 1)%Z with (count0 + 1)%Z in Hstop by lia.
    rewrite Hstop in Hiv'. destruct fuel as [|fuel]; simpl; [done|]. by rewrite Hiv'.
  - destruct fuel as [|fuel]; [lia|]. cbn [run_interval]. rewrite Hiv. cbn [iv_cleared].
    destruct (interval_tick_effect i w c tgt per count0 Hiv) as [Hiv' _].
    assert (ge_target (count0 + 1) tgt = false) as Hfirst by (apply (Hrun 1); lia).
    rewrite Hfirst in Hiv'.
    rewrite (IH (count0 + 1)%Z fuel (exec (interval_tick i) w) Hiv').
    + by rewrite (ticks_S (S n)).
    + intros j Hj. replace (count0 + 1 + Z.of_nat j)%Z with (count0 + Z.of_nat (S j))%Z by lia.
      apply Hrun. lia.
    + by replace (count0 + 1 + Z.of_nat (S n))%Z with (count0 + Z.of_nat (S (S n)))%Z by lia.
    + lia.
Qed.

(** An interval whose test never succeeds fires as long as it is let. *)
Lemma run_interval_never (i : nat) (c : node) (tgt per : jsnum) (fuel : nat) :
  ∀ (count0 : Z) (w : World),
  intervals w !! i = Some (mkInterval c tgt count0 per false) →
  (∀ j : nat, 1 ≤ j → ge_target (count0 + Z.of_nat j) tgt = false) →
  run_interval fuel i w = (fuel, ticks fuel i w) ∧
  intervals (ticks fuel i w) !! i = Some (mkInterval c tgt (count0 + Z.of_nat fuel) per false).
Proof.
  induction fuel as [|fuel IH]; intros count0 w Hiv Hrun.
  - simpl. split; [done|]. by rewrite Z.add_0_r.
  - cbn [run_interval]. rewrite Hiv. cbn [iv_cleared].
    destruct (interval_tick_effect i w c tgt per count0 Hiv) as [Hiv' _].
    assert (ge_target (count0 + 1) tgt = false) as Hfirst by (apply (Hrun 1); lia).
    rewrite Hfirst in Hiv'.
    destruct (IH (count0 + 1)%Z (exec (interval_tick i) w) Hiv') as [H1 H2].
    + intros j Hj. replace (count0 + 1 + Z.of_nat j)%Z with (count0 + Z.of_nat (S j))%Z by lia.
      apply Hrun. lia.
    + rewrite H1, ticks_S. simpl. split; [done|]. rewrite H2. do 2 f_equal. lia.
Qed.

Lemma counter_step_starts_interval (parseInt : option string → jsnum) (counter : node) (w : World) :
  (rectTop (window w) counter < innerHeight (window w))%Z →
  has_class (dom w) counter "animated" = false →
  let target := parseInt (getAttribute (dom w) counter "data-target") in
  let w0 := exec (counter_step parseInt counter) w in
  intervals w0 !! length (intervals w)
    = Some (mkInterval counter target 0 (tick_period 2000 target) false) ∧
  length (dom w0) = length (dom w).
Proof.
  intros Hpos Han. simpl. unfold exec. rewrite counter_step_starts by done. simpl.
  split; [by apply list_lookup_middle|apply length_alter].
Qed.

(** C2, as the code has it.  A counter whose data-target parses to an integer
    T >= 1 gets an interval of period max(floor(2000/T), 10) ms; each firing
    adds exactly one to the displayed value; the interval clears itself at
    the T-th firing and not before, so it fires exactly T times, and the
    text displayed at the end is T. *)
Theorem counter_animation_counts_to_target (parseInt : option string → jsnum) (w : World)
    (counter : node) (T : Z) :
  (1 ≤ T)%Z →
  counter < length (dom w) →
  parseInt (getAttribute (dom w) counter "data-target") = Num T →
  (rectTop (window w) counter < innerHeight (window w))%Z →
  has_class (dom w) counter "animated" = false →
  let w0 := exec (counter_step parseInt counter) w in
  let i := length (intervals w) in
  let period := Num (Z.max (2000 `div` T) 10) in
  intervals w0 !! i = Some (mkInterval counter (Num T) 0 period false) ∧
  (∀ k : nat, (1 ≤ Z.of_nat k ≤ T)%Z →
     intervals (ticks k i w0) !! i
       = Some (mkInterval counter (Num T) (Z.of_nat k) period (bool_decide (Z.of_nat k = T))) ∧
     textContent_of (dom (ticks k i w0)) counter = pretty (Z.of_nat k)) ∧
  (∀ fuel : nat, Z.to_nat T ≤ fuel →
     run_interval fuel i w0 = (Z.to_nat T, ticks (Z.to_nat T) i w0)) ∧
  textContent_of (dom (ticks (Z.to_nat T) i w0)) counter = pretty T.
Proof.
  intros HT Hc Hparse Hpos Han w0 i period.
  destruct (counter_step_starts_interval parseInt counter w Hpos Han) as [Hiv Hlen].
  rewrite Hparse in Hiv. fold w0 i in Hiv, Hlen.
  assert (tick_period 2000 (Num T) = period) as Hper.
  { unfold tick_period. by rewrite bool_decide_eq_false_2 by lia. }
  rewrite Hper in Hiv.
  assert (∀ k : nat, (1 ≤ Z.of_nat k ≤ T)%Z →
     intervals (ticks k i w0) !! i
       = Some (mkInterval counter (Num T) (Z.of_nat k) period (bool_decide (Z.of_nat k = T))) ∧
     textContent_of (dom (ticks k i w0)) counter = pretty (Z.of_nat k)) as Hticks.
  { intros [|k] Hk; [lia|].
    destruct (ticks_running i counter (Num T) period 0 k w0 Hiv) as (H1 & H2 & _).
    - intros j Hj. simpl. apply bool_decide_eq_false_2. lia.
    - by rewrite Hlen.
    - rewrite Z.add_0_l in H1, H2. split; [|done]. rewrite H1. do 2 f_equal.
      simpl. apply bool_decide_ext. lia. }
  split; [done|]. split; [done|]. split.
  - intros fuel Hfuel. destruct (Z.to_nat T) as [|n] eqn:Hn; [lia|].
    apply (run_interval_stops i counter (Num T) period n 0); [done| | |done].
    + intros j Hj. simpl. apply bool_decide_eq_false_2. lia.
    + simpl. apply bool_decide_eq_true_2. lia.
  - destruct (Hticks (Z.to_nat T)) as [_ H]; [lia|]. rewrite H. f_equal. lia.
Qed.

Lemma counter_animation_counts_to_target_witness :
  let w := set_window near_window sample_world in
  let w0 := exec (counter_step sample_parseInt 16) w in
  let period := Num (Z.max (2000 `div` 3) 10) in
  intervals w0 !! 0 = Some (mkInterval 16 (Num 3) 0 period false) ∧
  (∀ k : nat, (1 ≤ Z.of_nat k ≤ 3)%Z →
     intervals (ticks k 0 w0) !! 0
       = Some (mkInterval 16 (Num 3) (Z.of_nat k) period (bool_decide (Z.of_nat k = 3%Z))) ∧
     textContent_of (dom (ticks k 0 w0)) 16 = pretty (Z.of_nat k)) ∧
  (∀ fuel : nat, Z.to_nat 3 ≤ fuel →
     run_interval fuel 0 w0 = (Z.to_nat 3, ticks (Z.to_nat 3) 0 w0)) ∧
  textContent_of (dom (ticks (Z.to_nat 3) 0 w0)) 16 = pretty 3%Z.
Proof.
  apply (counter_animation_counts_to_target sample_parseInt
           (set_window near_window sample_world) 16 3).
  - lia.
  - vm_compute. lia.
  - reflexivity.
  - reflexivity.
  - reflexivity.
Defined.

(** The claim's number of firings, ceil(T / max(floor(2000/T), 10)), is not
    what the interval does: for the counter of the sample page, T = 3, the
    period is 666 ms, the quotient is 1, and the interval fires 3 times. *)
Lemma counter_animation_firings_not_quotient :
  let w := set_window near_window sample_world in
  let w0 := exec (counter_step sample_parseInt 16) w in
  let T := 3%Z in
  let period := Z.max (2000 `div` T) 10 in
  sample_parseInt (getAttribute (dom w) 16 "data-target") = Num T ∧
  (run_interval 100 0 w0).1 = 3 ∧
  (run_interval 100 0 w0).1 ≠ Z.to_nat ((T + period - 1) `div` period).
Proof. split; [reflexivity|]. split; [reflexivity|]. vm_compute. discriminate. Qed.

(** C9. A counter whose data-target is absent or not a number gets an
    interval whose test [count >= target] never succeeds: it is never
    cleared, however often it fires.  A counter whose target is an integer
    T <= 0 gets an interval that clears itself at its first firing, with 1
    displayed. *)
Theorem counter_animation_without_positive_target (parseInt : option string → jsnum) (w : World)
    (counter : node) :
  counter < length (dom w) →
  (rectTop (window w) counter < innerHeight (window w))%Z →
  has_class (dom w) counter "animated" = false →
  let target := parseInt (getAttribute (dom w) counter "data-target") in
  let w0 := exec (counter_step parseInt counter) w in
  let i := length (intervals w) in
  (target = NaN →
   ∀ k : nat,
     run_interval k i w0 = (k, ticks k i w0) ∧
     ∃ iv, intervals (ticks k i w0) !! i = Some iv ∧ iv_cleared iv = false ∧
           ge_target (iv_count iv) (iv_target iv) = false) ∧
  (∀ T : Z, target = Num T → (T ≤ 0)%Z →
   let w1 := exec (interval_tick i) w0 in
   (∃ iv, intervals w1 !! i = Some iv ∧ iv_cleared iv = true ∧ iv_count iv = 1%Z) ∧
   textContent_of (dom w1) counter = "1" ∧
   ∀ fuel : nat, 1 ≤ fuel → run_interval fuel i w0 = (1, w1)).
Proof.
  intros Hc Hpos Han target w0 i.
  destruct (counter_step_starts_interval parseInt counter w Hpos Han) as [Hiv Hlen].
  fold target w0 i in Hiv, Hlen. split.
  - intros Htgt k. rewrite Htgt in Hiv.
    destruct (run_interval_never i counter NaN (tick_period 2000 NaN) k 0 w0 Hiv) as [H1 H2]; [done|].
    split; [done|]. eexists. split; [exact H2|]. done.
  - intros T Htgt HT w1. rewrite Htgt in Hiv.
    destruct (ticks_running i counter (Num T) (tick_period 2000 (Num T)) 0 0 w0 Hiv)
      as (H1 & H2 & _); [intros j Hj; lia|by rewrite Hlen|].
    change (ticks 1 i w0) with w1 in H1, H2. simpl in H1.
    rewrite (bool_decide_eq_true_2 (T ≤ 1)%Z) in H1 by lia.
    split; [eexists; split; [exact H1|done]|]. split; [exact H2|].
    intros fuel Hfuel.
    apply (run_interval_stops i counter (Num T) (tick_period 2000 (Num T)) 0 0); [done| | |done].
    + intros j Hj. lia.
    + simpl. apply bool_decide_eq_true_2. lia.
Qed.

Lemma counter_animation_without_positive_target_witness :
  let w := load (counter_page None) ∅ near_window in
  let target := sample_parseInt (getAttribute (dom w) 4 "data-target") in
  let w0 := exec (counter_step sample_parseInt 4) w in
  (target = NaN →
   ∀ k : nat,
     run_interval k 0 w0 = (k, ticks k 0 w0) ∧
     ∃ iv, intervals (ticks k 0 w0) !! 0 = Some iv ∧ iv_cleared iv = false ∧
           ge_target (iv_count iv) (iv_target iv) = false) ∧
  (∀ T : Z, target = Num T → (T ≤ 0)%Z →
   let w1 := exec (interval_tick 0) w0 in
   (∃ iv, intervals w1 !! 0 = Some iv ∧ iv_cleared iv = true ∧ iv_count iv = 1%Z) ∧
   textContent_of (dom w1) 4 = "1" ∧
   ∀ fuel : nat, 1 ≤ fuel → run_interval fuel 0 w0 = (1, w1)).
Proof.
  apply (counter_animation_without_positive_target sample_parseInt
           (load (counter_page None) ∅ near_window) 4).
  - vm_compute. lia.
  - reflexivity.
  - reflexivity.
Defined.

(** *** A counter is started at most once *)

Lemma started_setInterval (c : node) (iv : Interval) (w : World) :
  started c (set_intervals (λ l, l ++ [iv]) w)
  = started c w + (if decide (iv_counter iv = c) then 1 else 0).
Proof.
  unfold started. simpl. rewrite filter_app, length_app. f_equal.
  rewrite filter_cons, filter_nil. by destruct (decide (iv_counter iv = c)).
Qed.

Lemma filter_insert_length (c : node) (l : list Interval) (i : nat) (iv iv' : Interval) :
  l !! i = Some iv → iv_counter iv' = iv_counter iv →
  length (filter (λ x, iv_counter x = c) (<[i := iv']> l))
  = length (filter (λ x, iv_counter x = c) l).
Proof.
  revert i. induction l as [|x l IH]; intros [|i] Hl Hc; simpl in *; try done.
  - injection Hl as ->. rewrite !filter_cons, Hc. by destruct (decide (iv_counter iv = c)).
  - rewrite !filter_cons. destruct (decide (iv_counter x = c)); simpl; by rewrite (IH i).
Qed.

Lemma interval_tick_frame (i : nat) (w : World) (c : node) (cls : string) :
  let w' := exec (interval_tick i) w in
  started c w' = started c w ∧ has_class (dom w') c cls = has_class (dom w) c cls ∧
  length (dom w') = length (dom w).
Proof.
  unfold interval_tick. munfold. simpl. destruct (intervals w !! i) as [iv|] eqn:Hiv; [|done].
  destruct (iv_cleared iv) eqn:Hcl; [done|]. simpl.
  assert (∀ n t, has_class (alter (with_textContent t) n (dom w)) c cls = has_class (dom w) c cls)
    as Hhc.
  { intros n t. unfold has_class. destruct (decide (c = n)) as [->|Hne].
    - rewrite list_lookup_alter_eq. by destruct (dom w !! n).
    - by rewrite list_lookup_alter_ne by congruence. }
  destruct (ge_target _ _); simpl; rewrite Hhc, length_alter; (split; [|done]); unfold started; simpl.
  - rewrite list_insert_insert_eq. by apply (filter_insert_length c _ i iv).
  - by apply (filter_insert_length c _ i iv).
Qed.

Section CounterOnce.
Variable parseInt : option string → jsnum.
Variable env : Env.
Variable counter : node.

Lemma animated_with_class (n : nat) (f : list string → list string) (b : node) (w : World) :
  (∀ l, token_contains "animated" l = true → token_contains "animated" (f l) = true) →
  animated_with counter n w →
  animated_with counter n (log_write (LNode b FClass) (set_dom (alter (with_classList f) b) w)).
Proof.
  intros Hf [Han Hst]. split; [|done]. simpl. rewrite has_class_alter.
  unfold has_class in Han. destruct (dom w !! counter) as [e|]; [|done].
  destruct (bool_decide (counter = b)); [by apply Hf|done].
Qed.

Lemma animated_with_add (n : nat) (b : node) (c : string) :
  keeps (animated_with counter n) (classList_add b c).
Proof.
  apply keeps_modify. intros w. apply animated_with_class. intros l Hl.
  rewrite token_contains_add, Hl. done.
Qed.

Lemma animated_with_remove (n : nat) (b : node) (c : string) :
  c ≠ "animated" → keeps (animated_with counter n) (classList_remove b c).
Proof.
  intros Hc. apply keeps_modify. intros w. apply animated_with_class. intros l Hl.
  rewrite token_contains_remove, Hl. by rewrite bool_decide_eq_false_2 by done.
Qed.

Lemma animated_with_counter_step (n : nat) (c' : node) :
  keeps (animated_with counter n) (counter_step parseInt c').
Proof.
  intros w [Han Hst].
  destruct (bool_decide (rectTop (window w) c' < innerHeight (window w))%Z
            && negb (has_class (dom w) c' "animated")) eqn:Hstart.
  - apply andb_true_iff in Hstart as [Hpos%bool_decide_eq_true Hnot%negb_true_iff].
    rewrite counter_step_starts by done. split.
    + apply (animated_with_class n); [|done]. intros l Hl. by rewrite token_contains_add, Hl.
    + rewrite started_setInterval. simpl. rewrite decide_False; [unfold started in *; simpl; lia|].
      intros ->. congruence.
  - by rewrite counter_step_skips.
Qed.

Lemma animated_with_handleScroll (n : nat) : keeps (animated_with counter n) (handleScroll parseInt env).
Proof.
  unfold handleScroll. apply keeps_bind; [apply keeps_get|]. intros y.
  apply keeps_bind.
  { apply keeps_if; (apply keeps_bind; [apply keeps_deref|]); intros h.
    - apply animated_with_add.
    - by apply animated_with_remove. }
  intros _. apply keeps_bind.
  { apply keeps_if; (apply keeps_bind; [apply keeps_deref|]); intros h.
    - apply animated_with_add.
    - by apply animated_with_remove. }
  intros _. apply keeps_forEach. intros c' _. apply animated_with_counter_step.
Qed.

Lemma counters_inv_class (len : nat) (f : list string → list string) (b : node) (w : World) :
  (∀ l, token_contains "animated" (f l) = token_contains "animated" l) →
  counters_inv len w →
  counters_inv len (log_write (LNode b FClass) (set_dom (alter (with_classList f) b) w)).
Proof.
  intros Hf [Hlen Hinv]. split; [simpl; by rewrite length_alter|].
  intros c. destruct (Hinv c) as [H1 H2]. split; [done|]. intros Hc. apply H2.
  simpl in Hc. rewrite has_class_alter in Hc. unfold has_class.
  destruct (dom w !! c) as [e|]; [|done].
  destruct (bool_decide (c = b)); [by rewrite Hf in Hc|done].
Qed.

Lemma counters_inv_add (len : nat) (b : node) (c : string) :
  c ≠ "animated" → keeps (counters_inv len) (classList_add b c).
Proof.
  intros Hc. apply keeps_modify. intros w. apply counters_inv_class. intros l.
  rewrite token_contains_add, bool_decide_eq_false_2 by done. apply orb_false_r.
Qed.

Lemma counters_inv_remove (len : nat) (b : node) (c : string) :
  c ≠ "animated" → keeps (counters_inv len) (classList_remove b c).
Proof.
  intros Hc. apply keeps_modify. intros w. apply counters_inv_class. intros l.
  rewrite token_contains_remove, bool_decide_eq_false_2 by done. apply andb_true_r.
Qed.

Lemma counters_inv_counter_step (len : nat) (c' : node) :
  c' < len → keeps (counters_inv len) (counter_step parseInt c').
Proof.
  intros Hc' w [Hlen Hinv].
  destruct (bool_decide (rectTop (window w) c' < innerHeight (window w))%Z
            && negb (has_class (dom w) c' "animated")) eqn:Hstart.
  - apply andb_true_iff in Hstart as [Hpos%bool_decide_eq_true Hnot%negb_true_iff].
    rewrite counter_step_starts by done. split; [simpl; by rewrite length_alter|].
    intros c. rewrite started_setInterval. simpl.
    change (started c (log_write _ (set_dom _ w))) with (started c w).
    destruct (Hinv c) as [H1 H2]. destruct (decide (c' = c)) as [<-|Hne].
    + rewrite (H2 Hnot). split; [lia|]. rewrite has_class_add.
      rewrite !bool_decide_eq_true_2 by (done || lia). by rewrite orb_true_r.
    + split; [lia|]. rewrite has_class_add.
      rewrite (bool_decide_eq_false_2 (c = c')) by congruence. rewrite orb_false_r.
      intros Hc. rewrite (H2 Hc). lia.
  - by rewrite counter_step_skips.
Qed.

Lemma counters_inv_handleScroll (len : nat) :
  Forall (λ c, c < len) (counterItems env) →
  keeps (counters_inv len) (handleScroll parseInt env).
Proof.
  intros Hvalid. unfold handleScroll. apply keeps_bind; [apply keeps_get|]. intros y.
  apply keeps_bind.
  { apply keeps_if; (apply keeps_bind; [apply keeps_deref|]); intros h.
    - by apply counters_inv_add.
    - by apply counters_inv_remove. }
  intros _. apply keeps_bind.
  { apply keeps_if; (apply keeps_bind; [apply keeps_deref|]); intros h.
    - by apply counters_inv_add.
    - by apply counters_inv_remove. }
  intros _. apply keeps_forEach. intros c' Hc'. apply counters_inv_counter_step.
  by eapply Forall_forall in Hvalid.
Qed.

Lemma counters_inv_event (len : nat) (e : CounterEvent) (w : World) :
  Forall (λ c, c < len) (counterItems env) →
  counters_inv len w → counters_inv len (counter_event parseInt env e w).
Proof.
  intros Hvalid Hinv. destruct e as [v|i]; simpl.
  - apply keeps_exec; [by apply counters_inv_handleScroll|]. exact Hinv.
  - destruct Hinv as [Hlen Hinv]. split.
    + destruct (interval_tick_frame i w 0 "animated") as (_ & _ & ->). done.
    + intros c. destruct (interval_tick_frame i w c "animated") as (-> & -> & _). apply Hinv.
Qed.

Lemma counters_inv_events (len : nat) (es : list CounterEvent) (w : World) :
  Forall (λ c, c < len) (counterItems env) →
  counters_inv len w → counters_inv len (counter_events parseInt env es w).
Proof.
  intros Hvalid. revert w. induction es as [|e es IH]; intros w Hinv; [done|].
  simpl. apply IH. by apply counters_inv_event.
Qed.
End CounterOnce.

Lemma capture_counterItems_valid (d : list Element) :
  Forall (λ c, c < length d) (counterItems (capture d)).
Proof.
  apply Forall_forall. intros c Hc. simpl in Hc.
  apply querySelectorAll_spec in Hc as (e & He & _). by eapply lookup_lt_Some.
Qed.

(** C6. The counter animation starts at most once.  In any state, a scroll
    handler run leaves a counter that carries 'animated' marked and starts no
    interval for it; and on a page as loaded, after any sequence of scroll
    events and interval firings, no counter has more than one interval. *)
Theorem counter_animation_starts_once (parseInt : option string → jsnum) (d : list Element)
    (st : gmap string string) (v : Window) (counter : node) :
  let env := capture d in
  (∀ (w : World) (v' : Window),
     has_class (dom w) counter "animated" = true →
     let w' := exec (handleScroll parseInt env) (set_window v' w) in
     has_class (dom w') counter "animated" = true ∧ started counter w' = started counter w) ∧
  (∀ es : list CounterEvent,
     started counter (counter_events parseInt env es (load d st v)) ≤ 1).
Proof.
  intros env. split.
  - intros w v' Han. apply (keeps_exec (animated_with counter (started counter w))).
    + apply animated_with_handleScroll.
    + done.
  - intros es.
    destruct (counters_inv_events parseInt env (length d) es (load d st v)) as [_ Hinv].
    + apply capture_counterItems_valid.
    + split; [done|]. intros c. split; [cbv; lia|done].
    + apply Hinv.
Qed.

(** ** preloader: when the counter reaches its total *)

Lemma same_markup_style (cs : list string) (f : gmap string StyleVal → gmap string StyleVal)
    (e e' : Element) :
  same_markup cs e e' → same_markup cs e (with_style f e').
Proof. intros (? & ? & ? & ? & ? & ?). by repeat split. Qed.

Lemma width_of_alter (v : StyleVal) (p : node) (d : list Element) :
  p < length d → width_of (alter (with_style (<["width" := v]>)) p d) p = Some v.
Proof.
  intros Hp. unfold width_of. rewrite list_lookup_alter_eq.
  destruct (lookup_lt_is_Some_2 d p Hp) as [e ->]. simpl. apply lookup_insert_eq.
Qed.

(** One increment. *)
Lemma increment_effect (env : Env) (d0 : list Element) (p : node) (k : Z) (w : World) :
  progress env = Some p → p < length d0 →
  preloader_at d0 p k w →
  ∃ w', increment env w = (Ok tt, w') ∧ preloader_at d0 p (k + 1) w' ∧
        listeners w' = listeners w.
Proof.
  intros Hp Hlt (Hd & Htot & Hk & Hfade & _). unfold increment. munfold. simpl. rewrite Hp. simpl.
  assert (Forall2 (same_markup []) d0
            (alter (with_style (<["width" := Percent (percentage_of (Z.succ (loadedCount w))
                                                        (totalItems w))]>)) p (dom w))) as Hd'.
  { apply Forall2_alter_r; [done|]. intros. by apply same_markup_style. }
  assert (p < length (dom w)) as Hlt' by (by rewrite (same_markup_length _ _ _ Hd)).
  destruct (bool_decide_reflect (totalItems w ≤ Z.succ (loadedCount w))%Z) as [Hge|Hlt2]; simpl.
  - eexists. split; [reflexivity|]. unfold preloader_at. simpl. split; [|done].
    split; [done|]. split; [done|]. split; [lia|]. split; [lia|].
    intros _. rewrite width_of_alter by done. do 3 f_equal. lia.
  - eexists. split; [reflexivity|]. unfold preloader_at. simpl. split; [|done].
    split; [done|]. split; [done|]. split; [lia|]. split; [lia|].
    intros _. rewrite width_of_alter by done. do 3 f_equal. lia.
Qed.

Lemma preloader_at_load (d : list Element) (st : gmap string string) (v : Window) (p : node) :
  p < length d →
  preloader_at d p 0 (exec (style_set p "width" (Percent (Q2Qc (inject_Z 0)))) (load d st v)).
Proof.
  intros Hp. munfold. unfold preloader_at. simpl. split.
  { apply Forall2_alter_r; [apply same_markup_dom_refl|]. intros. by apply same_markup_style. }
  split; [done|]. split; [done|]. split; [simpl; lia|]. intros ?. lia.
Qed.

Lemma preloader_count_images_unfold (env : Env) :
  preloader_count_images env =
  (d ← get dom;
   if bool_decide (0 < length (document_images d))
   then forEach (document_images d) (image_step env)
   else increment env;; increment env).
Proof. reflexivity. Qed.

Lemma image_listeners_target (imgs : list node) (l : EventTarget * string * Callback) :
  l ∈ image_listeners imgs → ∃ img, img ∈ imgs ∧ l.1.1 = TNode img.
Proof.
  unfold image_listeners. intros (img & Hl & Himg)%list_elem_of_bind. exists img. split; [done|].
  apply elem_of_cons in Hl as [->|Hl]; [done|]. by apply list_elem_of_singleton in Hl as ->.
Qed.

Lemma image_listeners_snoc (imgs : list node) (img : node) :
  image_listeners (imgs ++ [img])
  = image_listeners imgs ++ [(TNode img, "load", CbIncrement); (TNode img, "error", CbIncrement)].
Proof. unfold image_listeners. by rewrite bind_app. Qed.

Lemma preloader_at_listeners (d0 : list Element) (p : node) (k : Z)
    (f : list (EventTarget * string * Callback) → list (EventTarget * string * Callback)) (w : World) :
  preloader_at d0 p k w → preloader_at d0 p k (set_listeners f w).
Proof. done. Qed.

Lemma addEventListener_fresh (t : EventTarget) (ty : string) (cb : Callback) (w : World) :
  (t, ty, cb) ∉ listeners w →
  addEventListener t ty cb w = (Ok tt, set_listeners (λ ls, ls ++ [(t, ty, cb)]) w).
Proof.
  intros Hf. unfold addEventListener, modify, set_listeners. by rewrite bool_decide_eq_false_2.
Qed.

Lemma image_step_effect (env : Env) (d0 : list Element) (p : node) (x : node)
    (seen : list node) (k : Z) (w : World) :
  progress env = Some p → p < length d0 →
  x ∉ seen →
  preloader_at d0 p k w →
  listeners w = image_listeners (still_loading d0 seen) →
  ∃ w1, image_step env x w = (Ok tt, w1) ∧
        preloader_at d0 p (k + (if is_complete d0 x then 1 else 0)) w1 ∧
        listeners w1 = image_listeners (still_loading d0 (seen ++ [x])).
Proof.
  intros Hp Hlt Hx Hat Hls. unfold image_step.
  rewrite (bind_Ok _ _ w w (dom w)) by done.
  pose proof Hat as (Hd & _). rewrite (same_markup_complete _ _ _ Hd).
  unfold still_loading in *. rewrite filter_app, filter_cons, filter_nil.
  destruct (is_complete d0 x) eqn:Hcx.
  - destruct (increment_effect env d0 p k w Hp Hlt Hat) as (w1 & Hinc & Hat1 & Hls1).
    exists w1. split; [done|]. split; [done|].
    rewrite decide_False by done. by rewrite app_nil_r, Hls1.
  - exists (set_listeners
              (λ ls, ls ++ [(TNode x, "load", CbIncrement); (TNode x, "error", CbIncrement)]) w).
    split; [|split].
    + rewrite (bind_Ok _ _ w (set_listeners (λ ls, ls ++ [(TNode x, "load", CbIncrement)]) w) tt).
      2:{ apply addEventListener_fresh. rewrite Hls.
          intros (img & Himg & Hl)%image_listeners_target. simpl in Hl.
          injection Hl as <-. by apply list_elem_of_filter in Himg as [_ Himg]. }
      rewrite addEventListener_fresh.
      2:{ simpl. rewrite elem_of_app, list_elem_of_singleton, Hls.
          intros [(img & Himg & Hl)%image_listeners_target|[=]]. simpl in Hl.
          injection Hl as <-. by apply list_elem_of_filter in Himg as [_ Himg]. }
      unfold set_listeners. simpl. by rewrite <- app_assoc.
    + replace (k + 0)%Z with k by lia. by apply preloader_at_listeners.
    + simpl. by rewrite Hls, image_listeners_snoc.
Qed.

(** The loop over the images: one increment per complete image, two
    listeners per image still loading. *)
Lemma image_loop (env : Env) (d0 : list Element) (p : node) (L : list node) :
  progress env = Some p → p < length d0 →
  ∀ (seen : list node) (k : Z) (w : World),
  NoDup (seen ++ L) →
  preloader_at d0 p k w →
  listeners w = image_listeners (still_loading d0 seen) →
  ∃ w', forEach L (image_step env) w = (Ok tt, w') ∧
        preloader_at d0 p (k + Z.of_nat (length L) - Z.of_nat (length (still_loading d0 L))) w' ∧
        listeners w' = image_listeners (still_loading d0 (seen ++ L)).
Proof.
  intros Hp Hlt. induction L as [|x L IH]; intros seen k w Hnd Hat Hls.
  { exists w. split; [done|]. rewrite app_nil_r. split; [|done].
    simpl. by replace (k + Z.of_nat 0 - Z.of_nat 0)%Z with k by lia. }
  assert (NoDup ((seen ++ [x]) ++ L)) as Hnd' by (by rewrite <- app_assoc).
  assert (x ∉ seen) as Hx.
  { apply NoDup_app in Hnd as (_ & Hdisj & _). intros Hin. apply (Hdisj x Hin), list_elem_of_here. }
  destruct (image_step_effect env d0 p x seen k w Hp Hlt Hx Hat Hls) as (w1 & Hstep & Hat1 & Hls1).
  destruct (IH (seen ++ [x]) _ w1 Hnd' Hat1 Hls1) as (w' & Hrun & Hat' & Hls').
  exists w'. cbn [forEach]. rewrite (bind_Ok _ _ w w1 tt Hstep). split; [done|].
  rewrite <- app_assoc in Hls'. split; [|done].
  unfold still_loading in *. rewrite filter_cons.
  destruct (is_complete d0 x) eqn:Hcx.
  - rewrite decide_False by done.
    replace (k + Z.of_nat (length (x :: L)) - _)%Z
      with (k + 1 + Z.of_nat (length L)
            - Z.of_nat (length (filter (λ img, is_complete d0 img = false) L)))%Z; [done|].
    simpl. lia.
  - rewrite decide_True by done.
    replace (k + Z.of_nat (length (x :: L)) - _)%Z
      with (k + 0 + Z.of_nat (length L)
            - Z.of_nat (length (filter (λ img, is_complete d0 img = false) L)))%Z; [done|].
    simpl. lia.
Qed.

Lemma percentage_of_100 (k t : Z) :
  (0 < t)%Z → percentage_of k t = Q2Qc (inject_Z 100) ↔ k = t.
Proof.
  intros Ht. unfold percentage_of.
  assert (Q2Qc (inject_Z t) ≠ Q2Qc 0) as Hy.
  { intros H%Q2Qc_eq_iff. apply (proj1 (inject_Z_injective t 0)) in H. lia. }
  assert (Q2Qc (inject_Z 100) ≠ Q2Qc 0) as Hc.
  { intros H%Q2Qc_eq_iff. apply (proj1 (inject_Z_injective 100 0)) in H. lia. }
  split.
  - intros H.
    assert (Q2Qc (inject_Z k) / Q2Qc (inject_Z t) = 1)%Qc as H1.
    { rewrite <- (Qcdiv_mult_l (_ / _) (Q2Qc (inject_Z 100))) by done. rewrite H.
      unfold Qcdiv. by apply Qcmult_inv_r. }
    assert (Q2Qc (inject_Z k) = Q2Qc (inject_Z t)) as H2.
    { rewrite <- (Qcmult_div_r (Q2Qc (inject_Z k)) (Q2Qc (inject_Z t))) by done.
      rewrite H1. apply Qcmult_1_r. }
    apply Q2Qc_eq_iff in H2. by apply (proj1 (inject_Z_injective k t)) in H2.
  - intros ->. unfold Qcdiv. rewrite Qcmult_inv_r by done. apply Qcmult_1_l.
Qed.

Lemma matching_from_ge (p : Element → bool) (d : list Element) (i n : node) :
  n ∈ matching_from p i d → i ≤ n.
Proof. intros (k & e & -> & _)%matching_from_spec. lia. Qed.

Lemma matching_from_NoDup (p : Element → bool) (d : list Element) (i : node) :
  NoDup (matching_from p i d).
Proof.
  revert i. induction d as [|e d IH]; intros i; simpl; [apply NoDup_nil_2|].
  destruct (p e); simpl; [|apply IH]. apply NoDup_cons_2; [|apply IH].
  intros Hin%matching_from_ge. lia.
Qed.

Lemma image_listeners_filter_nil (imgs : list node) (img : node) (ty : string) :
  img ∉ imgs →
  filter (λ l : EventTarget * string * Callback, l.1.1 = TNode img ∧ l.1.2 = ty)
         (image_listeners imgs) = [].
Proof.
  induction imgs as [|x imgs IH]; intros Hnot; [done|].
  apply not_elem_of_cons in Hnot as [Hne Hnot].
  change (image_listeners (x :: imgs))
    with ((TNode x, "load", CbIncrement) :: (TNode x, "error", CbIncrement) :: image_listeners imgs).
  rewrite !filter_cons. simpl.
  rewrite !decide_False by (intros [[=] _]; congruence). by apply IH.
Qed.

Lemma image_listeners_filter (imgs : list node) (img : node) (ty : string) :
  NoDup imgs → img ∈ imgs → ty = "load" ∨ ty = "error" →
  filter (λ l : EventTarget * string * Callback, l.1.1 = TNode img ∧ l.1.2 = ty)
         (image_listeners imgs) = [(TNode img, ty, CbIncrement)].
Proof.
  induction imgs as [|x imgs IH]; intros Hnd Hin Hty; [by apply elem_of_nil in Hin|].
  apply NoDup_cons in Hnd as [Hx Hnd].
  change (image_listeners (x :: imgs))
    with ((TNode x, "load", CbIncrement) :: (TNode x, "error", CbIncrement) :: image_listeners imgs).
  rewrite !filter_cons. simpl.
  destruct (decide (x = img)) as [->|Hne].
  - rewrite image_listeners_filter_nil by done. destruct Hty as [->| ->].
    + rewrite decide_True by done. by rewrite decide_False by (by intros [_ [=]]).
    + rewrite decide_False by (by intros [_ [=]]). by rewrite decide_True by done.
  - rewrite !decide_False by (intros [[=] _]; congruence).
    apply IH; [done| |done]. apply elem_of_cons in Hin as [->|]; done.
Qed.

(** A load or error event on an image that is still loading runs
    [increment] once. *)
Lemma dispatch_image_event (parseInt : option string → jsnum)
    (cssQuery : string → list Element → option (option node)) (env : Env)
    (d0 : list Element) (p : node) (imgs : list node) (img : node) (ty : string) (k : Z) (w : World) :
  progress env = Some p → p < length d0 →
  NoDup imgs → img ∈ imgs → ty = "load" ∨ ty = "error" →
  preloader_at d0 p k w →
  listeners w = image_listeners imgs →
  let w' := exec (dispatch parseInt cssQuery env (TNode img) ty) w in
  preloader_at d0 p (k + 1) w' ∧ listeners w' = image_listeners imgs.
Proof.
  intros Hp Hlt Hnd Hin Hty Hat Hls. unfold dispatch, exec.
  rewrite (bind_Ok _ _ w w (listeners w)) by done.
  rewrite Hls, image_listeners_filter by done. cbn [forEach].
  destruct (increment_effect env d0 p k w Hp Hlt Hat) as (w1 & Hinc & Hat1 & Hls1).
  unfold attempt, mbind, M_bind. simpl. rewrite Hinc. simpl. split; [done|]. by rewrite Hls1.
Qed.

Lemma image_events_effect (parseInt : option string → jsnum)
    (cssQuery : string → list Element → option (option node)) (env : Env)
    (d0 : list Element) (p : node) (imgs : list node) (evs : list (node * string)) :
  progress env = Some p → p < length d0 → NoDup imgs →
  Forall (λ e, e.1 ∈ imgs ∧ (e.2 = "load" ∨ e.2 = "error")) evs →
  ∀ (k : Z) (w : World),
  preloader_at d0 p k w →
  listeners w = image_listeners imgs →
  preloader_at d0 p (k + Z.of_nat (length evs)) (image_events parseInt cssQuery env evs w).
Proof.
  intros Hp Hlt Hnd Hevs. induction Hevs as [|e evs [He1 He2] _ IH]; intros k w Hat Hls.
  { simpl. by replace (k + Z.of_nat 0)%Z with k by lia. }
  destruct (dispatch_image_event parseInt cssQuery env d0 p imgs e.1 e.2 k w) as [Hat1 Hls1];
    try done.
  change (image_events parseInt cssQuery env (e :: evs) w)
    with (image_events parseInt cssQuery env evs
            (exec (dispatch parseInt cssQuery env (TNode e.1) e.2) w)).
  replace (k + Z.of_nat (length (e :: evs)))%Z
    with (k + 1 + Z.of_nat (length evs))%Z by (cbn [length]; lia).
  by apply IH.
Qed.

Lemma preloader_count_images_effect (env : Env) (d0 : list Element) (p : node) (w : World) :
  progress env = Some p → p < length d0 →
  preloader_at d0 p 0 w →
  listeners w = [] →
  let N := Z.of_nat (length (document_images d0)) in
  let pending := Z.of_nat (length (pending_images d0)) in
  ∃ w', preloader_count_images env w = (Ok tt, w') ∧
        preloader_at d0 p (if bool_decide (N = 0)%Z then 2 else N - pending) w' ∧
        listeners w' = image_listeners (pending_images d0).
Proof.
  intros Hp Hlt Hat Hls N pending. rewrite preloader_count_images_unfold.
  rewrite (bind_Ok _ _ w w (dom w)) by done.
  pose proof Hat as (Hd & _).
  assert (document_images (dom w) = document_images d0) as ->.
  { apply (same_markup_querySelectorAll _ _ _ Hd). intros e e'. apply same_markup_sel_tag. }
  destruct (document_images d0) as [|x imgs] eqn:Himgs.
  - rewrite bool_decide_eq_false_2 by (simpl; lia).
    destruct (increment_effect env d0 p 0 w Hp Hlt Hat) as (w1 & Hinc1 & Hat1 & Hls1).
    destruct (increment_effect env d0 p 1 w1 Hp Hlt Hat1) as (w2 & Hinc2 & Hat2 & Hls2).
    exists w2. rewrite (bind_Ok _ _ w w1 tt Hinc1). split; [done|].
    subst N. rewrite bool_decide_eq_true_2 by done. split; [done|].
    unfold pending_images. rewrite Himgs. simpl. by rewrite Hls2, Hls1.
  - rewrite bool_decide_eq_true_2 by (simpl; lia).
    destruct (image_loop env d0 p (x :: imgs) Hp Hlt [] 0 w) as (w' & Hrun & Hat' & Hls'); try done.
    { simpl. rewrite <- Himgs. apply matching_from_NoDup. }
    exists w'. split; [done|]. subst N pending.
    rewrite bool_decide_eq_false_2 by (cbn [length]; lia).
    unfold pending_images. rewrite Himgs. split; [|done].
    by replace (Z.of_nat (length (x :: imgs)) -
                Z.of_nat (length (filter (λ img, is_complete d0 img = false) (x :: imgs))))%Z
      with (0 + Z.of_nat (length (x :: imgs))
            - Z.of_nat (length (still_loading d0 (x :: imgs))))%Z by (unfold still_loading; lia).
Qed.

Lemma preloader_init_effect (env : Env) (d : list Element) (st : gmap string string) (v : Window)
    (p : node) :
  progress env = Some p → p < length d →
  let N := Z.of_nat (length (document_images d)) in
  let pending := Z.of_nat (length (pending_images d)) in
  ∃ w', preloader_init env (load d st v) = (Ok tt, w') ∧
        preloader_at d p (if bool_decide (N = 0)%Z then 4 else N - pending + 2) w' ∧
        listeners w' = image_listeners (pending_images d).
Proof.
  intros Hp Hlt N pending. unfold preloader_init.
  rewrite (bind_Ok _ _ _ (load d st v) p) by (unfold deref; by rewrite Hp).
  pose proof (preloader_at_load d st v p Hlt) as Hat0.
  set (wA := exec (style_set p "width" (Percent (Q2Qc (inject_Z 0)))) (load d st v)) in *.
  rewrite (bind_Ok _ _ _ wA tt) by done.
  destruct (preloader_count_images_effect env d p wA Hp Hlt Hat0) as (w1 & Hrun & Hat1 & Hls1);
    [done|].
  rewrite (bind_Ok _ _ _ w1 tt Hrun). unfold preloader_count_css_js.
  destruct (increment_effect env d p _ w1 Hp Hlt Hat1) as (w2 & Hinc2 & Hat2 & Hls2).
  destruct (increment_effect env d p _ w2 Hp Hlt Hat2) as (w3 & Hinc3 & Hat3 & Hls3).
  exists w3. rewrite (bind_Ok _ _ _ w2 tt Hinc2). split; [done|].
  split; [|by rewrite Hls3, Hls2]. fold N pending in Hat3.
  destruct (bool_decide (N = 0)%Z); [done|].
  by replace (N - pending + 2)%Z with (N - pending + 1 + 1)%Z by lia.
Qed.

(** With no image, [init] goes on after the total is reached: the two fixed
    increments bring the counter to 4 of 2. *)
Lemma preloader_init_no_images (env : Env) (d : list Element) (st : gmap string string)
    (v : Window) (p : node) :
  progress env = Some p → p < length d →
  document_images d = [] →
  let w := exec (preloader_init env) (load d st v) in
  loadedCount w = 4%Z ∧ totalItems w = 2%Z ∧ fadeTimeouts w = 3 ∧
  width_of (dom w) p = Some (Percent (percentage_of 4 2)).
Proof.
  intros Hp Hlt Himgs.
  destruct (preloader_init_effect env d st v p Hp Hlt) as (w' & Hrun & Hat & _).
  rewrite Himgs in Hat. simpl in Hat. unfold exec. rewrite Hrun. simpl.
  destruct Hat as (_ & Htot & Hk & Hfade & Hw). rewrite Himgs in Htot. simpl in Htot.
  rewrite Htot in Hfade, Hw. split; [done|]. split; [done|]. split; [done|]. apply Hw. lia.
Qed.

(** C1. The total is the number N of images plus 2.  With no image, the two
    synthetic increments bring the counter to the total and the bar to 100%,
    and one of them alone does not.  With N > 0 images, [init] and the load
    or error events of the images still loading make N + 2 increments in
    all; while some image has not fired, the counter is below the total, no
    timeout is scheduled and the bar is not at 100%; when the last one has
    fired, the counter equals the total, the bar is at 100% and the timeout
    is scheduled, once. *)
Theorem preloader_reaches_total (parseInt : option string → jsnum)
    (cssQuery : string → list Element → option (option node))
    (d : list Element) (st : gmap string string) (v : Window) (p : node)
    (fired rest : list (node * string)) :
  let env := capture d in
  let N := Z.of_nat (length (document_images d)) in
  let w0 := load d st v in
  progress env = Some p →
  (fired ++ rest).*1 ≡ₚ pending_images d →
  Forall (λ e, e.2 = "load" ∨ e.2 = "error") (fired ++ rest) →
  totalItems w0 = (N + 2)%Z ∧
  (N = 0%Z →
   let w1 := exec (increment env) (exec (style_set p "width" (percent 0)) w0) in
   let w2 := exec (preloader_count_images env) (exec (style_set p "width" (percent 0)) w0) in
   (loadedCount w1 = 1%Z ∧ fadeTimeouts w1 = 0 ∧ width_of (dom w1) p ≠ Some (percent 100)) ∧
   (loadedCount w2 = 2%Z ∧ loadedCount w2 = totalItems w2 ∧
    width_of (dom w2) p = Some (percent 100) ∧ fadeTimeouts w2 = 1)) ∧
  ((0 < N)%Z →
   let w := image_events parseInt cssQuery env fired (exec (preloader_init env) w0) in
   outcome (preloader_init env) w0 = Ok tt ∧
   totalItems w = (N + 2)%Z ∧
   loadedCount w = (N + 2 - Z.of_nat (length rest))%Z ∧
   (rest = [] → width_of (dom w) p = Some (percent 100) ∧ fadeTimeouts w = 1) ∧
   (rest ≠ [] → width_of (dom w) p ≠ Some (percent 100) ∧ fadeTimeouts w = 0)).
Proof.
  intros env N w0 Hp Hperm Hty.
  assert (p < length d) as Hlt.
  { apply querySelector_Some in Hp as (e & He & _). by eapply lookup_lt_Some. }
  split; [done|]. split.
  - intros HN w1 w2.
    pose proof (preloader_at_load d st v p Hlt) as Hat0.
    destruct (increment_effect env d p 0 _ Hp Hlt Hat0) as (w1' & Hinc & Hat1 & _).
    destruct (preloader_count_images_effect env d p _ Hp Hlt Hat0) as (w2' & Hrun & Hat2 & _);
      [done|].
    fold N in Hat2. rewrite bool_decide_eq_true_2 in Hat2 by done.
    subst w1 w2 w0. unfold percent, exec in *. rewrite Hinc, Hrun. simpl.
    destruct Hat1 as (_ & Htot1 & Hk1 & Hf1 & Hw1). destruct Hat2 as (_ & Htot2 & Hk2 & Hf2 & Hw2).
    fold N in Htot1, Htot2. rewrite Htot1 in Hf1, Hw1. rewrite Htot2 in Hf2, Hw2.
    rewrite HN in *. simpl in *. split.
    + split; [done|]. split; [done|].
      assert (percentage_of (0 + 1) (0 + 2) ≠ Q2Qc (inject_Z 100)) as Hne
        by (intros H%percentage_of_100; lia).
      rewrite Hw1 by lia. congruence.
    + split; [done|]. split; [lia|]. split; [|done]. rewrite Hw2 by lia.
      by rewrite (proj2 (percentage_of_100 2 (0 + 2) ltac:(lia)) eq_refl).
  - intros HN w.
    destruct (preloader_init_effect env d st v p Hp Hlt) as (w' & Hrun & Hat & Hls).
    fold N in Hat. rewrite bool_decide_eq_false_2 in Hat by lia.
    assert (NoDup (pending_images d)) as Hnd.
    { apply NoDup_filter, matching_from_NoDup. }
    assert (Forall (λ e : node * string, e.1 ∈ pending_images d ∧ (e.2 = "load" ∨ e.2 = "error"))
              fired) as Hfired.
    { apply Forall_forall. intros e He. split.
      - rewrite <- Hperm. apply list_elem_of_fmap. exists e. split; [done|].
        apply elem_of_app. by left.
      - eapply Forall_forall in Hty; [exact Hty|]. apply elem_of_app. by left. }
    pose proof (image_events_effect parseInt cssQuery env d p (pending_images d) fired
                  Hp Hlt Hnd Hfired _ w' Hat Hls) as Hat'.
    assert (Z.of_nat (length (pending_images d))
            = Z.of_nat (length fired) + Z.of_nat (length rest))%Z as Hlen.
    { rewrite <- Hperm, length_fmap, length_app. lia. }
    subst w w0. unfold outcome, exec. rewrite Hrun. simpl. split; [done|].
    destruct Hat' as (_ & Htot & Hk & Hf & Hw). fold N in Htot.
    rewrite Htot in Hf, Hw. split; [done|]. split; [lia|]. split.
    + intros ->. simpl in Hlen. rewrite Hw by lia. split; [|rewrite Hf; lia].
      unfold percent. do 2 f_equal. apply percentage_of_100; lia.
    + intros Hrest. assert (0 < length rest) by (destruct rest; [done|simpl; lia]).
      assert (Z.of_nat (length (pending_images d)) ≤ N)%Z as Hle.
      { subst N. apply inj_le. unfold pending_images. apply length_filter. }
      split; [|rewrite Hf; lia].
      assert (percentage_of (N - Z.of_nat (length (pending_images d)) + 2
                              + Z.of_nat (length fired)) (N + 2) ≠ Q2Qc (inject_Z 100)) as Hne
        by (intros H'%percentage_of_100; lia).
      rewrite Hw by lia. unfold percent. congruence.
Qed.

Lemma preloader_reaches_total_witness :
  let env := capture sample_page in
  let N := Z.of_nat (length (document_images sample_page)) in
  let w0 := load sample_page ∅ sample_window in
  let fired := [(20, "error")] in
  let rest : list (node * string) := [] in
  totalItems w0 = (N + 2)%Z ∧
  (N = 0%Z →
   let w1 := exec (increment env) (exec (style_set 3 "width" (percent 0)) w0) in
   let w2 := exec (preloader_count_images env) (exec (style_set 3 "width" (percent 0)) w0) in
   (loadedCount w1 = 1%Z ∧ fadeTimeouts w1 = 0 ∧ width_of (dom w1) 3 ≠ Some (percent 100)) ∧
   (loadedCount w2 = 2%Z ∧ loadedCount w2 = totalItems w2 ∧
    width_of (dom w2) 3 = Some (percent 100) ∧ fadeTimeouts w2 = 1)) ∧
  ((0 < N)%Z →
   let w := image_events sample_parseInt (λ _ _, Some None) env fired
              (exec (preloader_init env) w0) in
   outcome (preloader_init env) w0 = Ok tt ∧
   totalItems w = (N + 2)%Z ∧
   loadedCount w = (N + 2 - Z.of_nat (length rest))%Z ∧
   (rest = [] → width_of (dom w) 3 = Some (percent 100) ∧ fadeTimeouts w = 1) ∧
   (rest ≠ [] → width_of (dom w) 3 ≠ Some (percent 100) ∧ fadeTimeouts w = 0)).
Proof.
  apply (preloader_reaches_total sample_parseInt (λ _ _, Some None) sample_page ∅ sample_window 3
           [(20, "error")] []).
  - reflexivity.
  - vm_compute. reflexivity.
  - apply Forall_cons_2; [by right|apply Forall_nil_2].
Defined.

(** ** Which module writes what *)

Lemma script_variant_refl (e : Element) : script_variant e e.
Proof. by repeat split. Qed.

Lemma script_variant_classes (g : list string → list string) (e e' : Element) :
  (∀ c l, c ∉ script_classes → token_contains c (g l) = token_contains c l) →
  script_variant e e' → script_variant e (with_classList g e').
Proof.
  intros Hg (? & ? & Hc). repeat split; simpl; try done.
  intros c Hcs. rewrite Hg by done. by apply Hc.
Qed.

Lemma script_variant_add (c : string) (e e' : Element) :
  c ∈ script_classes → script_variant e e' → script_variant e (with_classList (token_add c) e').
Proof.
  intros Hc. apply script_variant_classes. intros c' l Hc'. rewrite token_contains_add.
  rewrite (bool_decide_eq_false_2 (c' = c)) by (intros ->; done). apply orb_false_r.
Qed.

Lemma script_variant_remove (c : string) (e e' : Element) :
  c ∈ script_classes → script_variant e e' → script_variant e (with_classList (token_remove c) e').
Proof.
  intros Hc. apply script_variant_classes. intros c' l Hc'. rewrite token_contains_remove.
  rewrite (bool_decide_eq_false_2 (c' = c)) by (intros ->; done). apply andb_true_r.
Qed.

Lemma script_variant_toggle (c : string) (e e' : Element) :
  c ∈ script_classes → script_variant e e' → script_variant e (with_classList (token_toggle c) e').
Proof.
  intros Hc. apply script_variant_classes. intros c' l Hc'. rewrite token_contains_toggle.
  rewrite (bool_decide_eq_false_2 (c' = c)) by (intros ->; done). apply xorb_false_r.
Qed.

Lemma script_variant_style (f : gmap string StyleVal → gmap string StyleVal) (e e' : Element) :
  script_variant e e' → script_variant e (with_style f e').
Proof. by intros (? & ? & ?). Qed.

Lemma script_variant_text (t : string) (e e' : Element) :
  script_variant e e' → script_variant e (with_textContent t e').
Proof. by intros (? & ? & ?). Qed.

Lemma script_variant_checked (b : bool) (e e' : Element) :
  script_variant e e' → script_variant e (with_checked b e').
Proof. by intros (? & ? & ?). Qed.

Lemma script_variant_data_theme (v : string) (e e' : Element) :
  script_variant e e' → script_variant e (with_attributes (<["data-theme" := v]>) e').
Proof.
  intros (? & Ha & ?). repeat split; simpl; try done.
  intros a Hne. rewrite lookup_insert_ne by done. by apply Ha.
Qed.

Section ScriptVariant.
Variables d0 d : list Element.
Hypothesis Hd : Forall2 script_variant d0 d.

Lemma script_variant_getAttribute (n : node) (a : string) :
  a ≠ "data-theme" → getAttribute d n a = getAttribute d0 n a.
Proof using Hd.
  intros Ha. unfold getAttribute. apply Forall2_lookup with (i := n) in Hd.
  destruct Hd as [e e' (? & Hat & ?)|]; simpl; [|done]. by apply Hat.
Qed.

Lemma script_variant_querySelector (p : Element → bool) :
  (∀ e e', script_variant e e' → p e' = p e) → querySelector p d = querySelector p d0.
Proof using Hd.
  intros Hp. apply querySelector_Forall2. eapply Forall2_impl; [exact Hd|]. apply Hp.
Qed.

Lemma script_variant_document_body : document_body d = document_body d0.
Proof using Hd.
  apply script_variant_querySelector. intros e e' (Hn & _). unfold sel_tag. by rewrite Hn.
Qed.

Lemma script_variant_documentElement : document_documentElement d = document_documentElement d0.
Proof using Hd.
  apply script_variant_querySelector. intros e e' (Hn & _). unfold sel_tag. by rewrite Hn.
Qed.

Lemma script_variant_getElementById (i : string) : getElementById i d = getElementById i d0.
Proof using Hd.
  unfold getElementById. destruct (bool_decide (i = "")); [done|].
  apply script_variant_querySelector. intros e e' (_ & Ha & _). unfold sel_id.
  by rewrite Ha.
Qed.

Lemma script_variant_tab_target (btn : node) : tab_target d btn = tab_target d0 btn.
Proof using Hd.
  unfold tab_target. by rewrite script_variant_getAttribute, script_variant_getElementById.
Qed.

Lemma script_variant_nav_link_of (section : node) : nav_link_of d section = nav_link_of d0 section.
Proof using Hd.
  unfold nav_link_of, section_id. rewrite script_variant_getAttribute by done.
  apply script_variant_querySelector. intros e e' (_ & Ha & Hc). unfold sel_nav_link_href, sel_class.
  rewrite Ha by done. rewrite Hc; [done|]. unfold script_classes.
  rewrite !elem_of_cons, elem_of_nil. intros [?|[?|[?|[?|[?|[]]]]]]; discriminate.
Qed.

Lemma script_variant_section_id (section : node) : section_id d section = section_id d0 section.
Proof using Hd. unfold section_id. by rewrite script_variant_getAttribute. Qed.

Lemma script_variant_length : length d = length d0.
Proof using Hd. symmetry. by eapply Forall2_length. Qed.
End ScriptVariant.

Section Footprints.
Variable old : list Loc.
Variable parseInt : option string → jsnum.
Variable cssQuery : string → list Element → option (option node).
Variable env : Env.
Variable d0 : list Element.
Variable m : Module.

Lemma within_state_only (f : World → World) :
  (∀ w, dom (f w) = dom w ∧ intervals (f w) = intervals w ∧ writes (f w) = writes w) →
  keeps (writes_within old env d0 m) (modify f).
Proof.
  intros Hf. apply keeps_modify. intros w [[Hd Hiv] Hw]. destruct (Hf w) as (E1 & E2 & E3).
  unfold writes_within, page_state. by rewrite E1, E2, E3.
Qed.

Lemma within_write_el (n : node) (fc : Facet) (f : Element → Element) :
  LNode n fc ∈ own_locs env d0 m →
  (∀ e e', script_variant e e' → script_variant e (f e')) →
  keeps (writes_within old env d0 m) (write_el n fc f).
Proof.
  intros Hown Hf. apply keeps_modify. intros w [[Hd Hiv] Hw]. split; [split|]; simpl.
  - apply Forall2_alter_r; [done|]. intros x y _ _. apply Hf.
  - done.
  - intros l [Hl|Hl%list_elem_of_singleton]%elem_of_app; [by apply Hw|right; by subst].
Qed.

Lemma within_setItem (k v : string) :
  LStorage k ∈ own_locs env d0 m →
  keeps (writes_within old env d0 m) (localStorage_setItem k v).
Proof.
  intros Hown. apply keeps_modify. intros w [[Hd Hiv] Hw]. split; [done|]. simpl.
  intros l [Hl|Hl%list_elem_of_singleton]%elem_of_app; [by apply Hw|right; by subst].
Qed.

Lemma within_get_dom {A} (f : list Element → M A) :
  (∀ d, Forall2 script_variant d0 d → keeps (writes_within old env d0 m) (f d)) →
  keeps (writes_within old env d0 m) (get dom ≫= f).
Proof. intros Hf w HI. unfold mbind, M_bind, get. apply Hf; [|done]. apply HI. Qed.

Lemma within_get_intervals {A} (f : list Interval → M A) :
  (∀ ivs, Forall (λ iv, iv_counter iv ∈ counterItems env) ivs →
          keeps (writes_within old env d0 m) (f ivs)) →
  keeps (writes_within old env d0 m) (get intervals ≫= f).
Proof. intros Hf w HI. unfold mbind, M_bind, get. apply Hf; [|done]. apply HI. Qed.

Lemma within_deref {A} (r : option node) (f : node → M A) :
  (∀ n, r = Some n → keeps (writes_within old env d0 m) (f n)) →
  keeps (writes_within old env d0 m) (deref r ≫= f).
Proof.
  intros Hf w HI. unfold mbind, M_bind, deref. destruct r as [n|]; [|done]. by apply Hf.
Qed.

Lemma within_addEventListener (t : EventTarget) (ty : string) (cb : Callback) :
  keeps (writes_within old env d0 m) (addEventListener t ty cb).
Proof. by apply within_state_only. Qed.

Lemma within_set_intervals (f : list Interval → list Interval) :
  (∀ ivs, Forall (λ iv, iv_counter iv ∈ counterItems env) ivs →
          Forall (λ iv, iv_counter iv ∈ counterItems env) (f ivs)) →
  keeps (writes_within old env d0 m) (modify (set_intervals f)).
Proof.
  intros Hf. apply keeps_modify. intros w [[Hd Hiv] Hw]. split; [split|]; simpl; [done| |done].
  by apply Hf.
Qed.

Lemma within_throw {A} : keeps (writes_within old env d0 m) (λ w, (@Thrown A, w)).
Proof. by intros w HI. Qed.
End Footprints.

Section Ownership.
Variable env : Env.
Variable d0 : list Element.

Lemma own_fmap (fc : Facet) (n : node) (L : list node) :
  n ∈ L → LNode n fc ∈ (λ n, LNode n fc) <$> L.
Proof. intros H. apply list_elem_of_fmap. by exists n. Qed.

Lemma option_list_Some (r : option node) (n : node) : r = Some n → n ∈ option_list r.
Proof. intros ->. apply list_elem_of_here. Qed.

Lemma own_preloader_progress (p : node) :
  progress env = Some p → LNode p FStyle ∈ own_locs env d0 Preloader.
Proof. intros H%option_list_Some. apply elem_of_app. left. by apply own_fmap. Qed.

Lemma own_preloader_loader (l : node) :
  loader env = Some l → LNode l FClass ∈ own_locs env d0 Preloader.
Proof.
  intros H%option_list_Some. apply elem_of_app. right. apply elem_of_app. left. by apply own_fmap.
Qed.

Lemma own_preloader_body (b : node) :
  document_body d0 = Some b → LNode b FStyle ∈ own_locs env d0 Preloader.
Proof.
  intros H%option_list_Some. apply elem_of_app. right. apply elem_of_app. right. by apply own_fmap.
Qed.

Lemma own_menu_hamburger (h : node) :
  hamburger env = Some h → LNode h FClass ∈ own_locs env d0 MobileMenu.
Proof. intros H%option_list_Some. apply own_fmap, elem_of_app. by left. Qed.

Lemma own_menu_navLinks (n : node) :
  navLinks env = Some n → LNode n FClass ∈ own_locs env d0 MobileMenu.
Proof. intros H%option_list_Some. apply own_fmap, elem_of_app. right. apply elem_of_app. by left. Qed.

Lemma own_menu_body (b : node) :
  document_body d0 = Some b → LNode b FClass ∈ own_locs env d0 MobileMenu.
Proof. intros H%option_list_Some. apply own_fmap, elem_of_app. right. apply elem_of_app. by right. Qed.

Lemma own_theme_root (h : node) :
  document_documentElement d0 = Some h → LNode h FAttr ∈ own_locs env d0 ThemeSwitcher.
Proof. intros H%option_list_Some. apply elem_of_app. left. by apply own_fmap. Qed.

Lemma own_theme_toggle (t : node) :
  themeToggle env = Some t → LNode t FChecked ∈ own_locs env d0 ThemeSwitcher.
Proof.
  intros H%option_list_Some. apply elem_of_app. right. apply elem_of_app. left. by apply own_fmap.
Qed.

Lemma own_theme_storage : LStorage "theme" ∈ own_locs env d0 ThemeSwitcher.
Proof. apply elem_of_app. right. apply elem_of_app. right. apply list_elem_of_here. Qed.

Lemma own_scroll_header (h : node) :
  header env = Some h → LNode h FClass ∈ own_locs env d0 ScrollEffects.
Proof. intros H%option_list_Some. apply elem_of_app. left. apply own_fmap, elem_of_app. by left. Qed.

Lemma own_scroll_backToTop (b : node) :
  backToTopBtn env = Some b → LNode b FClass ∈ own_locs env d0 ScrollEffects.
Proof.
  intros H%option_list_Some. apply elem_of_app. left. apply own_fmap, elem_of_app. right.
  apply elem_of_app. by left.
Qed.

Lemma own_scroll_counter_class (c : node) :
  c ∈ counterItems env → LNode c FClass ∈ own_locs env d0 ScrollEffects.
Proof.
  intros H. apply elem_of_app. left. apply own_fmap, elem_of_app. right. apply elem_of_app. by right.
Qed.

Lemma own_scroll_counter_text (c : node) :
  c ∈ counterItems env → LNode c FText ∈ own_locs env d0 ScrollEffects.
Proof. intros H. apply elem_of_app. right. by apply own_fmap. Qed.

Lemma own_tabs_btn (b : node) : b ∈ tabBtns env → LNode b FClass ∈ own_locs env d0 FeatureTabs.
Proof. intros H. apply own_fmap, elem_of_app. by left. Qed.

Lemma own_tabs_pane (p : node) : p ∈ tabPanes env → LNode p FClass ∈ own_locs env d0 FeatureTabs.
Proof. intros H. apply own_fmap, elem_of_app. right. apply elem_of_app. by left. Qed.

Lemma own_tabs_target (b p : node) :
  b ∈ tabBtns env → tab_target d0 b = Some p → LNode p FClass ∈ own_locs env d0 FeatureTabs.
Proof.
  intros Hb Hp. apply own_fmap, elem_of_app. right. apply elem_of_app. right.
  apply list_elem_of_omap. by exists b.
Qed.

Lemma own_nav_link (s l : node) :
  s ∈ sections env → nav_link_of d0 s = Some l → LNode l FClass ∈ own_locs env d0 ActiveNavigation.
Proof.
  intros Hs Hl. apply own_fmap. simpl. destruct (plain_sections env d0).
  - apply list_elem_of_omap. by exists s.
  - apply elem_of_seq. apply querySelector_Some in Hl as (e & He & _).
    apply lookup_lt_Some in He. lia.
Qed.

Lemma own_nav_any (s n : node) :
  s ∈ sections env → css_plain (section_id d0 s) = false → n < length d0 →
  LNode n FClass ∈ own_locs env d0 ActiveNavigation.
Proof.
  intros Hs Hplain Hn. apply own_fmap. simpl.
  destruct (plain_sections env d0) eqn:Hall.
  - unfold plain_sections in Hall. rewrite forallb_forall in Hall.
    rewrite Hall in Hplain; [done|]. by apply list_elem_of_In.
  - apply elem_of_seq. lia.
Qed.
End Ownership.

Lemma script_classes_elem (c : string) :
  c = "fade-out" ∨ c = "active" ∨ c = "menu-open" ∨ c = "scrolled" ∨ c = "animated" →
  c ∈ script_classes.
Proof.
  unfold script_classes. rewrite !elem_of_cons. tauto.
Qed.

Section HandlerWrites.
Variable old : list Loc.
Variable parseInt : option string → jsnum.
Variable cssQuery : string → list Element → option (option node).
Variable env : Env.
Variable d0 : list Element.

Lemma within_add (m : Module) (n : node) (c : string) :
  c ∈ script_classes → LNode n FClass ∈ own_locs env d0 m →
  keeps (writes_within old env d0 m) (classList_add n c).
Proof. intros Hc Hown. apply within_write_el; [done|]. intros e e'. by apply script_variant_add. Qed.

Lemma within_remove (m : Module) (n : node) (c : string) :
  c ∈ script_classes → LNode n FClass ∈ own_locs env d0 m →
  keeps (writes_within old env d0 m) (classList_remove n c).
Proof. intros Hc Hown. apply within_write_el; [done|]. intros e e'. by apply script_variant_remove. Qed.

Lemma within_toggle (m : Module) (n : node) (c : string) :
  c ∈ script_classes → LNode n FClass ∈ own_locs env d0 m →
  keeps (writes_within old env d0 m) (classList_toggle n c).
Proof. intros Hc Hown. apply within_write_el; [done|]. intros e e'. by apply script_variant_toggle. Qed.

Lemma within_style (m : Module) (n : node) (prop : string) (v : StyleVal) :
  LNode n FStyle ∈ own_locs env d0 m →
  keeps (writes_within old env d0 m) (style_set n prop v).
Proof. intros Hown. apply within_write_el; [done|]. intros e e'. apply script_variant_style. Qed.

Ltac within_step :=
  first
    [ apply keeps_ret
    | apply within_throw
    | apply within_get_dom; intros ? ?
    | apply within_get_intervals; intros ? ?
    | apply within_deref; intros ? ?
    | apply within_addEventListener
    | apply within_state_only; by intros ?
    | apply keeps_forEach; intros ? ?
    | apply keeps_if
    | apply keeps_bind; [|intros ?]
    | apply keeps_get ].

Ltac class_ok := apply script_classes_elem; tauto.

(** *** preloader *)

Lemma increment_within : keeps (writes_within old env d0 Preloader) (increment env).
Proof.
  unfold increment. repeat within_step.
  apply within_style. by apply own_preloader_progress.
Qed.

Lemma preloader_init_within : keeps (writes_within old env d0 Preloader) (preloader_init env).
Proof.
  unfold preloader_init, preloader_count_images, preloader_count_css_js.
  repeat first [apply increment_within | within_step].
  apply within_style. by apply own_preloader_progress.
Qed.

Lemma preloader_fade_within : keeps (writes_within old env d0 Preloader) (preloader_fade env).
Proof.
  unfold preloader_fade. repeat within_step.
  - apply within_add; [class_ok|]. by apply own_preloader_loader.
  - apply within_style. apply own_preloader_body.
    by rewrite <- (script_variant_document_body d0 d).
Qed.

(** *** mobileMenu *)

Lemma mobileMenu_toggle_within : keeps (writes_within old env d0 MobileMenu) (mobileMenu_toggle env).
Proof.
  unfold mobileMenu_toggle. repeat within_step.
  - apply within_toggle; [class_ok|]. by apply own_menu_hamburger.
  - apply within_toggle; [class_ok|]. by apply own_menu_navLinks.
  - apply within_toggle; [class_ok|]. apply own_menu_body.
    by rewrite <- (script_variant_document_body d0 d).
Qed.

Lemma mobileMenu_close_within : keeps (writes_within old env d0 MobileMenu) (mobileMenu_close env).
Proof.
  unfold mobileMenu_close. repeat within_step.
  - apply within_remove; [class_ok|]. by apply own_menu_hamburger.
  - apply within_remove; [class_ok|]. by apply own_menu_navLinks.
  - apply within_remove; [class_ok|]. apply own_menu_body.
    by rewrite <- (script_variant_document_body d0 d).
Qed.

Lemma mobileMenu_init_within : keeps (writes_within old env d0 MobileMenu) (mobileMenu_init env).
Proof. unfold mobileMenu_init. repeat within_step. Qed.

(** *** themeSwitcher *)

Lemma toggleTheme_within : keeps (writes_within old env d0 ThemeSwitcher) (toggleTheme env).
Proof.
  unfold toggleTheme. repeat within_step.
  - apply within_write_el; [|intros e e'; apply script_variant_data_theme].
    apply own_theme_root. by rewrite <- (script_variant_documentElement d0 d).
  - apply within_setItem, own_theme_storage.
Qed.

Lemma themeSwitcher_init_within :
  keeps (writes_within old env d0 ThemeSwitcher) (themeSwitcher_init env).
Proof.
  unfold themeSwitcher_init, localStorage_getItem. repeat within_step.
  - apply within_write_el; [|intros e e'; apply script_variant_data_theme].
    apply own_theme_root. by rewrite <- (script_variant_documentElement d0 d).
  - apply within_write_el; [|intros e e'; apply script_variant_checked].
    by apply own_theme_toggle.
Qed.
(** *** scrollEffects *)

Lemma setInterval_counter_within (counter : node) (target : jsnum) :
  counter ∈ counterItems env →
  keeps (writes_within old env d0 ScrollEffects) (setInterval_counter counter target).
Proof.
  intros Hc. apply within_set_intervals. intros ivs Hivs. apply Forall_app. split; [done|].
  by apply Forall_singleton.
Qed.

Lemma animateCounters_within :
  keeps (writes_within old env d0 ScrollEffects) (animateCounters parseInt env).
Proof.
  unfold animateCounters, classList_contains. repeat within_step.
  - apply within_add; [class_ok|]. by apply own_scroll_counter_class.
  - by apply setInterval_counter_within.
Qed.

Lemma handleScroll_within : keeps (writes_within old env d0 ScrollEffects) (handleScroll parseInt env).
Proof.
  unfold handleScroll. repeat first [apply animateCounters_within | within_step].
  - apply within_add; [class_ok|]. by apply own_scroll_header.
  - apply within_remove; [class_ok|]. by apply own_scroll_header.
  - apply within_add; [class_ok|]. by apply own_scroll_backToTop.
  - apply within_remove; [class_ok|]. by apply own_scroll_backToTop.
Qed.

Lemma scrollEffects_init_within :
  keeps (writes_within old env d0 ScrollEffects) (scrollEffects_init parseInt env).
Proof.
  unfold scrollEffects_init, setupSmoothScroll. repeat first [apply handleScroll_within | within_step].
Qed.

Lemma smoothScroll_click_within (link : node) :
  keeps (writes_within old env d0 ScrollEffects) (smoothScroll_click cssQuery link).
Proof.
  unfold smoothScroll_click. apply within_get_dom. intros d Hd.
  destruct (cssQuery _ d) as [[target|]|]; repeat within_step.
Qed.

Lemma interval_tick_within (i : nat) :
  keeps (writes_within old env d0 ScrollEffects) (interval_tick i).
Proof.
  unfold interval_tick. apply within_get_intervals. intros ivs Hivs.
  destruct (ivs !! i) as [iv|] eqn:Hiv; [|apply keeps_ret].
  assert (iv_counter iv ∈ counterItems env) as Hc.
  { eapply Forall_forall in Hivs; [exact Hivs|]. by eapply list_elem_of_lookup_2. }
  destruct (iv_cleared iv); [apply keeps_ret|].
  apply keeps_bind; [|intros _; apply keeps_bind; [|intros _; apply keeps_if]].
  - apply within_set_intervals. intros l Hl. by apply Forall_insert.
  - apply within_write_el; [|intros e e'; apply script_variant_text].
    by apply own_scroll_counter_text.
  - apply within_set_intervals. intros l Hl. by apply Forall_insert.
  - apply keeps_ret.
Qed.

(** *** featureTabs *)

Lemma tab_click_within (btn : node) :
  btn ∈ tabBtns env → keeps (writes_within old env d0 FeatureTabs) (tab_click env btn).
Proof.
  intros Hbtn. unfold tab_click. repeat within_step.
  - apply within_remove; [class_ok|]. by apply own_tabs_btn.
  - apply within_remove; [class_ok|]. by apply own_tabs_pane.
  - apply within_add; [class_ok|]. by apply own_tabs_btn.
  - apply within_add; [class_ok|]. apply (own_tabs_target env d0 btn); [done|].
    unfold tab_target.
    by rewrite <- (script_variant_getAttribute d0 d), <- (script_variant_getElementById d0 d1).
Qed.

Lemma featureTabs_init_within : keeps (writes_within old env d0 FeatureTabs) (featureTabs_init env).
Proof. unfold featureTabs_init. repeat within_step. Qed.

(** *** animations, particlesBackground *)

Lemma animations_init_within : keeps (writes_within old env d0 Animations) animations_init.
Proof. unfold animations_init. repeat within_step. Qed.

Lemma particlesBackground_init_within :
  keeps (writes_within old env d0 ParticlesBackground) particlesBackground_init.
Proof.
  unfold particlesBackground_init. apply within_get_dom. intros d Hd.
  destruct (getElementById _ d); repeat within_step.
Qed.

(** *** activeNavigation *)

(** The element the highlighter finds for a section is one the module
    owns. *)
Lemma nav_link_owned (d : list Element) (s l : node) :
  Forall2 script_variant d0 d → s ∈ sections env →
  querySelector_nav_link cssQuery (section_id d s) d = Some (Some l) →
  LNode l FClass ∈ own_locs env d0 ActiveNavigation.
Proof.
  intros Hd Hs. unfold querySelector_nav_link.
  rewrite (script_variant_section_id d0 d Hd).
  destruct (css_plain (section_id d0 s)) eqn:Hplain.
  - intros [= Hl]. apply (own_nav_link env d0 s); [done|].
    rewrite <- (script_variant_nav_link_of d0 d Hd). unfold nav_link_of.
    by rewrite (script_variant_section_id d0 d Hd).
  - unfold engine_query. destruct (cssQuery _ d) as [[n|]|]; [|done..].
    destruct (bool_decide_reflect (n < length d)) as [Hn|_]; [|done].
    intros [= <-]. apply (own_nav_any env d0 s); [done..|].
    by rewrite <- (script_variant_length d0 d Hd).
Qed.

Lemma highlightNavLink_within :
  keeps (writes_within old env d0 ActiveNavigation) (highlightNavLink cssQuery env).
Proof.
  unfold highlightNavLink. apply keeps_bind; [apply keeps_get|]. intros y.
  apply keeps_forEach. intros s Hs. apply within_get_dom. intros d Hd.
  fold (section_id d s).
  apply keeps_if;
    (destruct (querySelector_nav_link cssQuery (section_id d s) d) as [[l|]|] eqn:Hl;
     [|apply keeps_ret|apply within_throw]).
  - apply within_add; [class_ok|]. by apply (nav_link_owned d s).
  - apply within_remove; [class_ok|]. by apply (nav_link_owned d s).
Qed.

Lemma activeNavigation_init_within :
  keeps (writes_within old env d0 ActiveNavigation) (activeNavigation_init cssQuery env).
Proof.
  unfold activeNavigation_init. repeat first [apply highlightNavLink_within | within_step].
Qed.

(** Every handler writes within its module. *)
Lemma run_handler_within (h : Handler) :
  handler_ok env h →
  keeps (writes_within old env d0 (module_of h)) (run_handler parseInt cssQuery env h).
Proof.
  intros Hok. destruct h; simpl.
  - apply preloader_init_within.
  - apply increment_within.
  - apply preloader_fade_within.
  - apply mobileMenu_init_within.
  - apply mobileMenu_toggle_within.
  - apply mobileMenu_close_within.
  - apply themeSwitcher_init_within.
  - apply toggleTheme_within.
  - apply scrollEffects_init_within.
  - apply handleScroll_within.
  - apply smoothScroll_click_within.
  - apply interval_tick_within.
  - apply featureTabs_init_within.
  - by apply tab_click_within.
  - apply animations_init_within.
  - apply particlesBackground_init_within.
  - apply activeNavigation_init_within.
  - apply highlightNavLink_within.
Qed.

End HandlerWrites.

Lemma footprint_within (parseInt : option string → jsnum)
    (cssQuery : string → list Element → option (option node)) (env : Env) (d0 : list Element)
    (h : Handler) (w : World) :
  handler_ok env h → page_state env d0 w →
  page_state env d0 (exec (run_handler parseInt cssQuery env h) w) ∧
  ∀ l, l ∈ footprint parseInt cssQuery env h w → l ∈ own_locs env d0 (module_of h).
Proof.
  intros Hok Hw. split.
  - apply (keeps_exec (writes_within (writes w) env d0 (module_of h))
             (run_handler parseInt cssQuery env h) w).
    + by apply run_handler_within.
    + split; [done|]. intros l Hl. by left.
  - intros l Hl.
    destruct (keeps_exec (writes_within [] env d0 (module_of h))
                (run_handler parseInt cssQuery env h) (clear_log w)) as [_ Hin].
    + by apply run_handler_within.
    + split; [done|]. by intros l' ?%elem_of_nil.
    + destruct (Hin l Hl) as [?%elem_of_nil|?]; done.
Qed.

Lemma elem_of_LNode_fmap (fc f : Facet) (n : node) (L : list node) :
  LNode n f ∈ (λ n, LNode n fc) <$> L → n ∈ L ∧ f = fc.
Proof. intros (n' & [= -> ->] & Hn)%list_elem_of_fmap. done. Qed.

Lemma not_LStorage_fmap (fc : Facet) (k : string) (L : list node) :
  LStorage k ∉ (λ n, LNode n fc) <$> L.
Proof. by intros (n' & [=] & _)%list_elem_of_fmap. Qed.

Lemma own_locs_node (env : Env) (d0 : list Element) (m : Module) (n : node) (f : Facet) :
  LNode n f ∈ own_locs env d0 m → n ∈ bound_nodes env d0 m.
Proof.
  destruct m; simpl.
  - rewrite !elem_of_app. intros [H|[H|H]]; apply elem_of_LNode_fmap in H as [H _]; auto.
  - by intros [H _]%elem_of_LNode_fmap.
  - rewrite !elem_of_app.
    intros [H|[H|H]]; [apply elem_of_LNode_fmap in H as [H _]; auto..|].
    by apply list_elem_of_singleton in H.
  - rewrite (elem_of_app _ _ (LNode n f)).
    intros [H|H]; apply elem_of_LNode_fmap in H as [H _]; [done|].
    rewrite !elem_of_app. auto.
  - by intros [H _]%elem_of_LNode_fmap.
  - by intros ?%elem_of_nil.
  - by intros ?%elem_of_nil.
  - by intros [H _]%elem_of_LNode_fmap.
Qed.

Lemma own_locs_preloader_facet (env : Env) (d0 : list Element) (n : node) (f : Facet) :
  LNode n f ∈ own_locs env d0 Preloader → f = FStyle ∨ loader env = Some n.
Proof.
  simpl. rewrite !elem_of_app. intros [H|[H|H]]; apply elem_of_LNode_fmap in H as [H Hf]; auto.
  right. destruct (loader env); [|by apply elem_of_nil in H].
  by apply list_elem_of_singleton in H as ->.
Qed.

Lemma own_locs_menu_facet (env : Env) (d0 : list Element) (n : node) (f : Facet) :
  LNode n f ∈ own_locs env d0 MobileMenu → f = FClass.
Proof. by intros [_ H]%elem_of_LNode_fmap. Qed.

Lemma own_locs_storage (env : Env) (d0 : list Element) (m : Module) (k : string) :
  LStorage k ∈ own_locs env d0 m → m = ThemeSwitcher.
Proof.
  destruct m; simpl; try done; try (by intros ?%not_LStorage_fmap);
    try (by intros ?%elem_of_nil).
  - rewrite !elem_of_app. by intros [?%not_LStorage_fmap|[?%not_LStorage_fmap|?%not_LStorage_fmap]].
  - rewrite (elem_of_app _ _ (LStorage k)). by intros [?%not_LStorage_fmap|?%not_LStorage_fmap].
Qed.

(** Two locations of one node owned by two modules: the body, its style
    by the preloader and its class by the mobile menu. *)
Lemma own_locs_shared_node (env : Env) (d0 : list Element) (m1 m2 : Module) (n : node)
    (f1 f2 : Facet) :
  modules_apart env d0 → m1 ≠ m2 →
  LNode n f1 ∈ own_locs env d0 m1 → LNode n f2 ∈ own_locs env d0 m2 →
  document_body d0 = Some n ∧
  ((m1 = Preloader ∧ f1 = FStyle ∧ m2 = MobileMenu ∧ f2 = FClass) ∨
   (m1 = MobileMenu ∧ f1 = FClass ∧ m2 = Preloader ∧ f2 = FStyle)).
Proof.
  intros [Hapart Hloader] Hne H1 H2.
  destruct (Hapart m1 m2 n Hne (own_locs_node _ _ _ _ _ H1) (own_locs_node _ _ _ _ _ H2))
    as [Hbody [[-> ->]|[-> ->]]]; (split; [done|]).
  - left. apply own_locs_menu_facet in H2. apply own_locs_preloader_facet in H1 as [?|Hl]; [done|].
    by destruct (Hloader n Hbody).
  - right. apply own_locs_menu_facet in H1. apply own_locs_preloader_facet in H2 as [?|Hl]; [done|].
    by destruct (Hloader n Hbody).
Qed.

(** C8, as the code has it.  On a page whose markup keeps the modules apart
    (an element looked up by two modules is the body, looked up by the
    preloader and the mobile menu), two handlers of different modules, run
    in any two states of the page, write no common location: no common
    storage key and no common facet of a node.  The one node that two
    modules write is the body: its inline style by the preloader, its class
    list by the mobile menu.  Every handler leaves the page in such a
    state. *)
Theorem footprints_apart (parseInt : option string → jsnum)
    (cssQuery : string → list Element → option (option node)) (env : Env) (d0 : list Element)
    (w1 w2 : World) (h1 h2 : Handler) :
  modules_apart env d0 →
  page_state env d0 w1 → page_state env d0 w2 →
  handler_ok env h1 → handler_ok env h2 →
  module_of h1 ≠ module_of h2 →
  (∀ l, l ∈ footprint parseInt cssQuery env h1 w1 →
        l ∉ footprint parseInt cssQuery env h2 w2) ∧
  (∀ n f1 f2,
     LNode n f1 ∈ footprint parseInt cssQuery env h1 w1 →
     LNode n f2 ∈ footprint parseInt cssQuery env h2 w2 →
     document_body d0 = Some n ∧
     ((module_of h1 = Preloader ∧ f1 = FStyle ∧ module_of h2 = MobileMenu ∧ f2 = FClass) ∨
      (module_of h1 = MobileMenu ∧ f1 = FClass ∧ module_of h2 = Preloader ∧ f2 = FStyle))) ∧
  page_state env d0 (exec (run_handler parseInt cssQuery env h1) w1).
Proof.
  intros Hapart Hw1 Hw2 Hok1 Hok2 Hne.
  destruct (footprint_within parseInt cssQuery env d0 h1 w1 Hok1 Hw1) as [Hst1 Hin1].
  destruct (footprint_within parseInt cssQuery env d0 h2 w2 Hok2 Hw2) as [_ Hin2].
  split; [|split; [|done]].
  - intros [n f|k] Hl1 Hl2.
    + destruct (own_locs_shared_node env d0 _ _ n f f Hapart Hne (Hin1 _ Hl1) (Hin2 _ Hl2))
        as [_ [(_ & -> & _ & [=])|(_ & -> & _ & [=])]].
    + apply Hne. by rewrite (own_locs_storage _ _ _ _ (Hin1 _ Hl1)),
                            (own_locs_storage _ _ _ _ (Hin2 _ Hl2)).
  - intros n f1 f2 Hl1 Hl2.
    exact (own_locs_shared_node env d0 _ _ n f1 f2 Hapart Hne (Hin1 _ Hl1) (Hin2 _ Hl2)).
Qed.

Lemma sample_modules_apart : modules_apart sample_env sample_page.
Proof.
  split.
  - intros m1 m2 n Hne H1 H2.
    destruct m1, m2; try done; vm_compute in H1, H2;
      repeat match goal with
             | H : list_elem_of _ (_ :: _) |- _ => apply elem_of_cons in H as [?|H]
             | H : _ ∈ _ :: _ |- _ => apply elem_of_cons in H as [?|H]
             | H : list_elem_of _ [] |- _ => by apply elem_of_nil in H
             | H : _ ∈ [] |- _ => by apply elem_of_nil in H
             end;
      subst; try discriminate; (split; [reflexivity|auto]).
  - intros b [= <-]. vm_compute. discriminate.
Qed.

Lemma footprints_apart_witness :
  let fp := footprint sample_parseInt (λ _ _, Some None) sample_env in
  (∀ l, l ∈ fp HFade sample_world → l ∉ fp HMenuToggle sample_world) ∧
  (∀ n f1 f2,
     LNode n f1 ∈ fp HFade sample_world →
     LNode n f2 ∈ fp HMenuToggle sample_world →
     document_body sample_page = Some n ∧
     ((module_of HFade = Preloader ∧ f1 = FStyle ∧ module_of HMenuToggle = MobileMenu ∧ f2 = FClass) ∨
      (module_of HFade = MobileMenu ∧ f1 = FClass ∧ module_of HMenuToggle = Preloader ∧ f2 = FStyle))) ∧
  page_state sample_env sample_page
    (exec (run_handler sample_parseInt (λ _ _, Some None) sample_env HFade) sample_world).
Proof.
  apply (footprints_apart sample_parseInt (λ _ _, Some None) sample_env sample_page
           sample_world sample_world HFade HMenuToggle).
  - apply sample_modules_apart.
  - split; [|apply Forall_nil_2]. apply Forall2_same_length_lookup. split; [done|].
    intros i x y Hx Hy. simpl in Hy. rewrite Hx in Hy. injection Hy as <-. apply script_variant_refl.
  - split; [|apply Forall_nil_2]. apply Forall2_same_length_lookup. split; [done|].
    intros i x y Hx Hy. simpl in Hy. rewrite Hx in Hy. injection Hy as <-. apply script_variant_refl.
  - exact I.
  - exact I.
  - discriminate.
Defined.

(** The claim's "no DOM node is mutated by more than one module" fails on the
    sample page: the timeout callback of the preloader sets the overflow
    style of the body, and the click handler of the mobile menu toggles a
    class of the body. *)
Lemma body_written_by_two_modules :
  let fp := footprint sample_parseInt (λ _ _, Some None) sample_env in
  module_of HFade ≠ module_of HMenuToggle ∧
  document_body sample_page = Some 1 ∧
  ¬ (∀ n f1 f2, LNode n f1 ∈ fp HFade sample_world → LNode n f2 ∉ fp HMenuToggle sample_world).
Proof.
  split; [discriminate|]. split; [reflexivity|].
  intros H. apply (H 1 FStyle FClass); vm_compute.
  - apply list_elem_of_further, list_elem_of_here.
  - do 2 apply list_elem_of_further. apply list_elem_of_here.
Qed.

(** ** Further properties of the handlers and of the start-up *)

Lemma animateCounters_unfold (parseInt : option string → jsnum) (env : Env) :
  animateCounters parseInt env = forEach (counterItems env) (counter_step parseInt).
Proof. reflexivity. Qed.

Lemma counter_step_cases (parseInt : option string → jsnum) (x : node) (w : World) :
  ∃ w1, counter_step parseInt x w = (Ok tt, w1) ∧
        window w1 = window w ∧ length (dom w1) = length (dom w) ∧
        (∀ n c, has_class (dom w1) n c =
                has_class (dom w) n c
                || (bool_decide (n = x) && bool_decide (c = "animated") && in_view w x
                    && bool_decide (x < length (dom w)))) ∧
        (∀ n, started n w1 =
              started n w + (if bool_decide (n = x) && in_view w x
                                && negb (has_class (dom w) x "animated") then 1 else 0)).
Proof.
  destruct (in_view w x && negb (has_class (dom w) x "animated")) eqn:Hstart.
  - apply andb_true_iff in Hstart as [Hv Hnot]. pose proof Hv as Hv'.
    apply bool_decide_eq_true in Hv'. apply negb_true_iff in Hnot.
    eexists. split; [by apply counter_step_starts|]. simpl.
    split; [done|]. split; [apply length_alter|]. split.
    + intros n c. rewrite has_class_add, Hv. by rewrite andb_true_r.
    + intros n. rewrite started_setInterval. simpl.
      change (started n (log_write _ (set_dom _ w))) with (started n w).
      rewrite Hv, Hnot, andb_true_r. simpl.
      destruct (decide (x = n)) as [->|Hne].
      * by rewrite bool_decide_eq_true_2.
      * by rewrite bool_decide_eq_false_2 by congruence.
  - exists w. split; [by apply counter_step_skips|]. split; [done|]. split; [done|]. split.
    + intros n c. destruct (bool_decide_reflect (n = x)) as [->|_]; simpl; [|by rewrite orb_false_r].
      destruct (bool_decide_reflect (c = "animated")) as [->|_]; simpl; [|by rewrite orb_false_r].
      apply andb_false_iff in Hstart as [->|Hnot]; simpl; [by rewrite orb_false_r|].
      apply negb_false_iff in Hnot. by rewrite Hnot.
    + intros n. rewrite <- andb_assoc, Hstart, andb_false_r. lia.
Qed.

Lemma bool_decide_elem_cons (c x : node) (L : list node) :
  bool_decide (c ∈ x :: L) = bool_decide (c = x) || bool_decide (c ∈ L).
Proof.
  apply eq_true_iff_eq. rewrite orb_true_iff, !bool_decide_eq_true. apply elem_of_cons.
Qed.

(** What the loop over the counters does to one counter of the document. *)
Lemma counter_loop (parseInt : option string → jsnum) (c : node) (L : list node) :
  ∀ w, c < length (dom w) →
  ∃ w', forEach L (counter_step parseInt) w = (Ok tt, w') ∧
        window w' = window w ∧ length (dom w') = length (dom w) ∧
        (∀ n cl, cl ≠ "animated" → has_class (dom w') n cl = has_class (dom w) n cl) ∧
        has_class (dom w') c "animated"
          = has_class (dom w) c "animated" || (bool_decide (c ∈ L) && in_view w c) ∧
        started c w'
          = started c w + (if bool_decide (c ∈ L) && in_view w c
                              && negb (has_class (dom w) c "animated") then 1 else 0).
Proof.
  induction L as [|x L IH]; intros w Hc.
  { exists w. split; [done|]. split; [done|]. split; [done|]. split; [done|]. simpl.
    split; [by rewrite orb_false_r|lia]. }
  destruct (counter_step_cases parseInt x w) as (w1 & Hstep & Hwin & Hlen & Hcl & Hst).
  destruct (IH w1) as (w' & Hrun & Hwin' & Hlen' & Hcl' & Han' & Hst'); [by rewrite Hlen|].
  exists w'. cbn [forEach]. rewrite (bind_Ok _ _ w w1 tt Hstep).
  split; [done|]. split; [congruence|]. split; [congruence|].
  assert (in_view w1 c = in_view w c) as Hv by (unfold in_view; by rewrite Hwin).
  split; [|split].
  - intros n cl Hne. rewrite Hcl' by done. rewrite Hcl.
    rewrite (bool_decide_eq_false_2 (cl = "animated")) by done.
    by rewrite andb_false_r, orb_false_r.
  - rewrite Han', Hcl, Hv, bool_decide_elem_cons.
    rewrite (bool_decide_eq_true_2 ("animated" = "animated")) by done.
    destruct (bool_decide_reflect (c = x)) as [<-|_]; simpl.
    + rewrite (bool_decide_eq_true_2 (c < length (dom w))) by done.
      by destruct (has_class (dom w) c "animated"), (in_view w c), (bool_decide (c ∈ L)).
    + by rewrite orb_false_r.
  - rewrite Hst', Hst, Hcl, Hv, bool_decide_elem_cons.
    rewrite (bool_decide_eq_true_2 ("animated" = "animated")) by done.
    destruct (bool_decide_reflect (c = x)) as [<-|_]; simpl.
    + rewrite (bool_decide_eq_true_2 (c < length (dom w))) by done.
      destruct (has_class (dom w) c "animated"), (in_view w c), (bool_decide (c ∈ L)); simpl; lia.
    + rewrite orb_false_r. lia.
Qed.

Lemma classList_add_frame (n : node) (c : string) (w : World) :
  let w' := exec (classList_add n c) w in
  window w' = window w ∧ intervals w' = intervals w ∧ length (dom w') = length (dom w) ∧
  ∀ m cl, cl ≠ c → has_class (dom w') m cl = has_class (dom w) m cl.
Proof.
  simpl. split; [done|]. split; [done|]. split; [apply length_alter|].
  intros m cl Hne. unfold exec. simpl. rewrite has_class_add.
  rewrite (bool_decide_eq_false_2 (cl = c)) by done. by rewrite andb_false_r, orb_false_r.
Qed.

Lemma classList_remove_frame (n : node) (c : string) (w : World) :
  let w' := exec (classList_remove n c) w in
  window w' = window w ∧ intervals w' = intervals w ∧ length (dom w') = length (dom w) ∧
  ∀ m cl, cl ≠ c → has_class (dom w') m cl = has_class (dom w) m cl.
Proof.
  simpl. split; [done|]. split; [done|]. split; [apply length_alter|].
  intros m cl Hne. unfold exec. simpl. rewrite has_class_remove.
  rewrite (bool_decide_eq_false_2 (cl = c)) by done. by rewrite andb_false_r, andb_true_r.
Qed.

(** Setting a flag of an element by the sign of a test, as [handleScroll]
    does for the header and for the back-to-top button. *)
Lemma flag_set_effect (test : bool) (n : node) (c : string) (w : World) :
  let w' := exec (if test then classList_add n c else classList_remove n c) w in
  window w' = window w ∧ intervals w' = intervals w ∧ length (dom w') = length (dom w) ∧
  (∀ m cl, cl ≠ c → has_class (dom w') m cl = has_class (dom w) m cl) ∧
  (n < length (dom w) → has_class (dom w') n c = test).
Proof.
  destruct test; simpl.
  - destruct (classList_add_frame n c w) as (? & ? & ? & ?). repeat split; try done.
    intros Hn. unfold exec. simpl. rewrite has_class_add.
    rewrite !bool_decide_eq_true_2 by done. apply orb_true_r.
  - destruct (classList_remove_frame n c w) as (? & ? & ? & ?). repeat split; try done.
    intros Hn. unfold exec. simpl. rewrite has_class_remove.
    rewrite !bool_decide_eq_true_2 by done. apply andb_false_r.
Qed.

(** The run of [handleScroll] when the header and the button exist. *)
Lemma handleScroll_run (parseInt : option string → jsnum) (env : Env) (w : World) (h b : node) :
  header env = Some h → backToTopBtn env = Some b →
  let y := scrollY (window w) in
  let w1 := exec (if bool_decide (50 < y)%Z
                  then classList_add h "scrolled" else classList_remove h "scrolled") w in
  let w2 := exec (if bool_decide (500 < y)%Z
                  then classList_add b "active" else classList_remove b "active") w1 in
  handleScroll parseInt env w = forEach (counterItems env) (counter_step parseInt) w2.
Proof.
  intros Hh Hb y w1 w2. unfold handleScroll.
  rewrite (bind_Ok _ _ w w (scrollY (window w))) by done. fold y.
  rewrite (bind_Ok _ _ w w1 tt).
  2:{ subst w1. rewrite Hh. by destruct (bool_decide (50 < y)%Z). }
  rewrite (bind_Ok _ _ w1 w2 tt).
  2:{ subst w2. rewrite Hb. by destruct (bool_decide (500 < y)%Z). }
  done.
Qed.

(** X2. With the header and the back-to-top button present, a scroll handler
    run returns; afterwards a counter carries 'animated' exactly when it did
    before or its top is above the bottom of the window, and an interval is
    started for it exactly when it is in view and was not marked. *)
Theorem handleScroll_counter (parseInt : option string → jsnum) (env : Env) (w : World)
    (h b c : node) :
  header env = Some h → backToTopBtn env = Some b →
  c ∈ counterItems env → c < length (dom w) →
  let visible := bool_decide (rectTop (window w) c < innerHeight (window w))%Z in
  let w' := exec (handleScroll parseInt env) w in
  outcome (handleScroll parseInt env) w = Ok tt ∧
  has_class (dom w') c "animated" = has_class (dom w) c "animated" || visible ∧
  started c w' = started c w + (if visible && negb (has_class (dom w) c "animated") then 1 else 0).
Proof.
  intros Hh Hb Hc Hlt visible w'. subst w' visible. unfold exec, outcome.
  rewrite (handleScroll_run parseInt env w h b Hh Hb).
  destruct (flag_set_effect (bool_decide (50 < scrollY (window w))%Z) h "scrolled" w)
    as (Hwin1 & Hiv1 & Hlen1 & Hcl1 & _).
  set (w1 := exec _ w) in *.
  destruct (flag_set_effect (bool_decide (500 < scrollY (window w))%Z) b "active" w1)
    as (Hwin2 & Hiv2 & Hlen2 & Hcl2 & _).
  set (w2 := exec _ w1) in *.
  destruct (counter_loop parseInt c (counterItems env) w2) as (w' & Hrun & _ & _ & _ & Han' & Hst');
    [by rewrite Hlen2, Hlen1|].
  rewrite Hrun. simpl. split; [done|].
  rewrite Han', Hst', Hcl2, Hcl1 by done. unfold in_view.
  rewrite Hwin2, Hwin1, (bool_decide_eq_true_2 (c ∈ _)) by done.
  simpl. split; [done|]. unfold started. by rewrite Hiv2, Hiv1.
Qed.

Lemma handleScroll_counter_witness :
  let w := set_window near_window sample_world in
  let visible := bool_decide (rectTop (window w) 16 < innerHeight (window w))%Z in
  let w' := exec (handleScroll sample_parseInt sample_env) w in
  outcome (handleScroll sample_parseInt sample_env) w = Ok tt ∧
  has_class (dom w') 16 "animated" = has_class (dom w) 16 "animated" || visible ∧
  started 16 w' = started 16 w + (if visible && negb (has_class (dom w) 16 "animated") then 1 else 0).
Proof.
  apply (handleScroll_counter sample_parseInt sample_env
           (set_window near_window sample_world) 4 15 16).
  - reflexivity.
  - reflexivity.
  - vm_compute. apply list_elem_of_here.
  - vm_compute. lia.
Defined.

(** X1. After a scroll handler run the header carries 'scrolled' exactly when
    the scroll offset is above 50, and the back-to-top button carries
    'active' exactly when it is above 500, whatever they carried before. *)
Theorem handleScroll_flags (parseInt : option string → jsnum) (env : Env) (w : World) (h b : node) :
  header env = Some h → backToTopBtn env = Some b →
  h < length (dom w) → b < length (dom w) →
  let w' := exec (handleScroll parseInt env) w in
  outcome (handleScroll parseInt env) w = Ok tt ∧
  has_class (dom w') h "scrolled" = bool_decide (50 < scrollY (window w))%Z ∧
  has_class (dom w') b "active" = bool_decide (500 < scrollY (window w))%Z.
Proof.
  intros Hh Hb Hhl Hbl w'. subst w'. unfold exec, outcome.
  rewrite (handleScroll_run parseInt env w h b Hh Hb).
  destruct (flag_set_effect (bool_decide (50 < scrollY (window w))%Z) h "scrolled" w)
    as (Hwin1 & Hiv1 & Hlen1 & Hcl1 & Hset1).
  set (w1 := exec _ w) in *.
  destruct (flag_set_effect (bool_decide (500 < scrollY (window w))%Z) b "active" w1)
    as (Hwin2 & Hiv2 & Hlen2 & Hcl2 & Hset2).
  set (w2 := exec _ w1) in *.
  destruct (counter_loop parseInt 0 (counterItems env) w2) as (w' & Hrun & _ & _ & Hcl & _).
  { rewrite Hlen2, Hlen1. lia. }
  rewrite Hrun. simpl. split; [done|]. rewrite !Hcl by done. split.
  - rewrite Hcl2 by done. by apply Hset1.
  - apply Hset2. by rewrite Hlen1.
Qed.

Lemma handleScroll_flags_witness :
  let w := load sample_page ∅ (mkWindow 120 800 (λ _, 1000%Z)) in
  let w' := exec (handleScroll sample_parseInt sample_env) w in
  outcome (handleScroll sample_parseInt sample_env) w = Ok tt ∧
  has_class (dom w') 4 "scrolled" = bool_decide (50 < 120)%Z ∧
  has_class (dom w') 15 "active" = bool_decide (500 < 120)%Z.
Proof.
  apply (handleScroll_flags sample_parseInt sample_env
           (load sample_page ∅ (mkWindow 120 800 (λ _, 1000%Z))) 4 15).
  - reflexivity.
  - reflexivity.
  - vm_compute. lia.
  - vm_compute. lia.
Defined.

(** X6. A click on a navigation link leaves the menu closed, whatever its
    state was: 'active' is off the icon and the panel, 'menu-open' is off the
    body, and no other class membership of any element changes: not another
    class of these three elements, and no class of another element. *)
Theorem mobileMenu_close_closes (env : Env) (w : World) (h l b : node) :
  hamburger env = Some h → navLinks env = Some l → document_body (dom w) = Some b →
  let w' := exec (mobileMenu_close env) w in
  outcome (mobileMenu_close env) w = Ok tt ∧
  has_class (dom w') h "active" = false ∧
  has_class (dom w') l "active" = false ∧
  has_class (dom w') b "menu-open" = false ∧
  (∀ n c, (n, c) ∉ [(h, "active"); (l, "active"); (b, "menu-open")] →
          has_class (dom w') n c = has_class (dom w) n c).
Proof.
  intros Hh Hl Hb. unfold mobileMenu_close. munfold. rewrite Hh, Hl. simpl.
  unfold document_body in *. rewrite !querySelector_alter by done. rewrite Hb. simpl.
  split; [done|]. split; [|split; [|split]].
  - rewrite !has_class_remove, (bool_decide_eq_true_2 (h = h)) by done.
    rewrite (bool_decide_eq_true_2 ("active" = "active")) by done. simpl.
    by rewrite andb_false_r.
  - rewrite !has_class_remove, (bool_decide_eq_true_2 (l = l)) by done.
    rewrite (bool_decide_eq_true_2 ("active" = "active")) by done. simpl.
    by rewrite !andb_false_r.
  - rewrite !has_class_remove, (bool_decide_eq_true_2 (b = b)) by done.
    rewrite (bool_decide_eq_true_2 ("menu-open" = "menu-open")) by done. simpl.
    by rewrite !andb_false_r.
  - intros n c Hnc. rewrite !has_class_remove.
    rewrite !elem_of_cons, elem_of_nil in Hnc.
    assert (bool_decide (n = h) && bool_decide (c = "active") = false) as ->.
    { apply andb_false_iff. rewrite !bool_decide_eq_false. apply not_and_l.
      intros [-> ->]. apply Hnc. by left. }
    assert (bool_decide (n = l) && bool_decide (c = "active") = false) as ->.
    { apply andb_false_iff. rewrite !bool_decide_eq_false. apply not_and_l.
      intros [-> ->]. apply Hnc. right. by left. }
    assert (bool_decide (n = b) && bool_decide (c = "menu-open") = false) as ->.
    { apply andb_false_iff. rewrite !bool_decide_eq_false. apply not_and_l.
      intros [-> ->]. apply Hnc. right. right. by left. }
    by rewrite !andb_true_r.
Qed.

Lemma mobileMenu_close_closes_witness :
  let w := exec (mobileMenu_toggle sample_env) sample_world in
  let w' := exec (mobileMenu_close sample_env) w in
  outcome (mobileMenu_close sample_env) w = Ok tt ∧
  has_class (dom w') 6 "active" = false ∧
  has_class (dom w') 7 "active" = false ∧
  has_class (dom w') 1 "menu-open" = false ∧
  (∀ n c, (n, c) ∉ [(6, "active"); (7, "active"); (1, "menu-open")] →
          has_class (dom w') n c = has_class (dom w) n c).
Proof.
  apply (mobileMenu_close_closes sample_env
           (exec (mobileMenu_toggle sample_env) sample_world) 6 7 1).
  - reflexivity.
  - reflexivity.
  - reflexivity.
Defined.

(** X7. One click on the menu button flips each of the three memberships,
    the icon and the panel being different elements. *)
Theorem mobileMenu_toggle_flips (env : Env) (w : World) (h l b : node) :
  hamburger env = Some h → navLinks env = Some l → document_body (dom w) = Some b →
  h ≠ l → h < length (dom w) → l < length (dom w) →
  let w' := exec (mobileMenu_toggle env) w in
  has_class (dom w') h "active" = negb (has_class (dom w) h "active") ∧
  has_class (dom w') l "active" = negb (has_class (dom w) l "active") ∧
  has_class (dom w') b "menu-open" = negb (has_class (dom w) b "menu-open").
Proof.
  intros Hh Hl Hb Hne Hhl Hll. simpl. rewrite !mobileMenu_toggle_has_class.
  unfold menu_flips. rewrite Hh, Hl, Hb.
  assert (b < length (dom w)) as Hbl.
  { apply querySelector_Some in Hb as (e & He & _). by eapply lookup_lt_Some. }
  rewrite !(bool_decide_eq_true_2 (_ < _)) by done.
  rewrite !(bool_decide_eq_true_2 (_ = _ :> node)) by done.
  rewrite (bool_decide_eq_false_2 (h = l)), (bool_decide_eq_false_2 (l = h)) by congruence.
  rewrite (bool_decide_eq_false_2 ("active" = "menu-open")) by done.
  rewrite (bool_decide_eq_false_2 ("menu-open" = "active")) by done.
  rewrite !(bool_decide_eq_true_2 (_ = _ :> string)) by done.
  rewrite !andb_false_r, !andb_true_r. simpl. rewrite !xorb_false_r, ?xorb_false_l.
  rewrite (bool_decide_eq_true_2 (l = l)), (bool_decide_eq_true_2 (b = b)) by done.
  by destruct (has_class (dom w) h "active"), (has_class (dom w) l "active"),
       (has_class (dom w) b "menu-open").
Qed.

Lemma mobileMenu_toggle_flips_witness :
  let w := sample_world in
  let w' := exec (mobileMenu_toggle sample_env) w in
  has_class (dom w') 6 "active" = negb (has_class (dom w) 6 "active") ∧
  has_class (dom w') 7 "active" = negb (has_class (dom w) 7 "active") ∧
  has_class (dom w') 1 "menu-open" = negb (has_class (dom w) 1 "menu-open").
Proof.
  apply (mobileMenu_toggle_flips sample_env sample_world 6 7 1).
  - reflexivity.
  - reflexivity.
  - reflexivity.
  - lia.
  - vm_compute. lia.
  - vm_compute. lia.
Defined.

(** X3. Without the header the scroll handler throws before it changes
    anything.  With the header but without the back-to-top button it throws
    after the header update: the header carries 'scrolled' exactly when the
    scroll offset is above 50, no other class membership changes (no
    counter is marked), and no interval starts. *)
Theorem handleScroll_missing_element (parseInt : option string → jsnum) (env : Env) (w : World) :
  (header env = None → handleScroll parseInt env w = (Thrown, w)) ∧
  (∀ h, header env = Some h → backToTopBtn env = None →
     let w' := exec (handleScroll parseInt env) w in
     outcome (handleScroll parseInt env) w = Thrown ∧
     (h < length (dom w) →
      has_class (dom w') h "scrolled" = bool_decide (50 < scrollY (window w))%Z) ∧
     (∀ n c, (n, c) ≠ (h, "scrolled") → has_class (dom w') n c = has_class (dom w) n c) ∧
     intervals w' = intervals w).
Proof.
  split.
  - intros Hh. unfold handleScroll. rewrite (bind_Ok _ _ w w (scrollY (window w))) by done.
    apply bind_Thrown. rewrite Hh. by destruct (bool_decide _).
  - intros h Hh Hb. unfold handleScroll, exec, outcome.
    rewrite (bind_Ok _ _ w w (scrollY (window w))) by done.
    set (test := bool_decide (50 < scrollY (window w))%Z).
    set (w1 := exec (if test then classList_add h "scrolled" else classList_remove h "scrolled") w).
    rewrite (bind_Ok _ _ w w1 tt).
    2:{ subst w1. rewrite Hh. by destruct test. }
    rewrite (bind_Thrown _ _ w1 w1).
    2:{ rewrite Hb. destruct (bool_decide (500 < scrollY (window w))%Z); reflexivity. }
    destruct (flag_set_effect test h "scrolled" w) as (_ & Hiv & _ & Hcl & Hset).
    fold w1 in Hiv, Hcl, Hset.
    simpl. split; [done|]. split; [done|]. split; [|done].
    intros n c Hnc. destruct (decide (c = "scrolled")) as [->|Hc]; [|by apply Hcl].
    assert (n ≠ h) as Hn by congruence.
    subst w1. unfold exec. destruct test; simpl.
    + rewrite has_class_add, (bool_decide_eq_false_2 (n = h)) by done. apply orb_false_r.
    + rewrite has_class_remove, (bool_decide_eq_false_2 (n = h)) by done. apply andb_true_r.
Qed.

Lemma handleScroll_missing_element_witness :
  let env := capture buttonless_page in
  let w := load buttonless_page ∅ (mkWindow 600 800 (λ _, 100%Z)) in
  let w' := exec (handleScroll sample_parseInt env) w in
  outcome (handleScroll sample_parseInt env) w = Thrown ∧
  (2 < length (dom w) → has_class (dom w') 2 "scrolled" = bool_decide (50 < 600)%Z) ∧
  (∀ n c, (n, c) ≠ (2, "scrolled") → has_class (dom w') n c = has_class (dom w) n c) ∧
  intervals w' = intervals w.
Proof.
  apply (proj2 (handleScroll_missing_element sample_parseInt (capture buttonless_page)
                  (load buttonless_page ∅ (mkWindow 600 800 (λ _, 100%Z)))) 2).
  - reflexivity.
  - reflexivity.
Defined.

(** X4. For a target T >= 1 the period is at least 10 ms.  Up to T = 200 the
    T firings take at most the 2000 ms of [duration], and more than
    2000 - T; above 200 the period is 10 ms and they take more than
    2000 ms. *)
Theorem tick_period_duration (T : Z) :
  (1 ≤ T)%Z →
  ∃ p, tick_period 2000 (Num T) = Num p ∧ (10 ≤ p)%Z ∧
       ((T ≤ 200)%Z → (2000 - T < T * p ≤ 2000)%Z) ∧
       ((200 < T)%Z → p = 10%Z ∧ (2000 < T * p)%Z).
Proof.
  intros HT. exists (Z.max (2000 `div` T) 10). unfold tick_period.
  rewrite bool_decide_eq_false_2 by lia. split; [done|]. split; [lia|].
  pose proof (Z.mul_div_le 2000 T ltac:(lia)) as Hle.
  pose proof (Z.mul_succ_div_gt 2000 T ltac:(lia)) as Hgt.
  split.
  - intros H200. assert (10 ≤ 2000 `div` T)%Z as Hq by (apply Z.div_le_lower_bound; lia).
    rewrite Z.max_l by lia. lia.
  - intros H200. assert (2000 `div` T < 10)%Z as Hq by (apply Z.div_lt_upper_bound; lia).
    rewrite Z.max_r by lia. lia.
Qed.

Lemma tick_period_duration_witness :
  ∃ p, tick_period 2000 (Num 3) = Num p ∧ (10 ≤ p)%Z ∧
       ((3 ≤ 200)%Z → (2000 - 3 < 3 * p ≤ 2000)%Z) ∧
       ((200 < 3)%Z → p = 10%Z ∧ (2000 < 3 * p)%Z).
Proof.
  apply (tick_period_duration 3). lia.
Defined.

(** A cleared interval does not fire. *)
Lemma ticks_after_clear (i : nat) (w : World) (iv : Interval) (k : nat) :
  intervals w !! i = Some iv → iv_cleared iv = true → ticks k i w = w.
Proof.
  intros Hiv Hc. induction k as [|k IH]; [done|].
  rewrite ticks_S, (interval_tick_cleared i w iv) by done. exact IH.
Qed.

Lemma ticks_add (a b i : nat) (w : World) : ticks (a + b) i w = ticks a i (ticks b i w).
Proof. unfold ticks. apply Nat.iter_add. Qed.

(** X5. Once the counter has reached its target T the interval is cleared for
    good: any number of firings from the T-th on leaves the state of the
    T-th, with T displayed. *)
Theorem counter_animation_stays_at_target (parseInt : option string → jsnum) (w : World)
    (counter : node) (T : Z) (k : nat) :
  (1 ≤ T)%Z →
  counter < length (dom w) →
  parseInt (getAttribute (dom w) counter "data-target") = Num T →
  (rectTop (window w) counter < innerHeight (window w))%Z →
  has_class (dom w) counter "animated" = false →
  Z.to_nat T ≤ k →
  let w0 := exec (counter_step parseInt counter) w in
  let i := length (intervals w) in
  ticks k i w0 = ticks (Z.to_nat T) i w0 ∧
  textContent_of (dom (ticks k i w0)) counter = pretty T.
Proof.
  intros HT Hc Hparse Hpos Han Hk w0 i.
  destruct (counter_step_starts_interval parseInt counter w Hpos Han) as [Hiv Hlen].
  rewrite Hparse in Hiv. fold w0 i in Hiv, Hlen.
  destruct (Z.to_nat T) as [|n] eqn:Hn; [lia|].
  destruct (ticks_running i counter (Num T) (tick_period 2000 (Num T)) 0 n w0 Hiv) as (H1 & H2 & _).
  { intros j Hj. simpl. apply bool_decide_eq_false_2. lia. }
  { by rewrite Hlen. }
  assert (ticks k i w0 = ticks (S n) i w0) as ->.
  { replace k with ((k - S n) + S n) by lia. rewrite ticks_add.
    eapply ticks_after_clear; [exact H1|]. simpl. apply bool_decide_eq_true_2. lia. }
  split; [done|]. rewrite H2. f_equal. lia.
Qed.

Lemma counter_animation_stays_at_target_witness :
  let w := set_window near_window sample_world in
  let w0 := exec (counter_step sample_parseInt 16) w in
  let i := length (intervals w) in
  ticks 7 i w0 = ticks (Z.to_nat 3) i w0 ∧
  textContent_of (dom (ticks 7 i w0)) 16 = pretty 3%Z.
Proof.
  apply (counter_animation_stays_at_target sample_parseInt
           (set_window near_window sample_world) 16 3 7).
  - lia.
  - vm_compute. lia.
  - reflexivity.
  - reflexivity.
  - reflexivity.
  - vm_compute. lia.
Defined.

(** X10. The listeners stay on the images: after [init], every load or error
    event on an image that was still loading adds one to the counter, a
    repeated one too, so the counter can pass the total; every increment at
    or past the total schedules one more timeout, and the bar shows
    loadedCount / totalItems. *)
Theorem preloader_counts_every_event (parseInt : option string → jsnum)
    (cssQuery : string → list Element → option (option node))
    (d : list Element) (st : gmap string string) (v : Window) (p : node)
    (evs : list (node * string)) :
  let env := capture d in
  let N := Z.of_nat (length (document_images d)) in
  let pending := Z.of_nat (length (pending_images d)) in
  progress env = Some p →
  (0 < N)%Z →
  Forall (λ e, e.1 ∈ pending_images d ∧ (e.2 = "load" ∨ e.2 = "error")) evs →
  let w := image_events parseInt cssQuery env evs (exec (preloader_init env) (load d st v)) in
  loadedCount w = (N + 2 - pending + Z.of_nat (length evs))%Z ∧
  totalItems w = (N + 2)%Z ∧
  fadeTimeouts w = Z.to_nat (loadedCount w - totalItems w + 1) ∧
  width_of (dom w) p = Some (Percent (percentage_of (loadedCount w) (totalItems w))).
Proof.
  intros env N pending Hp HN Hevs w.
  assert (p < length d) as Hlt.
  { apply querySelector_Some in Hp as (e & He & _). by eapply lookup_lt_Some. }
  destruct (preloader_init_effect env d st v p Hp Hlt) as (w' & Hrun & Hat & Hls).
  fold N pending in Hat. rewrite bool_decide_eq_false_2 in Hat by lia.
  assert (NoDup (pending_images d)) as Hnd by apply NoDup_filter, matching_from_NoDup.
  pose proof (image_events_effect parseInt cssQuery env d p (pending_images d) evs
                Hp Hlt Hnd Hevs _ w' Hat Hls) as (_ & Htot & Hk & Hf & Hw).
  subst w. unfold exec. rewrite Hrun. simpl.
  assert (pending ≤ N)%Z as Hle.
  { subst N pending. apply inj_le. unfold pending_images. apply length_filter. }
  rewrite Hk. fold N in Htot. rewrite Htot in *.
  split; [lia|]. split; [done|]. split; [rewrite Hf; f_equal; lia|].
  rewrite Hw by lia. do 3 f_equal.
Qed.

Lemma preloader_counts_every_event_witness :
  let env := capture sample_page in
  let w := image_events sample_parseInt (λ _ _, Some None) env
             [(20, "load"); (20, "error"); (20, "load")]
             (exec (preloader_init env) (load sample_page ∅ sample_window)) in
  loadedCount w = (2 + 2 - 1 + 3)%Z ∧
  totalItems w = (2 + 2)%Z ∧
  fadeTimeouts w = Z.to_nat (loadedCount w - totalItems w + 1) ∧
  width_of (dom w) 3 = Some (Percent (percentage_of (loadedCount w) (totalItems w))).
Proof.
  apply (preloader_counts_every_event sample_parseInt (λ _ _, Some None)
           sample_page ∅ sample_window 3 [(20, "load"); (20, "error"); (20, "load")]).
  - reflexivity.
  - vm_compute. reflexivity.
  - apply Forall_cons_2; [split; [vm_compute; apply list_elem_of_here | by left]|].
    apply Forall_cons_2; [split; [vm_compute; apply list_elem_of_here | by right]|].
    apply Forall_cons_2; [split; [vm_compute; apply list_elem_of_here | by left]|].
    apply Forall_nil_2.
Defined.

(** X11. On a page without images [init] makes four increments for a total
    of two: the bar ends at 200%, three timeouts are scheduled and no
    listener is registered. *)
Theorem preloader_no_images_overshoot (d : list Element) (st : gmap string string) (v : Window)
    (p : node) :
  let env := capture d in
  progress env = Some p →
  document_images d = [] →
  let w := exec (preloader_init env) (load d st v) in
  outcome (preloader_init env) (load d st v) = Ok tt ∧
  totalItems w = 2%Z ∧ loadedCount w = 4%Z ∧
  width_of (dom w) p = Some (percent 200) ∧
  fadeTimeouts w = 3 ∧ listeners w = [].
Proof.
  intros env Hp Himgs w.
  assert (p < length d) as Hlt.
  { apply querySelector_Some in Hp as (e & He & _). by eapply lookup_lt_Some. }
  destruct (preloader_init_effect env d st v p Hp Hlt) as (w' & Hrun & Hat & Hls).
  unfold pending_images in Hls. rewrite Himgs in Hat, Hls. simpl in Hat, Hls.
  subst w. unfold outcome, exec. rewrite Hrun. simpl.
  destruct Hat as (_ & Htot & Hk & Hfade & Hw). rewrite Himgs in Htot. simpl in Htot.
  rewrite Htot in Hfade, Hw. split; [done|]. split; [done|]. split; [done|].
  split; [|done]. rewrite Hw by lia. unfold percent. do 2 f_equal.
  all: apply Qc_is_canon; reflexivity.
Qed.

Lemma preloader_no_images_overshoot_witness :
  let env := capture imageless_page in
  let w := exec (preloader_init env) (load imageless_page ∅ sample_window) in
  outcome (preloader_init env) (load imageless_page ∅ sample_window) = Ok tt ∧
  totalItems w = 2%Z ∧ loadedCount w = 4%Z ∧
  width_of (dom w) 3 = Some (percent 200) ∧
  fadeTimeouts w = 3 ∧ listeners w = [].
Proof.
  apply (preloader_no_images_overshoot imageless_page ∅ sample_window 3).
  - reflexivity.
  - reflexivity.
Defined.

Lemma token_add_idemp (c : string) (l : list string) : token_add c (token_add c l) = token_add c l.
Proof.
  unfold token_add at 1. rewrite token_contains_add.
  by rewrite (bool_decide_eq_true_2 (c = c)), orb_true_r by done.
Qed.

Lemma fade_alter_idemp (l b : node) (d : list Element) :
  let A := with_classList (token_add "fade-out") in
  let S := with_style (<["overflow" := Keyword "visible"]>) in
  alter S b (alter A l (alter S b (alter A l d))) = alter S b (alter A l d).
Proof.
  intros A S. apply list_eq. intros i. rewrite !list_lookup_alter.
  assert (∀ e, A (A e) = A e) as HA.
  { intros e. unfold A, with_classList. simpl. by rewrite token_add_idemp. }
  assert (∀ e, S (S e) = S e) as HS.
  { intros e. unfold S, with_style. simpl. by rewrite insert_insert_eq. }
  assert (∀ e, A (S e) = S (A e)) as HAS by done.
  destruct (decide (b = i)) as [->|Hb], (decide (l = i)) as [->|Hl];
    repeat (rewrite ?decide_True, ?decide_False by done; simpl);
    rewrite ?list_lookup_alter_eq, ?list_lookup_alter_ne by done;
    destruct (d !! i) as [e|]; simpl; try done.
  - by rewrite HAS, HA, HS.
  - by rewrite HS.
  - by rewrite HA.
Qed.

(** X12. The timeout callback of the preloader marks the loader 'fade-out'
    and makes the body overflow visible; run a second time it leaves the
    document as it is and calls [AOS.refresh] again. *)
Theorem preloader_fade_idempotent (env : Env) (w : World) (l b : node) :
  loader env = Some l → l < length (dom w) → document_body (dom w) = Some b →
  let w1 := exec (preloader_fade env) w in
  let w2 := exec (preloader_fade env) w1 in
  outcome (preloader_fade env) w = Ok tt ∧ outcome (preloader_fade env) w1 = Ok tt ∧
  has_class (dom w1) l "fade-out" = true ∧
  (∃ e, dom w1 !! b = Some e ∧ style e !! "overflow" = Some (Keyword "visible")) ∧
  dom w2 = dom w1 ∧
  externals w2 = externals w ++ [AOS_refresh; AOS_refresh].
Proof.
  intros Hl Hlt Hb. unfold preloader_fade. munfold. rewrite Hl. simpl.
  unfold document_body in *. rewrite !querySelector_alter by done. rewrite Hb. simpl.
  rewrite !querySelector_alter by done. rewrite Hb. simpl.
  split; [done|]. split; [done|]. split; [|split; [|split]].
  - unfold has_class. destruct (decide (l = b)) as [->|Hne].
    + rewrite list_lookup_alter_eq, list_lookup_alter_eq.
      destruct (lookup_lt_is_Some_2 (dom w) b Hlt) as [e ->]. simpl.
      rewrite token_contains_add, (bool_decide_eq_true_2 ("fade-out" = "fade-out")) by done.
      apply orb_true_r.
    + rewrite list_lookup_alter_ne, list_lookup_alter_eq by congruence.
      destruct (lookup_lt_is_Some_2 (dom w) l Hlt) as [e ->]. simpl.
      rewrite token_contains_add, (bool_decide_eq_true_2 ("fade-out" = "fade-out")) by done.
      apply orb_true_r.
  - apply querySelector_Some in Hb as (e & He & _). rewrite list_lookup_alter_eq.
    destruct (decide (l = b)) as [->|Hne].
    + rewrite list_lookup_alter_eq, He. simpl. eexists. split; [done|]. apply lookup_insert_eq.
    + rewrite list_lookup_alter_ne, He by done. simpl. eexists. split; [done|].
      apply lookup_insert_eq.
  - apply fade_alter_idemp.
  - by rewrite <- app_assoc.
Qed.

Lemma preloader_fade_idempotent_witness :
  let w := sample_world in
  let w1 := exec (preloader_fade sample_env) w in
  let w2 := exec (preloader_fade sample_env) w1 in
  outcome (preloader_fade sample_env) w = Ok tt ∧ outcome (preloader_fade sample_env) w1 = Ok tt ∧
  has_class (dom w1) 2 "fade-out" = true ∧
  (∃ e, dom w1 !! 1 = Some e ∧ style e !! "overflow" = Some (Keyword "visible")) ∧
  dom w2 = dom w1 ∧
  externals w2 = externals w ++ [AOS_refresh; AOS_refresh].
Proof.
  apply (preloader_fade_idempotent sample_env sample_world 2 1).
  - reflexivity.
  - vm_compute. lia.
  - reflexivity.
Defined.

(** X8. [init] does not validate the stored theme: any non-empty stored value
    becomes the root attribute as it is, the control is checked only for
    [dark], and the storage is not written. *)
Theorem themeSwitcher_init_unvalidated (env : Env) (w : World) (t h : node) (v : string) :
  themeToggle env = Some t → t < length (dom w) →
  document_documentElement (dom w) = Some h →
  localStorage w !! "theme" = Some v → v ≠ "" →
  let w' := exec (themeSwitcher_init env) w in
  getAttribute (dom w') h "data-theme" = Some v ∧
  is_checked (dom w') t = bool_decide (v = "dark") ∧
  localStorage w' = localStorage w.
Proof.
  intros Ht Hlt Hh Hst Hv.
  destruct (themeSwitcher_init_effect env w t h Ht Hlt Hh) as (_ & Ha & Hc).
  rewrite Hst in Ha, Hc. simpl in Ha, Hc. rewrite (bool_decide_eq_false_2 (v = "")) in Ha, Hc by done.
  split; [done|]. split; [done|].
  unfold themeSwitcher_init, addEventListener. munfold. simpl. rewrite Hh. simpl.
  rewrite Ht. reflexivity.
Qed.

Lemma themeSwitcher_init_unvalidated_witness :
  let w := load sample_page {[ "theme" := "sepia" ]} sample_window in
  let w' := exec (themeSwitcher_init sample_env) w in
  getAttribute (dom w') 0 "data-theme" = Some "sepia" ∧
  is_checked (dom w') 10 = bool_decide ("sepia" = "dark") ∧
  localStorage w' = localStorage w.
Proof.
  apply (themeSwitcher_init_unvalidated sample_env
           (load sample_page {[ "theme" := "sepia" ]} sample_window) 10 0 "sepia").
  - reflexivity.
  - vm_compute. lia.
  - reflexivity.
  - reflexivity.
  - discriminate.
Defined.

(** X9. After a change event the data-theme attribute of the root and the
    stored preference hold the same name, [dark] for a checked control and
    [light] otherwise; no other storage key changes, no other attribute of
    the root and no attribute of another element changes, and no checkbox
    state changes. *)
Theorem toggleTheme_mirrors (env : Env) (w : World) (t h : node) :
  themeToggle env = Some t →
  document_documentElement (dom w) = Some h →
  let name := if is_checked (dom w) t then "dark" else "light" in
  let w' := exec (toggleTheme env) w in
  getAttribute (dom w') h "data-theme" = Some name ∧
  localStorage w' !! "theme" = Some name ∧
  (∀ k, k ≠ "theme" → localStorage w' !! k = localStorage w !! k) ∧
  (∀ n a, (n, a) ≠ (h, "data-theme") →
          getAttribute (dom w') n a = getAttribute (dom w) n a) ∧
  (∀ n, is_checked (dom w') n = is_checked (dom w) n).
Proof.
  intros Ht Hh. unfold toggleTheme. munfold. rewrite Ht. simpl. rewrite Hh. simpl.
  apply querySelector_Some in Hh as (e & He & _).
  split; [|split; [|split; [|split]]].
  - rewrite getAttribute_alter_attributes, He. simpl.
    rewrite bool_decide_eq_true_2 by done. rewrite lookup_insert_eq.
    by destruct (is_checked (dom w) t).
  - rewrite lookup_insert_eq. by destruct (is_checked (dom w) t).
  - intros k Hk. by rewrite lookup_insert_ne.
  - intros n a Ha. rewrite getAttribute_alter_attributes. unfold getAttribute.
    destruct (dom w !! n) as [e'|]; simpl; [|done].
    destruct (bool_decide_reflect (n = h)) as [->|_]; [|done].
    rewrite lookup_insert_ne; [done|]. intros <-. done.
  - intros n. unfold is_checked. destruct (decide (n = h)) as [->|Hne].
    + rewrite list_lookup_alter_eq, He. done.
    + by rewrite list_lookup_alter_ne.
Qed.

Lemma toggleTheme_mirrors_witness :
  let w := load sample_page {[ "lang" := "fr" ]} sample_window in
  let name := if is_checked (dom w) 10 then "dark" else "light" in
  let w' := exec (toggleTheme sample_env) w in
  getAttribute (dom w') 0 "data-theme" = Some name ∧
  localStorage w' !! "theme" = Some name ∧
  (∀ k, k ≠ "theme" → localStorage w' !! k = localStorage w !! k) ∧
  (∀ n a, (n, a) ≠ (0, "data-theme") →
          getAttribute (dom w') n a = getAttribute (dom w) n a) ∧
  (∀ n, is_checked (dom w') n = is_checked (dom w) n).
Proof.
  apply (toggleTheme_mirrors sample_env
           (load sample_page {[ "lang" := "fr" ]} sample_window) 10 0).
  - reflexivity.
  - reflexivity.
Defined.

Lemma not_elem_of_active (c : string) : c ≠ "active" → c ∉ ["active"].
Proof. intros Hc ?%list_elem_of_singleton. done. Qed.

Lemma forEach_app {A} (L1 L2 : list A) (f : A → M unit) (w : World) :
  forEach (L1 ++ L2) f w = (forEach L1 f;; forEach L2 f) w.
Proof.
  revert w. induction L1 as [|x L1 IH]; intros w; simpl; [done|].
  unfold mbind, M_bind in *. destruct (f x w) as [[[]|] w1]; [apply IH|done].
Qed.

(** The highlighter touches the class 'active' only, also when the selector
    engine answers for it or rejects the selector. *)
Lemma nav_steps_markup (cssQuery : string → list Element → option (option node))
    (d0 : list Element) (y : Z) (L : list node) :
  keeps (λ w, Forall2 (same_markup ["active"]) d0 (dom w)) (forEach L (nav_step cssQuery y)).
Proof.
  apply keeps_forEach. intros s _. unfold nav_step.
  apply keeps_bind; [apply keeps_get|]. intros d.
  apply keeps_if;
    (destruct (querySelector_nav_link cssQuery _ d) as [[l|]|];
     [|apply keeps_ret|by intros w Hw]).
  - apply keeps_modify. intros w Hw. simpl. apply Forall2_alter_r; [done|].
    intros. apply same_markup_add; [apply list_elem_of_here|done].
  - apply keeps_modify. intros w Hw. simpl. apply Forall2_alter_r; [done|].
    intros. apply same_markup_remove; [apply list_elem_of_here|done].
Qed.

Lemma highlightNavLink_markup (cssQuery : string → list Element → option (option node))
    (env : Env) (d0 : list Element) :
  keeps (λ w, Forall2 (same_markup ["active"]) d0 (dom w)) (highlightNavLink cssQuery env).
Proof.
  rewrite highlightNavLink_unfold. apply keeps_bind; [apply keeps_get|]. intros y.
  apply nav_steps_markup.
Qed.

(** X13. On a page whose section identifiers are plain the navigation
    highlighter never throws, changes no class but 'active', and leaves
    'active' as it is on every element that is not the link of a section. *)
Theorem highlightNavLink_returns (cssQuery : string → list Element → option (option node))
    (env : Env) (w : World) :
  (∀ s, s ∈ sections env → css_plain (section_id (dom w) s) = true) →
  let w' := exec (highlightNavLink cssQuery env) w in
  outcome (highlightNavLink cssQuery env) w = Ok tt ∧
  (∀ n c, c ≠ "active" → has_class (dom w') n c = has_class (dom w) n c) ∧
  (∀ n, (∀ s, s ∈ sections env → nav_link_of (dom w) s ≠ Some n) →
        has_class (dom w') n "active" = has_class (dom w) n "active").
Proof.
  intros Hplain w'.
  pose proof (same_markup_dom_refl ["active"] (dom w)) as Hd.
  assert (Forall2 (same_markup ["active"]) (dom w) (dom w')) as Hd'.
  { apply (keeps_exec (λ w0, Forall2 (same_markup ["active"]) (dom w) (dom w0))
             (highlightNavLink cssQuery env) w); [apply highlightNavLink_markup|done]. }
  subst w'. rewrite highlightNavLink_unfold in *.
  unfold exec, outcome, mbind, M_bind, get in *. simpl in *. split; [|split].
  - by destruct (nav_forEach_effect cssQuery (dom w) (scrollY (window w)) 0 (sections env) w
                   Hd Hplain) as [Hok _].
  - intros n c Hc. apply (same_markup_has_class _ _ _ Hd'). by apply not_elem_of_active.
  - intros n Hn.
    destruct (nav_forEach_effect cssQuery (dom w) (scrollY (window w)) n (sections env) w
                Hd Hplain) as [_ Hcl].
    unfold exec in Hcl. rewrite Hcl.
    destruct (nav_last (dom w) n (sections env)) as [s|] eqn:Hlast; [|done].
    apply nav_last_Some in Hlast as [Hs Hl]. by destruct (Hn s Hs).
Qed.

Lemma highlightNavLink_returns_witness :
  let w := load sample_page ∅ (mkWindow 400 800 (λ _, 1000%Z)) in
  let w' := exec (highlightNavLink (λ _ _, None) sample_env) w in
  outcome (highlightNavLink (λ _ _, None) sample_env) w = Ok tt ∧
  (∀ n c, c ≠ "active" → has_class (dom w') n c = has_class (dom w) n c) ∧
  (∀ n, (∀ s, s ∈ sections sample_env → nav_link_of (dom w) s ≠ Some n) →
        has_class (dom w') n "active" = has_class (dom w) n "active").
Proof.
  apply (highlightNavLink_returns (λ _ _, None) sample_env
           (load sample_page ∅ (mkWindow 400 800 (λ _, 1000%Z)))).
  intros s Hs. vm_compute in Hs.
  apply elem_of_cons in Hs as [->|Hs]; [reflexivity|].
  apply list_elem_of_singleton in Hs as ->. reflexivity.
Defined.

(** X14. On a page whose section identifiers are plain, when several
    sections share a navigation link, the last of them in document order
    decides: the link is active exactly when the scroll offset is in the
    range of that section. *)
Theorem highlightNavLink_last_section_decides
    (cssQuery : string → list Element → option (option node))
    (env : Env) (w : World) (link s : node) :
  (∀ s', s' ∈ sections env → css_plain (section_id (dom w) s') = true) →
  nav_last (dom w) link (sections env) = Some s →
  let w' := exec (highlightNavLink cssQuery env) w in
  let sectionTop := (offsetTop_of (dom w) s - 100)%Z in
  s ∈ sections env ∧
  querySelector (sel_nav_link_href (section_id (dom w) s)) (dom w) = Some link ∧
  (has_class (dom w') link "active" = true ↔
   (sectionTop < scrollY (window w) ≤ sectionTop + offsetHeight_of (dom w) s)%Z).
Proof.
  intros Hplain Hlast. rewrite highlightNavLink_unfold. simpl.
  pose proof (same_markup_dom_refl ["active"] (dom w)) as Hd.
  destruct (nav_forEach_effect cssQuery (dom w) (scrollY (window w)) link (sections env) w
              Hd Hplain) as [_ Hcl].
  unfold exec, mbind, M_bind, get in *. simpl. rewrite Hcl, Hlast.
  apply nav_last_Some in Hlast as [Hs Hl]. split; [done|]. split; [done|].
  unfold section_test, section_top. by rewrite andb_true_iff, !bool_decide_eq_true.
Qed.

Lemma highlightNavLink_last_section_decides_witness :
  let env := capture twin_sections_page in
  let w := load twin_sections_page ∅ (mkWindow 400 800 (λ _, 1000%Z)) in
  let w' := exec (highlightNavLink (λ _ _, None) env) w in
  4 ∈ sections env ∧
  querySelector (sel_nav_link_href (section_id (dom w) 4)) (dom w) = Some 2 ∧
  (has_class (dom w') 2 "active" = true ↔ (900 - 100 < 400 ≤ 900 - 100 + 300)%Z).
Proof.
  apply (highlightNavLink_last_section_decides (λ _ _, None) (capture twin_sections_page)
           (load twin_sections_page ∅ (mkWindow 400 800 (λ _, 1000%Z))) 2 4).
  - intros s Hs. vm_compute in Hs.
    apply elem_of_cons in Hs as [->|Hs]; [reflexivity|].
    apply list_elem_of_singleton in Hs as ->. reflexivity.
  - reflexivity.
Defined.

(** X20. When the identifier of a section is not plain and the selector
    engine rejects the selector built from it, the navigation highlighter
    throws at that section: the sections before it have been handled (their
    identifiers being plain, the last of them for each link decides), and
    neither this section nor those after it change anything. *)
Theorem highlightNavLink_rejected_selector
    (cssQuery : string → list Element → option (option node))
    (env : Env) (w : World) (before after : list node) (s : node) :
  sections env = before ++ s :: after →
  (∀ s', s' ∈ before → css_plain (section_id (dom w) s') = true) →
  css_plain (section_id (dom w) s) = false →
  (∀ d, cssQuery (nav_link_selector (section_id (dom w) s)) d = None) →
  let w' := exec (highlightNavLink cssQuery env) w in
  outcome (highlightNavLink cssQuery env) w = Thrown ∧
  ∀ link, has_class (dom w') link "active" =
          match nav_last (dom w) link before with
          | Some s' => section_test (dom w) (scrollY (window w)) s'
          | None => has_class (dom w) link "active"
          end.
Proof.
  intros Hsec Hplain Hs Hrej. rewrite highlightNavLink_unfold, Hsec.
  set (y := scrollY (window w)).
  pose proof (same_markup_dom_refl ["active"] (dom w)) as Hd.
  set (w1 := exec (forEach before (nav_step cssQuery y)) w).
  assert (forEach before (nav_step cssQuery y) w = (Ok tt, w1)) as Hrun1.
  { destruct (nav_forEach_effect cssQuery (dom w) y 0 before w Hd Hplain) as [Hok _].
    subst w1. unfold exec, outcome in *.
    destruct (forEach before (nav_step cssQuery y) w) as [r w0]. simpl in *. by subst r. }
  assert (Forall2 (same_markup ["active"]) (dom w) (dom w1)) as Hd1.
  { apply (keeps_exec (λ w0, Forall2 (same_markup ["active"]) (dom w) (dom w0))
             (forEach before (nav_step cssQuery y)) w); [apply nav_steps_markup|done]. }
  assert (nav_step cssQuery y s w1 = (Thrown, w1)) as Hrun2.
  { unfold nav_step, querySelector_nav_link, engine_query, mbind, M_bind, get. simpl.
    rewrite (same_markup_getAttribute _ _ _ Hd1). fold (section_id (dom w) s).
    rewrite Hs, Hrej. by destruct (_ && _). }
  assert ((y0 ← get (λ w0, scrollY (window w0));
           forEach (before ++ s :: after) (nav_step cssQuery y0)) w = (Thrown, w1)) as Hrun.
  { rewrite (bind_Ok _ _ w w y) by done. rewrite forEach_app.
    rewrite (bind_Ok _ _ w w1 tt Hrun1). simpl. by rewrite (bind_Thrown _ _ w1 w1 Hrun2). }
  unfold exec, outcome. rewrite Hrun. simpl. split; [done|]. intros link.
  destruct (nav_forEach_effect cssQuery (dom w) y link before w Hd Hplain) as [_ Hcl].
  exact Hcl.
Qed.

Lemma highlightNavLink_rejected_selector_witness :
  let env := capture quoted_section_page in
  let w := load quoted_section_page ∅ (mkWindow 400 800 (λ _, 1000%Z)) in
  let w' := exec (highlightNavLink (λ _ _, None) env) w in
  outcome (highlightNavLink (λ _ _, None) env) w = Thrown ∧
  ∀ link, has_class (dom w') link "active" =
          match nav_last (dom w) link [4] with
          | Some s' => section_test (dom w) 400 s'
          | None => has_class (dom w) link "active"
          end.
Proof.
  apply (highlightNavLink_rejected_selector (λ _ _, None) (capture quoted_section_page)
           (load quoted_section_page ∅ (mkWindow 400 800 (λ _, 1000%Z))) [4] [6] 5).
  - reflexivity.
  - intros s Hs. apply list_elem_of_singleton in Hs as ->. reflexivity.
  - reflexivity.
  - done.
Defined.

(** X15. A click on a tab button returns exactly when [getElementById] finds
    an element for its data-tab, which it never does for an empty one.  In
    both cases the click changes no class but 'active', and leaves 'active'
    as it is on every element that is neither a tab button, a tab pane, nor
    the element found. *)
Theorem tab_click_frame (env : Env) (w : World) (btn : node) :
  btn < length (dom w) →
  let target := getElementById (default "null" (getAttribute (dom w) btn "data-tab")) (dom w) in
  let w' := exec (tab_click env btn) w in
  outcome (tab_click env btn) w = (if target is Some _ then Ok tt else Thrown) ∧
  (∀ n c, c ≠ "active" → has_class (dom w') n c = has_class (dom w) n c) ∧
  (∀ n, n ∉ tabBtns env → n ∉ tabPanes env → n ≠ btn → target ≠ Some n →
        has_class (dom w') n "active" = has_class (dom w) n "active").
Proof.
  intros Hbtn target w'.
  destruct (tab_click_effect env (dom w) btn w (same_markup_dom_refl _ _) Hbtn)
    as (w1 & Hrun & Hd & Hcl).
  fold target in Hrun, Hcl. subst w'. unfold exec, outcome. rewrite Hrun. simpl.
  split; [by destruct target|]. split.
  - intros n c Hc. apply (same_markup_has_class _ _ _ Hd). by apply not_elem_of_active.
  - intros n H1 H2 H3 H4. rewrite Hcl.
    rewrite (bool_decide_eq_false_2 (n ∈ tabBtns env)), (bool_decide_eq_false_2 (n ∈ tabPanes env)),
      (bool_decide_eq_false_2 (n = btn)), (bool_decide_eq_false_2 (target = Some n)) by done.
    simpl. by rewrite !andb_true_r, !orb_false_r.
Qed.

Lemma tab_click_frame_witness :
  let env := capture empty_tab_page in
  let w := load empty_tab_page ∅ sample_window in
  let target := getElementById (default "null" (getAttribute (dom w) 2 "data-tab")) (dom w) in
  let w' := exec (tab_click env 2) w in
  outcome (tab_click env 2) w = (if target is Some _ then Ok tt else Thrown) ∧
  (∀ n c, c ≠ "active" → has_class (dom w') n c = has_class (dom w) n c) ∧
  (∀ n, n ∉ tabBtns env → n ∉ tabPanes env → n ≠ 2 → target ≠ Some n →
        has_class (dom w') n "active" = has_class (dom w) n "active").
Proof.
  apply (tab_click_frame (capture empty_tab_page) (load empty_tab_page ∅ sample_window) 2).
  vm_compute. lia.
Defined.

(** On the page whose tab button has an empty data-tab the click throws,
    although a pane has the empty id. *)
Lemma tab_click_empty_id :
  let env := capture empty_tab_page in
  let w := load empty_tab_page ∅ sample_window in
  getAttribute (dom w) 2 "data-tab" = Some "" ∧
  getAttribute (dom w) 3 "id" = Some "" ∧
  outcome (tab_click env 2) w = Thrown.
Proof. by vm_compute. Qed.

Section Runs.
Variable d0 : list Element.

Lemma runs_bind {A B} (m : M A) (f : A → M B) :
  runs d0 m → (∀ a, runs d0 (f a)) → runs d0 (m ≫= f).
Proof. intros Hm Hf. eapply triple_bind; [exact Hm|]. intros a. apply Hf. Qed.

Lemma runs_ret {A} (a : A) : runs d0 (mret a).
Proof. by intros w HP. Qed.

Lemma runs_get {A} (f : World → A) : runs d0 (get f).
Proof. by intros w HP. Qed.

Lemma runs_get_dom {A} (f : list Element → M A) :
  (∀ d, Forall2 script_variant d0 d → runs d0 (f d)) → runs d0 (get dom ≫= f).
Proof. intros Hf w HP. unfold mbind, M_bind, get. by apply Hf. Qed.

Lemma runs_state_only (f : World → World) :
  (∀ w, dom (f w) = dom w) → runs d0 (modify f).
Proof. intros Hf w HP. simpl. by rewrite Hf. Qed.

Lemma runs_deref {A} (r : option node) (f : node → M A) :
  is_Some r → (∀ n, r = Some n → runs d0 (f n)) → runs d0 (deref r ≫= f).
Proof. intros [n ->] Hf w HP. unfold mbind, M_bind, deref. by apply Hf. Qed.

Lemma runs_write_el (n : node) (fc : Facet) (f : Element → Element) :
  (∀ e e', script_variant e e' → script_variant e (f e')) → runs d0 (write_el n fc f).
Proof. intros Hf w HP. simpl. apply Forall2_alter_r; [done|]. intros x y _ _. apply Hf. Qed.

Lemma runs_forEach {A} (L : list A) (f : A → M unit) :
  (∀ x, x ∈ L → runs d0 (f x)) → runs d0 (forEach L f).
Proof.
  induction L as [|x L IH]; intros Hf; simpl; [apply runs_ret|].
  apply runs_bind; [apply Hf, list_elem_of_here|]. intros _. apply IH.
  intros y Hy. by apply Hf, list_elem_of_further.
Qed.

Lemma runs_if {A} (b : bool) (m1 m2 : M A) : runs d0 m1 → runs d0 m2 → runs d0 (if b then m1 else m2).
Proof. by destruct b. Qed.

Lemma runs_ok (m : M unit) (w : World) :
  runs d0 m → Forall2 script_variant d0 (dom w) →
  ∃ w', m w = (Ok tt, w') ∧ Forall2 script_variant d0 (dom w').
Proof.
  intros Hm HP. specialize (Hm w HP). destruct (m w) as [[[]|] w']; [|done]. by exists w'.
Qed.

Lemma runs_add (n : node) (c : string) : c ∈ script_classes → runs d0 (classList_add n c).
Proof. intros Hc. apply runs_write_el. intros e e'. by apply script_variant_add. Qed.

Lemma runs_remove (n : node) (c : string) : c ∈ script_classes → runs d0 (classList_remove n c).
Proof. intros Hc. apply runs_write_el. intros e e'. by apply script_variant_remove. Qed.

Lemma runs_style (n : node) (prop : string) (v : StyleVal) : runs d0 (style_set n prop v).
Proof. apply runs_write_el. intros e e'. apply script_variant_style. Qed.

Ltac runs_step :=
  first
    [ apply runs_ret
    | apply runs_get_dom; intros ? ?
    | apply runs_deref; [by eauto|intros ? ?]
    | apply runs_state_only; by intros ?
    | apply runs_style
    | apply runs_add; apply script_classes_elem; tauto
    | apply runs_remove; apply script_classes_elem; tauto
    | apply runs_forEach; intros ? ?
    | apply runs_if
    | apply runs_bind; [|intros ?]
    | apply runs_get ].

Variable parseInt : option string → jsnum.
Variable env : Env.

Lemma increment_runs : is_Some (progress env) → runs d0 (increment env).
Proof. intros Hp. unfold increment. repeat runs_step. Qed.

Lemma preloader_init_runs : is_Some (progress env) → runs d0 (preloader_init env).
Proof.
  intros Hp. unfold preloader_init, preloader_count_images, preloader_count_css_js, addEventListener.
  repeat first [by apply increment_runs | runs_step].
Qed.

Lemma mobileMenu_init_runs : is_Some (mobileMenuBtn env) → runs d0 (mobileMenu_init env).
Proof. intros Hp. unfold mobileMenu_init, addEventListener. repeat runs_step. Qed.

Lemma themeSwitcher_init_runs :
  is_Some (document_documentElement d0) → is_Some (themeToggle env) →
  runs d0 (themeSwitcher_init env).
Proof.
  intros Hh Ht. unfold themeSwitcher_init, addEventListener, localStorage_getItem.
  apply runs_bind; [apply runs_get|]. intros s. apply runs_get_dom. intros d Hd.
  apply runs_deref; [by rewrite (script_variant_documentElement d0 d)|]. intros h _.
  apply runs_bind.
  { apply runs_write_el. intros e e'. apply script_variant_data_theme. }
  intros _. apply runs_deref; [done|]. intros t _. apply runs_bind.
  { apply runs_write_el. intros e e'. apply script_variant_checked. }
  intros _. by apply runs_state_only.
Qed.

Lemma animateCounters_runs : runs d0 (animateCounters parseInt env).
Proof.
  unfold animateCounters, classList_contains, setInterval_counter. repeat runs_step.
Qed.

Lemma handleScroll_runs :
  is_Some (header env) → is_Some (backToTopBtn env) → runs d0 (handleScroll parseInt env).
Proof.
  intros Hh Hb. unfold handleScroll. repeat first [apply animateCounters_runs | runs_step].
Qed.

Lemma scrollEffects_init_runs :
  is_Some (header env) → is_Some (backToTopBtn env) → runs d0 (scrollEffects_init parseInt env).
Proof.
  intros Hh Hb. unfold scrollEffects_init, setupSmoothScroll, addEventListener.
  repeat first [by apply handleScroll_runs | runs_step].
Qed.

End Runs.

Lemma bind_outcome_Thrown {A B} (m : M A) (f : A → M B) (w : World) :
  outcome m w = Thrown → outcome (m ≫= f) w = Thrown.
Proof. unfold outcome, mbind, M_bind. destruct (m w) as [[a|] w']; [done|]. done. Qed.

Lemma bind_outcome_Ok {A B} (m : M A) (f : A → M B) (w w1 : World) (a : A) :
  m w = (Ok a, w1) → outcome (m ≫= f) w = outcome (f a) w1.
Proof. intros H. unfold outcome. by rewrite (bind_Ok _ _ _ _ _ H). Qed.

Lemma mobileMenu_init_throws (env : Env) (w : World) :
  mobileMenuBtn env = None → outcome (mobileMenu_init env) w = Thrown.
Proof. intros H. unfold mobileMenu_init, outcome. munfold. by rewrite H. Qed.

Lemma themeSwitcher_init_throws (env : Env) (w : World) :
  document_documentElement (dom w) = None ∨ themeToggle env = None →
  outcome (themeSwitcher_init env) w = Thrown.
Proof.
  intros H. unfold themeSwitcher_init, outcome. munfold. simpl.
  destruct (document_documentElement (dom w)) as [h|]; simpl; [|done].
  destruct H as [?|Ht]; [done|]. by rewrite Ht.
Qed.

Lemma handleScroll_throws (parseInt : option string → jsnum) (env : Env) (w : World) :
  header env = None ∨ backToTopBtn env = None →
  outcome (handleScroll parseInt env) w = Thrown.
Proof.
  intros H. unfold handleScroll.
  rewrite (bind_outcome_Ok _ _ w w (scrollY (window w))) by done.
  destruct (header env) as [h|] eqn:Hh.
  - destruct H as [?|Hb]; [done|].
    set (test := bool_decide (50 < scrollY (window w))%Z).
    rewrite (bind_outcome_Ok _ _ w
               (exec (if test then classList_add h "scrolled" else classList_remove h "scrolled") w)
               tt) by (by destruct test).
    apply bind_outcome_Thrown. rewrite Hb. unfold outcome.
    by destruct (bool_decide (500 < scrollY (window w))%Z).
  - apply bind_outcome_Thrown. unfold outcome.
    by destruct (bool_decide (50 < scrollY (window w))%Z).
Qed.

Lemma scrollEffects_init_throws (parseInt : option string → jsnum) (env : Env) (w : World) :
  header env = None ∨ backToTopBtn env = None →
  outcome (scrollEffects_init parseInt env) w = Thrown.
Proof.
  intros H. unfold scrollEffects_init.
  destruct (runs_ok (dom w) (addEventListener TWindow "scroll" CbHandleScroll) w)
    as (w1 & H1 & Hd1).
  { by apply runs_state_only. }
  { apply Forall2_same_length_lookup. split; [done|]. intros i x y ? ?. simplify_eq.
    apply script_variant_refl. }
  rewrite (bind_outcome_Ok _ _ w w1 tt H1).
  destruct (runs_ok (dom w) (setupSmoothScroll env) w1) as (w2 & H2 & _); [|done|].
  { unfold setupSmoothScroll. apply runs_forEach. intros x _. by apply runs_state_only. }
  rewrite (bind_outcome_Ok _ _ w1 w2 tt H2). by apply handleScroll_throws.
Qed.

Lemma script_variant_dom_refl (d : list Element) : Forall2 script_variant d d.
Proof.
  apply Forall2_same_length_lookup. split; [done|]. intros i x y ? ?. simplify_eq.
  apply script_variant_refl.
Qed.

Lemma bind_outcome_Ok_inv {A B} (m : M A) (f : A → M B) (w : World) (b : B) :
  outcome (m ≫= f) w = Ok b → ∃ a w1, m w = (Ok a, w1) ∧ outcome (f a) w1 = Ok b.
Proof.
  unfold outcome, mbind, M_bind. destruct (m w) as [[a|] w1]; [|done]. intros H. by exists a, w1.
Qed.

(** The first four modules of the start-up routine initialise without a
    fault exactly when the six elements they dereference exist. *)
Lemma first_modules_iff (parseInt : option string → jsnum) (env : Env) (w : World) :
  outcome (preloader_init env;; mobileMenu_init env;; themeSwitcher_init env;;
           scrollEffects_init parseInt env) w = Ok tt ↔
  is_Some (progress env) ∧ is_Some (mobileMenuBtn env) ∧
  is_Some (document_documentElement (dom w)) ∧ is_Some (themeToggle env) ∧
  is_Some (header env) ∧ is_Some (backToTopBtn env).
Proof.
  pose proof (script_variant_dom_refl (dom w)) as Hd. split.
  - intros Hok.
    destruct (progress env) as [p|] eqn:Hp.
    2:{ rewrite bind_outcome_Thrown in Hok; [done|]. unfold preloader_init.
        apply bind_outcome_Thrown. unfold outcome, deref. by rewrite Hp. }
    destruct (runs_ok (dom w) (preloader_init env) w) as (w1 & H1 & Hd1); [|done|].
    { apply preloader_init_runs. by rewrite Hp. }
    rewrite (bind_outcome_Ok _ _ w w1 tt H1) in Hok.
    destruct (mobileMenuBtn env) as [btn|] eqn:Hbtn.
    2:{ rewrite bind_outcome_Thrown in Hok; [done|]. by apply mobileMenu_init_throws. }
    destruct (runs_ok (dom w) (mobileMenu_init env) w1) as (w2 & H2 & Hd2); [|done|].
    { apply mobileMenu_init_runs. by rewrite Hbtn. }
    rewrite (bind_outcome_Ok _ _ w1 w2 tt H2) in Hok.
    pose proof (script_variant_documentElement _ _ Hd2) as Hroot.
    destruct (document_documentElement (dom w)) as [h|] eqn:Hh.
    2:{ rewrite bind_outcome_Thrown in Hok; [done|]. apply themeSwitcher_init_throws. by left. }
    destruct (themeToggle env) as [t|] eqn:Ht.
    2:{ rewrite bind_outcome_Thrown in Hok; [done|]. apply themeSwitcher_init_throws. by right. }
    destruct (runs_ok (dom w) (themeSwitcher_init env) w2) as (w3 & H3 & Hd3); [|done|].
    { apply themeSwitcher_init_runs; [by rewrite Hh|by rewrite Ht]. }
    rewrite (bind_outcome_Ok _ _ w2 w3 tt H3) in Hok.
    destruct (header env) as [hd|] eqn:Hhd.
    2:{ rewrite scrollEffects_init_throws in Hok; [done|]. by left. }
    destruct (backToTopBtn env) as [bt|] eqn:Hbt.
    2:{ rewrite scrollEffects_init_throws in Hok; [done|]. by right. }
    repeat split; eauto.
  - intros (Hp & Hbtn & Hh & Ht & Hhd & Hbt).
    destruct (runs_ok (dom w) (preloader_init env;; mobileMenu_init env;;
                themeSwitcher_init env;; scrollEffects_init parseInt env) w)
      as (w' & Hrun & _); [|done|].
    + apply runs_bind; [by apply preloader_init_runs|intros _].
      apply runs_bind; [by apply mobileMenu_init_runs|intros _].
      apply runs_bind; [by apply themeSwitcher_init_runs|intros _].
      by apply scrollEffects_init_runs.
    + unfold outcome. by rewrite Hrun.
Qed.

(** X16. The start-up routine can run to completion only when the progress
    bar, the menu button, the root element, the theme control, the header
    and the back-to-top button exist; and its first four modules (preloader,
    mobileMenu, themeSwitcher, scrollEffects) initialise without a fault
    exactly when these six elements exist. *)
Theorem main_needs_six_elements (parseInt : option string → jsnum)
    (cssQuery : string → list Element → option (option node)) (env : Env) (w : World) :
  let present :=
    is_Some (progress env) ∧ is_Some (mobileMenuBtn env) ∧
    is_Some (document_documentElement (dom w)) ∧ is_Some (themeToggle env) ∧
    is_Some (header env) ∧ is_Some (backToTopBtn env) in
  (outcome (main parseInt cssQuery env) w = Ok tt → present) ∧
  (outcome (preloader_init env;; mobileMenu_init env;; themeSwitcher_init env;;
            scrollEffects_init parseInt env) w = Ok tt ↔ present).
Proof.
  intros present. split; [|apply first_modules_iff].
  intros Hok. apply (first_modules_iff parseInt). unfold main in Hok.
  apply bind_outcome_Ok_inv in Hok as ([] & w1 & H1 & Hok).
  apply bind_outcome_Ok_inv in Hok as ([] & w2 & H2 & Hok).
  apply bind_outcome_Ok_inv in Hok as ([] & w3 & H3 & Hok).
  apply bind_outcome_Ok_inv in Hok as ([] & w4 & H4 & _).
  rewrite (bind_outcome_Ok _ _ w w1 tt H1), (bind_outcome_Ok _ _ w1 w2 tt H2),
    (bind_outcome_Ok _ _ w2 w3 tt H3).
  unfold outcome. by rewrite H4.
Qed.

Section EarlyState.
Variable ex : list External.

Lemma early_state_only (f : World → World) :
  (∀ w, listeners (f w) = listeners w ∧ externals (f w) = externals w) →
  keeps (early_state ex) (modify f).
Proof.
  intros Hf. apply keeps_modify. intros w [Hl He]. destruct (Hf w) as [E1 E2].
  unfold early_state. by rewrite E1, E2.
Qed.

Lemma early_addEventListener (t : EventTarget) (ty : string) (cb : Callback) :
  early_callback cb → keeps (early_state ex) (addEventListener t ty cb).
Proof.
  intros Hcb. apply keeps_modify. intros w [Hl He]. split; [|done]. simpl.
  destruct (bool_decide _); [done|]. apply Forall_app. split; [done|]. by apply Forall_singleton.
Qed.

Ltac early_step :=
  first
    [ apply keeps_ret
    | apply early_addEventListener; exact I
    | apply early_state_only; by intros ?
    | apply keeps_forEach; intros ? ?
    | apply keeps_if
    | apply keeps_deref
    | apply keeps_bind; [|intros ?]
    | apply keeps_get ].

Variable parseInt : option string → jsnum.
Variable env : Env.

Lemma preloader_init_early : keeps (early_state ex) (preloader_init env).
Proof.
  unfold preloader_init, preloader_count_images, preloader_count_css_js, increment.
  repeat early_step.
Qed.

Lemma mobileMenu_init_early : keeps (early_state ex) (mobileMenu_init env).
Proof. unfold mobileMenu_init. repeat early_step. Qed.

Lemma themeSwitcher_init_early : keeps (early_state ex) (themeSwitcher_init env).
Proof. unfold themeSwitcher_init, localStorage_getItem. repeat early_step. Qed.

Lemma scrollEffects_init_early : keeps (early_state ex) (scrollEffects_init parseInt env).
Proof.
  unfold scrollEffects_init, setupSmoothScroll, handleScroll, animateCounters,
    classList_contains, setInterval_counter.
  repeat early_step.
Qed.
End EarlyState.

Lemma keeps_throwing {A B} (I : World → Prop) (m : M A) (f : A → M B) :
  keeps I m → (∀ w, outcome m w = Thrown) → keeps I (m ≫= f).
Proof.
  intros Hm Hthrow w HI. specialize (Hm w HI). specialize (Hthrow w).
  unfold outcome, mbind, M_bind in *. by destruct (m w) as [[a|] w'].
Qed.

Lemma bind_outcome_always_Thrown {A B} (m : M A) (f : A → M B) (w : World) :
  (∀ a w', outcome (f a) w' = Thrown) → outcome (m ≫= f) w = Thrown.
Proof.
  intros Hf. unfold outcome, mbind, M_bind. destruct (m w) as [[a|] w']; [apply Hf|done].
Qed.

(** X17. Without the header or the back-to-top button the start-up routine
    throws in [scrollEffects] at the latest, and the modules after it are not
    initialised: no tab button has its click listener, the navigation
    highlighter is not registered and no animation library is called. *)
Theorem main_stops_at_scroll_effects (parseInt : option string → jsnum)
    (cssQuery : string → list Element → option (option node)) (env : Env) (w : World) :
  header env = None ∨ backToTopBtn env = None →
  listeners w = [] →
  let w' := exec (main parseInt cssQuery env) w in
  outcome (main parseInt cssQuery env) w = Thrown ∧
  (∀ t ty btn, (t, ty, CbTabClick btn) ∉ listeners w') ∧
  (∀ t ty, (t, ty, CbHighlightNavLink) ∉ listeners w') ∧
  externals w' = externals w.
Proof.
  intros Hmiss Hls w'.
  assert (outcome (main parseInt cssQuery env) w = Thrown) as Hout.
  { unfold main. do 3 (apply bind_outcome_always_Thrown; intros _ ?).
    apply bind_outcome_Thrown. by apply scrollEffects_init_throws. }
  split; [done|].
  assert (early_state (externals w) w') as [Hearly Hex].
  { apply keeps_exec; [|split; [by rewrite Hls|done]]. unfold main.
    apply keeps_bind; [apply preloader_init_early|intros _].
    apply keeps_bind; [apply mobileMenu_init_early|intros _].
    apply keeps_bind; [apply themeSwitcher_init_early|intros _].
    apply keeps_throwing; [apply scrollEffects_init_early|].
    intros w0. by apply scrollEffects_init_throws. }
  split; [|split; [|done]].
  - intros t ty btn Hin. eapply Forall_forall in Hearly; [|exact Hin]. done.
  - intros t ty Hin. eapply Forall_forall in Hearly; [|exact Hin]. done.
Qed.

Lemma main_stops_at_scroll_effects_witness :
  let env := capture headerless_page in
  let w := load headerless_page ∅ sample_window in
  let w' := exec (main sample_parseInt (λ _ _, Some None) env) w in
  outcome (main sample_parseInt (λ _ _, Some None) env) w = Thrown ∧
  (∀ t ty btn, (t, ty, CbTabClick btn) ∉ listeners w') ∧
  (∀ t ty, (t, ty, CbHighlightNavLink) ∉ listeners w') ∧
  externals w' = externals w.
Proof.
  apply (main_stops_at_scroll_effects sample_parseInt (λ _ _, Some None) (capture headerless_page)
           (load headerless_page ∅ sample_window)).
  - left. reflexivity.
  - reflexivity.
Defined.

Section Listeners.
Variable parseInt : option string → jsnum.
Variable cssQuery : string → list Element → option (option node).
Variable env : Env.
Variable L : list (EventTarget * string * Callback).

Ltac quiet_step :=
  first
    [ apply keeps_ret
    | apply keeps_modify; by intros ? ?
    | apply keeps_forEach; intros ? ?
    | apply keeps_if
    | apply keeps_deref
    | apply keeps_bind; [|intros ?]
    | apply keeps_get ].

Lemma increment_listeners : keeps (λ w, listeners w = L) (increment env).
Proof. unfold increment. repeat quiet_step. Qed.

Lemma preloader_fade_listeners : keeps (λ w, listeners w = L) (preloader_fade env).
Proof. unfold preloader_fade. repeat quiet_step. Qed.

Lemma handleScroll_listeners : keeps (λ w, listeners w = L) (handleScroll parseInt env).
Proof.
  unfold handleScroll, animateCounters, classList_contains, setInterval_counter.
  repeat quiet_step.
Qed.

Lemma highlightNavLink_listeners :
  keeps (λ w, listeners w = L) (highlightNavLink cssQuery env).
Proof.
  unfold highlightNavLink. apply keeps_bind; [apply keeps_get|]. intros y.
  apply keeps_forEach. intros s _. apply keeps_bind; [apply keeps_get|]. intros d.
  apply keeps_if;
    (destruct (querySelector_nav_link cssQuery _ d) as [[l|]|]; [| |by intros w Hw]);
    repeat quiet_step.
Qed.

Lemma interval_tick_listeners (i : nat) : keeps (λ w, listeners w = L) (interval_tick i).
Proof.
  unfold interval_tick. apply keeps_bind; [apply keeps_get|]. intros ivs.
  destruct (ivs !! i) as [iv|]; [|apply keeps_ret].
  destruct (iv_cleared iv); repeat quiet_step.
Qed.

Lemma run_callback_listeners (cb : Callback) :
  keeps (λ w, listeners w = L) (run_callback parseInt cssQuery env cb).
Proof.
  destruct cb; simpl.
  - apply increment_listeners.
  - unfold mobileMenu_toggle. repeat quiet_step.
  - unfold mobileMenu_close. repeat quiet_step.
  - unfold toggleTheme. repeat quiet_step.
  - apply handleScroll_listeners.
  - unfold smoothScroll_click. apply keeps_bind; [apply keeps_get|]. intros d.
    destruct (cssQuery _ d) as [[target|]|]; [| |by intros w Hw]; repeat quiet_step.
  - unfold tab_click. repeat quiet_step.
  - apply highlightNavLink_listeners.
Qed.

Lemma attempt_keeps (I : World → Prop) (m : M unit) : keeps I m → keeps I (attempt m).
Proof.
  intros Hm w HI. specialize (Hm w HI). unfold attempt. by destruct (m w) as [[a|] w'].
Qed.

Lemma dispatch_listeners (t : EventTarget) (ty : string) :
  keeps (λ w, listeners w = L) (dispatch parseInt cssQuery env t ty).
Proof.
  unfold dispatch. apply keeps_bind; [apply keeps_get|]. intros ls.
  apply keeps_forEach. intros l _. apply attempt_keeps, run_callback_listeners.
Qed.

Lemma fire_fadeTimeout_listeners : keeps (λ w, listeners w = L) (fire_fadeTimeout env).
Proof.
  unfold fire_fadeTimeout. apply keeps_bind; [apply keeps_get|]. intros [|n].
  - apply keeps_ret.
  - apply keeps_bind; [by apply keeps_modify|]. intros _. apply preloader_fade_listeners.
Qed.
End Listeners.

(** X18. No listener and no timer callback registers or removes a listener:
    after the start-up the listener table stays as it is, whatever events
    are dispatched and whether the listeners throw or not. *)
Theorem handlers_keep_listeners (parseInt : option string → jsnum)
    (cssQuery : string → list Element → option (option node)) (env : Env) (w : World) :
  (∀ cb, listeners (exec (run_callback parseInt cssQuery env cb) w) = listeners w) ∧
  (∀ t ty, listeners (exec (dispatch parseInt cssQuery env t ty) w) = listeners w) ∧
  (∀ i, listeners (exec (interval_tick i) w) = listeners w) ∧
  listeners (exec (fire_fadeTimeout env) w) = listeners w.
Proof.
  split; [|split; [|split]].
  - intros cb. apply (keeps_exec (λ w', listeners w' = listeners w)); [apply run_callback_listeners|done].
  - intros t ty. apply (keeps_exec (λ w', listeners w' = listeners w)); [apply dispatch_listeners|done].
  - intros i. apply (keeps_exec (λ w', listeners w' = listeners w)); [apply interval_tick_listeners|done].
  - apply (keeps_exec (λ w', listeners w' = listeners w)); [apply fire_fadeTimeout_listeners|done].
Qed.

Section ScrollListeners.
Variable parseInt : option string → jsnum.
Variable cssQuery : string → list Element → option (option node).
Variable env : Env.

Lemma scroll_listeners_state_only (L : list Callback) (f : World → World) :
  (∀ w, listeners (f w) = listeners w) → keeps (scroll_listeners L) (modify f).
Proof.
  intros Hf. apply keeps_modify. intros w Hw. unfold scroll_listeners, listeners_for in *.
  by rewrite Hf.
Qed.

Lemma scroll_listeners_node (L : list Callback) (n : node) (ty : string) (cb : Callback) :
  keeps (scroll_listeners L) (addEventListener (TNode n) ty cb).
Proof.
  apply keeps_modify. intros w Hw. unfold scroll_listeners, listeners_for in *. simpl.
  destruct (bool_decide _); [done|].
  rewrite filter_app, Hw. rewrite filter_cons_False; [|by intros [? _]].
  by rewrite filter_nil, app_nil_r.
Qed.

Lemma scroll_listeners_window (L : list Callback) (cb : Callback) :
  cb ∉ L →
  triple (scroll_listeners L) (addEventListener TWindow "scroll" cb)
    (λ _, scroll_listeners (L ++ [cb])) (λ _, False).
Proof.
  intros Hcb. apply triple_modify. intros w Hw. unfold scroll_listeners, listeners_for in *.
  simpl. rewrite bool_decide_eq_false_2.
  - rewrite filter_app, Hw, fmap_app. f_equal.
  - intros Hin.
    assert ((TWindow, "scroll", cb) ∈ filter (λ l : EventTarget * string * Callback,
              l.1.1 = TWindow ∧ l.1.2 = "scroll") (listeners w)) as Hf.
    { apply list_elem_of_filter. by split. }
    rewrite Hw in Hf. apply list_elem_of_fmap in Hf as (cb' & [= ->] & Hcb'). done.
Qed.

Ltac scroll_step :=
  first
    [ apply keeps_ret
    | apply scroll_listeners_node
    | apply scroll_listeners_state_only; by intros ?
    | apply keeps_forEach; intros ? ?
    | apply keeps_if
    | apply keeps_deref
    | apply keeps_bind; [|intros ?]
    | apply keeps_get ].

Variable L : list Callback.

Lemma preloader_init_scroll : keeps (scroll_listeners L) (preloader_init env).
Proof.
  unfold preloader_init, preloader_count_images, preloader_count_css_js, increment.
  repeat scroll_step.
Qed.

Lemma mobileMenu_init_scroll : keeps (scroll_listeners L) (mobileMenu_init env).
Proof. unfold mobileMenu_init. repeat scroll_step. Qed.

Lemma themeSwitcher_init_scroll : keeps (scroll_listeners L) (themeSwitcher_init env).
Proof. unfold themeSwitcher_init, localStorage_getItem. repeat scroll_step. Qed.

Lemma handleScroll_scroll : keeps (scroll_listeners L) (handleScroll parseInt env).
Proof.
  unfold handleScroll, animateCounters, classList_contains, setInterval_counter.
  repeat scroll_step.
Qed.

Lemma featureTabs_init_scroll : keeps (scroll_listeners L) (featureTabs_init env).
Proof. unfold featureTabs_init. repeat scroll_step. Qed.

Lemma animations_init_scroll : keeps (scroll_listeners L) animations_init.
Proof. unfold animations_init. repeat scroll_step. Qed.

Lemma particlesBackground_init_scroll : keeps (scroll_listeners L) particlesBackground_init.
Proof.
  unfold particlesBackground_init. apply keeps_bind; [apply keeps_get|]. intros d.
  destruct (getElementById _ d); repeat scroll_step.
Qed.

Lemma highlightNavLink_scroll :
  keeps (scroll_listeners L) (highlightNavLink cssQuery env).
Proof.
  unfold highlightNavLink. apply keeps_bind; [apply keeps_get|]. intros y.
  apply keeps_forEach. intros s _. apply keeps_bind; [apply keeps_get|]. intros d.
  apply keeps_if;
    (destruct (querySelector_nav_link cssQuery _ d) as [[l|]|]; [| |by intros w Hw]);
    repeat scroll_step.
Qed.
End ScrollListeners.

Lemma keeps_triple {A} (I : World → Prop) (m : M A) :
  keeps I m → triple I m (λ _, I) (λ _, True).
Proof. intros Hm w HI. specialize (Hm w HI). by destruct (m w) as [[a|] w']. Qed.

Lemma main_scroll_listeners (parseInt : option string → jsnum)
    (cssQuery : string → list Element → option (option node)) (env : Env) :
  triple (scroll_listeners []) (main parseInt cssQuery env)
    (λ _, scroll_listeners [CbHandleScroll; CbHighlightNavLink]) (λ _, True).
Proof.
  unfold main.
  eapply triple_bind; [apply keeps_triple, preloader_init_scroll|intros ?].
  eapply triple_bind; [apply keeps_triple, mobileMenu_init_scroll|intros ?].
  eapply triple_bind; [apply keeps_triple, themeSwitcher_init_scroll|intros ?].
  eapply triple_bind.
  { unfold scrollEffects_init.
    eapply triple_bind.
    { eapply triple_conseq; [apply (scroll_listeners_window [] CbHandleScroll)| | |];
        [apply not_elem_of_nil|done|intros ? ? H; exact H|done]. }
    intros ?. eapply triple_bind.
    { apply keeps_triple. unfold setupSmoothScroll. apply keeps_forEach. intros l _.
      apply scroll_listeners_node. }
    intros ?. apply keeps_triple, handleScroll_scroll. }
  intros ?.
  eapply triple_bind; [apply keeps_triple, featureTabs_init_scroll|intros ?].
  eapply triple_bind; [apply keeps_triple, animations_init_scroll|intros ?].
  eapply triple_bind; [apply keeps_triple, particlesBackground_init_scroll|intros ?].
  unfold activeNavigation_init.
  eapply triple_bind.
  { eapply triple_conseq; [apply (scroll_listeners_window [CbHandleScroll] CbHighlightNavLink)| | |];
      [|done|intros ? ? H; exact H|done].
    intros Hin. apply list_elem_of_singleton in Hin. discriminate. }
  intros ?. apply keeps_triple, highlightNavLink_scroll.
Qed.

(** X19. When the start-up routine has run to completion from an empty
    listener table, the window has exactly two scroll listeners, and a
    scroll event runs the scroll handler first and the navigation
    highlighter second, the second also when the first throws.  This holds
    in every later state, the listener table being unchanged. *)
Theorem scroll_event_after_main (parseInt : option string → jsnum)
    (cssQuery : string → list Element → option (option node)) (env : Env) (w w' w1 : World) :
  listeners w = [] →
  main parseInt cssQuery env w = (Ok tt, w') →
  listeners w1 = listeners w' →
  listeners_for TWindow "scroll" w1
    = [(TWindow, "scroll", CbHandleScroll); (TWindow, "scroll", CbHighlightNavLink)] ∧
  dispatch parseInt cssQuery env TWindow "scroll" w1
    = (Ok tt, exec (highlightNavLink cssQuery env) (exec (handleScroll parseInt env) w1)).
Proof.
  intros Hls Hrun Hsame.
  pose proof (main_scroll_listeners parseInt cssQuery env w) as Hmain.
  rewrite Hrun in Hmain.
  assert (scroll_listeners [CbHandleScroll; CbHighlightNavLink] w') as Hw'.
  { apply Hmain. unfold scroll_listeners, listeners_for. by rewrite Hls. }
  unfold scroll_listeners, listeners_for in Hw'. rewrite <- Hsame in Hw'. simpl in Hw'.
  split; [exact Hw'|].
  unfold dispatch, get, mbind, M_bind. simpl. rewrite Hw'. simpl.
  unfold attempt, exec, mbind, M_bind, mret, M_ret. simpl. done.
Qed.

Lemma scroll_event_after_main_witness :
  let w := sample_world in
  let w' := exec (main sample_parseInt (λ _ _, Some None) sample_env) w in
  listeners_for TWindow "scroll" w'
    = [(TWindow, "scroll", CbHandleScroll); (TWindow, "scroll", CbHighlightNavLink)] ∧
  dispatch sample_parseInt (λ _ _, Some None) sample_env TWindow "scroll" w'
    = (Ok tt, exec (highlightNavLink (λ _ _, Some None) sample_env)
                   (exec (handleScroll sample_parseInt sample_env) w')).
Proof.
  apply (scroll_event_after_main sample_parseInt (λ _ _, Some None) sample_env sample_world
           (exec (main sample_parseInt (λ _ _, Some None) sample_env) sample_world)
           (exec (main sample_parseInt (λ _ _, Some None) sample_env) sample_world)).
  - reflexivity.
  - vm_compute. reflexivity.
  - reflexivity.
Defined.

(** ** featureTabs: clicks through the registered listeners *)

Lemma tab_listeners_register (L : list node) (w : World) :
  NoDup L → (∀ b, b ∈ L → (TNode b, "click", CbTabClick b) ∉ listeners w) →
  forEach L (λ btn, addEventListener (TNode btn) "click" (CbTabClick btn)) w
  = (Ok tt, set_listeners (λ ls, ls ++ tab_listeners L) w).
Proof.
  revert w. induction L as [|b L IH]; intros w Hnd Hfresh; simpl.
  - unfold set_listeners, tab_listeners. simpl. rewrite app_nil_r. by destruct w.
  - apply NoDup_cons in Hnd as [Hb Hnd].
    rewrite (bind_Ok _ _ w (set_listeners (λ ls, ls ++ [(TNode b, "click", CbTabClick b)]) w) tt).
    2:{ apply addEventListener_fresh. apply Hfresh, list_elem_of_here. }
    rewrite IH; [|done|].
    + unfold set_listeners, tab_listeners. simpl. by rewrite <- app_assoc.
    + intros b' Hb'. simpl. rewrite elem_of_app, list_elem_of_singleton.
      intros [H|[= ->]]; [|done]. by apply (Hfresh b'); [apply list_elem_of_further|].
Qed.

Lemma tab_listeners_filter_nil (L : list node) (btn : node) :
  btn ∉ L →
  filter (λ l : EventTarget * string * Callback, l.1.1 = TNode btn ∧ l.1.2 = "click")
    (tab_listeners L) = [].
Proof.
  induction L as [|b L IH]; intros Hb; [done|].
  apply not_elem_of_cons in Hb as [Hne Hb]. unfold tab_listeners in *. simpl.
  rewrite filter_cons_False; [by apply IH|]. simpl. intros [[= ->] _]. done.
Qed.

Lemma tab_listeners_filter (L : list node) (btn : node) :
  NoDup L → btn ∈ L →
  filter (λ l : EventTarget * string * Callback, l.1.1 = TNode btn ∧ l.1.2 = "click")
    (tab_listeners L) = [(TNode btn, "click", CbTabClick btn)].
Proof.
  induction L as [|b L IH]; intros Hnd Hb; [by apply elem_of_nil in Hb|].
  apply NoDup_cons in Hnd as [Hbn Hnd]. unfold tab_listeners in *. simpl.
  destruct (decide (b = btn)) as [->|Hne].
  - rewrite filter_cons_True by done. f_equal. by apply tab_listeners_filter_nil.
  - rewrite filter_cons_False by (simpl; intros [[= ->] _]; done).
    apply IH; [done|]. apply elem_of_cons in Hb as [->|Hb]; done.
Qed.

(** With the listeners of [featureTabs.init] registered, a click on a tab
    button runs the click listener of that button. *)
Lemma dispatch_tab_click (parseInt : option string → jsnum)
    (cssQuery : string → list Element → option (option node)) (env : Env)
    (btn : node) (w : World) :
  listeners w = tab_listeners (tabBtns env) → NoDup (tabBtns env) → btn ∈ tabBtns env →
  exec (dispatch parseInt cssQuery env (TNode btn) "click") w = exec (tab_click env btn) w.
Proof.
  intros Hls Hnd Hb. unfold dispatch, exec, get, mbind, M_bind. rewrite Hls.
  rewrite tab_listeners_filter by done. simpl. unfold attempt. simpl. done.
Qed.

Lemma click_events_tab_clicks (parseInt : option string → jsnum)
    (cssQuery : string → list Element → option (option node)) (env : Env)
    (clicks : list node) (w : World) :
  listeners w = tab_listeners (tabBtns env) → NoDup (tabBtns env) →
  Forall (λ b, b ∈ tabBtns env) clicks →
  click_events parseInt cssQuery env clicks w = tab_clicks env clicks w.
Proof.
  intros Hls Hnd Hclicks. revert w Hls.
  induction Hclicks as [|b clicks Hb _ IH]; intros w Hls; [done|].
  unfold click_events, tab_clicks in *. simpl.
  rewrite dispatch_tab_click by done. apply IH.
  apply (keeps_exec (λ w0, listeners w0 = tab_listeners (tabBtns env)) (tab_click env b) w);
    [|done].
  apply (run_callback_listeners parseInt cssQuery env _ (CbTabClick b)).
Qed.

(** C4, as the code has it.  On a page whose tab buttons and tab panes are
    different elements, [featureTabs.init] registers the click listeners,
    and after any non-empty sequence of clicks on tab buttons, each of which
    names a pane by its data-tab attribute, the tab button clicked last is
    the one active tab button, the pane it names is the one active pane, and
    the identifier of that pane is the data-tab of that button. *)
Theorem tabs_single_selection (parseInt : option string → jsnum)
    (cssQuery : string → list Element → option (option node))
    (d : list Element) (st : gmap string string) (v : Window)
    (clicks : list node) (last pane : node) (tabId : string) :
  let env := capture d in
  (∀ n, n ∈ tabBtns env → n ∉ tabPanes env) →
  Forall (λ b, b ∈ tabBtns env ∧
               ∃ i p, getAttribute d b "data-tab" = Some i ∧
                      getElementById i d = Some p ∧ p ∈ tabPanes env)
         (clicks ++ [last]) →
  getAttribute d last "data-tab" = Some tabId →
  getElementById tabId d = Some pane →
  let w0 := exec (featureTabs_init env) (load d st v) in
  let w' := click_events parseInt cssQuery env (clicks ++ [last]) w0 in
  outcome (featureTabs_init env) (load d st v) = Ok tt ∧
  (∀ b, b ∈ tabBtns env → (has_class (dom w') b "active" = true ↔ b = last)) ∧
  (∀ p, p ∈ tabPanes env → (has_class (dom w') p "active" = true ↔ p = pane)) ∧
  getAttribute (dom w') pane "id" = Some tabId.
Proof.
  intros env Hdisj Hclicks Hattr Hpane w0 w'.
  assert (NoDup (tabBtns env)) as Hnd by apply matching_from_NoDup.
  assert (featureTabs_init env (load d st v)
          = (Ok tt, set_listeners (λ ls, ls ++ tab_listeners (tabBtns env)) (load d st v)))
    as Hinit.
  { apply tab_listeners_register; [done|]. intros b _. apply not_elem_of_nil. }
  split; [unfold outcome; by rewrite Hinit|].
  assert (w0 = set_listeners (λ ls, ls ++ tab_listeners (tabBtns env)) (load d st v)) as Hw0.
  { subst w0. unfold exec. by rewrite Hinit. }
  subst w'. clearbody w0. subst w0.
  rewrite click_events_tab_clicks; [|done|done|].
  2:{ eapply Forall_impl; [exact Hclicks|]. by intros b [Hb _]. }
  set (w0 := set_listeners _ _).
  destruct (tab_clicks_selection env w0 clicks last pane tabId Hdisj Hclicks Hattr Hpane)
    as (_ & Hb & Hp & Hid).
  done.
Qed.

Lemma tabs_single_selection_witness :
  let env := capture sample_page in
  let w0 := exec (featureTabs_init env) (load sample_page ∅ sample_window) in
  let w' := click_events sample_parseInt (λ _ _, Some None) env ([12; 11] ++ [12]) w0 in
  outcome (featureTabs_init env) (load sample_page ∅ sample_window) = Ok tt ∧
  (∀ b, b ∈ tabBtns env → (has_class (dom w') b "active" = true ↔ b = 12)) ∧
  (∀ p, p ∈ tabPanes env → (has_class (dom w') p "active" = true ↔ p = 14)) ∧
  getAttribute (dom w') 14 "id" = Some "tab2".
Proof.
  apply (tabs_single_selection sample_parseInt (λ _ _, Some None) sample_page ∅ sample_window
           [12; 11] 12 14 "tab2").
  - intros n Hn. vm_compute in Hn. vm_compute.
    apply elem_of_cons in Hn as [->|Hn]; [|apply list_elem_of_singleton in Hn as ->];
      intros [?|[=]%list_elem_of_singleton]%elem_of_cons; done.
  - repeat apply Forall_cons_2; try apply Forall_nil_2.
    + split; [vm_compute; apply list_elem_of_further, list_elem_of_here|].
      exists "tab2", 14. repeat split; vm_compute; try done.
      apply list_elem_of_further, list_elem_of_here.
    + split; [vm_compute; apply list_elem_of_here|].
      exists "tab1", 13. repeat split; vm_compute; try done. apply list_elem_of_here.
    + split; [vm_compute; apply list_elem_of_further, list_elem_of_here|].
      exists "tab2", 14. repeat split; vm_compute; try done.
      apply list_elem_of_further, list_elem_of_here.
  - reflexivity.
  - reflexivity.
Defined.

(** The claim's "exactly one tab pane" fails when a tab button is itself a
    tab pane: on the page whose button names the pane [tab1] and carries the
    class tab-pane too, one click leaves two active panes, the button and
    the pane it names. *)
Lemma tabs_button_that_is_a_pane :
  let env := capture overlap_tab_page in
  let w0 := exec (featureTabs_init env) (load overlap_tab_page ∅ sample_window) in
  let w' := click_events sample_parseInt (λ _ _, Some None) env [2] w0 in
  2 ∈ tabBtns env ∧
  getAttribute overlap_tab_page 2 "data-tab" = Some "tab1" ∧
  getElementById "tab1" overlap_tab_page = Some 3 ∧
  2 ∈ tabPanes env ∧ 3 ∈ tabPanes env ∧
  has_class (dom w') 2 "active" = true ∧ has_class (dom w') 3 "active" = true ∧
  ¬ (∃ pane, ∀ p, p ∈ tabPanes env → (has_class (dom w') p "active" = true ↔ p = pane)).
Proof.
  split; [vm_compute; apply list_elem_of_here|].
  split; [reflexivity|]. split; [reflexivity|].
  split; [vm_compute; apply list_elem_of_here|].
  split; [vm_compute; apply list_elem_of_further, list_elem_of_here|].
  split; [reflexivity|]. split; [reflexivity|].
  intros [pane H].
  assert (2 = pane) as H2.
  { apply (H 2); [vm_compute; apply list_elem_of_here|reflexivity]. }
  assert (3 = pane) as H3.
  { apply (H 3); [vm_compute; apply list_elem_of_further, list_elem_of_here|reflexivity]. }
  congruence.
Qed.
